(** * Full-page capture core of the Eyes JavaScript SDK

    A shallow embedding of the region tiling ([Region.getSubRegions]), of the
    lazily decoded image wrapper ([MutableImage]), of the viewport sizer
    ([EyesSeleniumUtils.setViewportSize]) and of the capture orchestrator
    ([EyesSeleniumUtils.getScreenshot]), with the properties stated for them.

    JavaScript numbers that hold pixel quantities are modelled as [Z]
    (the source guards them with [ArgumentGuard.isInteger] or reads them
    with [parseInt]); the precision limit of doubles is out of scope. *)

From Stdlib Require Import ZArith QArith List Lia Bool String.
Import ListNotations.
Open Scope string_scope.
Open Scope list_scope.
Open Scope Z_scope.

(** ** Results of synchronous code

    A call returns, throws, or (in the model only) exhausts the fuel of a
    [while] loop.  The theorems show that the fuel given by the top-level
    functions is always sufficient. *)

Inductive Error : Type :=
| IllegalArgument (paramName : string).

Inductive result (A : Type) : Type :=
| Ok (a : A)
| Throw (e : Error)
| OutOfFuel.

Arguments Ok {A} a.
Arguments Throw {A} e.
Arguments OutOfFuel {A}.

Definition rbind {A B : Type} (m : result A) (k : A -> result B) : result B :=
  match m with
  | Ok a => k a
  | Throw e => Throw e
  | OutOfFuel => OutOfFuel
  end.

Notation "x <-- m ;; k" := (rbind m (fun x => k))
  (at level 61, m at next level, right associativity).
Notation "m ;;; k" := (rbind m (fun _ => k))
  (at level 61, right associativity).

(** [subRegions.push(x)] on a JavaScript array. *)
Definition push {A : Type} (arr : list A) (x : A) : list A := arr ++ [x].

Module ArgumentGuard.

(** Modelled from the spec: [ArgumentGuard.greaterThanZero] is called by the
    tiling functions but its file is not part of the source tree.  The spec
    makes a non-positive tile width or height a precondition violation that
    fails fast, so the guard throws an argument error when the value is not
    greater than zero and returns otherwise. *)
Definition greaterThanZero (param : Z) (paramName : string) : result unit :=
  if 0 >=? param then Throw (IllegalArgument paramName) else Ok tt.

(** Modelled from the spec: [ArgumentGuard.greaterThanOrEqualToZero], used by
    the [Region] constructor; the data model gives regions the invariant
    width >= 0 and height >= 0, so the guard throws on a negative value. *)
Definition greaterThanOrEqualToZero (param : Z) (paramName : string) : result unit :=
  if 0 >? param then Throw (IllegalArgument paramName) else Ok tt.

End ArgumentGuard.

Module RectangleSize.

(** [RectangleSize] is required by [Region] but its file is not part of the
    source tree; only its two getters are used. *)
Record t : Type := mk { getWidth : Z; getHeight : Z }.

End RectangleSize.

Module Location.

Record t : Type := mk { getX : Z; getY : Z }.

End Location.

Module Region.

(** The declaration of [CoordinatesType] is not part of the source tree;
    [SCREENSHOT_AS_IS] is the member [Region] names, the other one stands for
    the page-relative space of the data model. *)
Inductive CoordinatesType : Type :=
| SCREENSHOT_AS_IS
| CONTEXT_RELATIVE.

Record t : Type := mk {
  getLeft : Z;
  getTop : Z;
  getWidth : Z;
  getHeight : Z;
  getCoordinatesType : CoordinatesType
}.

(** [new Region(left, top, width, height, coordinatesType)]. *)
Definition new (left top width height : Z) (coordinatesType : CoordinatesType)
  : result t :=
  ArgumentGuard.greaterThanOrEqualToZero width "width" ;;;
  ArgumentGuard.greaterThanOrEqualToZero height "height" ;;;
  Ok (mk left top width height coordinatesType).

Definition EMPTY : t := mk 0 0 0 0 SCREENSHOT_AS_IS.

Definition fromRegion (other : t) : result t :=
  new (getLeft other) (getTop other) (getWidth other) (getHeight other)
      (getCoordinatesType other).

Definition getSize (r : t) : RectangleSize.t :=
  RectangleSize.mk (getWidth r) (getHeight r).

Definition getLocation (r : t) : Location.t :=
  Location.mk (getLeft r) (getTop r).

Definition equals (r obj : t) : bool :=
  (getLeft r =? getLeft obj) && (getTop r =? getTop obj)
  && (getWidth r =? getWidth obj) && (getHeight r =? getHeight obj).

Definition isEmpty (r : t) : bool :=
  (getLeft r =? getLeft EMPTY) && (getTop r =? getTop EMPTY)
  && (getWidth r =? getWidth EMPTY) && (getHeight r =? getHeight EMPTY).

Definition containsRegion (r other : t) : bool :=
  let right := getLeft r + getWidth r in
  let otherRight := getLeft other + getWidth other in
  let bottom := getTop r + getHeight r in
  let otherBottom := getTop other + getHeight other in
  (getTop r <=? getTop other) && (getLeft r <=? getLeft other)
  && (bottom >=? otherBottom) && (right >=? otherRight).

Definition containsLocation (r : t) (location : Location.t) : bool :=
  (Location.getX location >=? getLeft r)
  && (Location.getX location <=? getLeft r + getWidth r)
  && (Location.getY location >=? getTop r)
  && (Location.getY location <=? getTop r + getHeight r).

Definition isIntersected (r other : t) : bool :=
  let right := getLeft r + getWidth r in
  let bottom := getTop r + getHeight r in
  let otherLeft := getLeft other in
  let otherTop := getTop other in
  let otherRight := otherLeft + getWidth other in
  let otherBottom := otherTop + getHeight other in
  (((getLeft r <=? otherLeft) && (otherLeft <=? right))
   || ((otherLeft <=? getLeft r) && (getLeft r <=? otherRight)))
  && (((getTop r <=? otherTop) && (otherTop <=? bottom))
      || ((otherTop <=? getTop r) && (getTop r <=? otherBottom))).

(** [intersect] replaces the receiver; the model returns its new value. *)
Definition intersect (r other : t) : t :=
  if negb (isIntersected r other) then
    mk (getLeft EMPTY) (getTop EMPTY) (getWidth EMPTY) (getHeight EMPTY)
       (getCoordinatesType EMPTY)
  else
    let otherLeft := getLeft other in
    let otherTop := getTop other in
    let intersectionLeft := if getLeft r >=? otherLeft then getLeft r else otherLeft in
    let intersectionTop := if getTop r >=? otherTop then getTop r else otherTop in
    let right := getLeft r + getWidth r in
    let otherRight := otherLeft + getWidth other in
    let intersectionRight := if right <=? otherRight then right else otherRight in
    let intersectionWidth := intersectionRight - intersectionLeft in
    let bottom := getTop r + getHeight r in
    let otherBottom := otherTop + getHeight other in
    let intersectionBottom := if bottom <=? otherBottom then bottom else otherBottom in
    let intersectionHeight := intersectionBottom - intersectionTop in
    mk intersectionLeft intersectionTop intersectionWidth intersectionHeight
       (getCoordinatesType r).

(** *** Fixed-size tiling *)

(** The inner [while (currentLeft <= right)] loop of
    [_getSubRegionsWithFixedSize]. *)
Fixpoint fixedColumns (fuel : nat) (right subRegionWidth subRegionHeight : Z)
    (currentTop currentLeft : Z) (subRegions : list t) : result (list t) :=
  if currentLeft <=? right then
    match fuel with
    | O => OutOfFuel
    | S fuel' =>
      let currentLeft :=
        if currentLeft + subRegionWidth >? right
        then (right - subRegionWidth) + 1 else currentLeft in
      r <-- new currentLeft currentTop subRegionWidth subRegionHeight SCREENSHOT_AS_IS ;;
      fixedColumns fuel' right subRegionWidth subRegionHeight currentTop
                   (currentLeft + subRegionWidth) (push subRegions r)
    end
  else Ok subRegions.

(** The outer [while (currentTop <= bottom)] loop. *)
Fixpoint fixedRows (fuel : nat) (containerLeft bottom right : Z)
    (subRegionWidth subRegionHeight : Z)
    (currentTop : Z) (subRegions : list t) : result (list t) :=
  if currentTop <=? bottom then
    match fuel with
    | O => OutOfFuel
    | S fuel' =>
      let currentTop :=
        if currentTop + subRegionHeight >? bottom
        then (bottom - subRegionHeight) + 1 else currentTop in
      subRegions <-- fixedColumns (Z.to_nat (right - containerLeft + 1)) right
                       subRegionWidth subRegionHeight currentTop containerLeft
                       subRegions ;;
      fixedRows fuel' containerLeft bottom right subRegionWidth subRegionHeight
                (currentTop + subRegionHeight) subRegions
    end
  else Ok subRegions.

Definition _getSubRegionsWithFixedSize (containerRegion : t)
    (subRegionSize : RectangleSize.t) : result (list t) :=
  let subRegions : list t := [] in
  let subRegionWidth := RectangleSize.getWidth subRegionSize in
  let subRegionHeight := RectangleSize.getHeight subRegionSize in
  ArgumentGuard.greaterThanZero subRegionWidth "subRegionSize width" ;;;
  ArgumentGuard.greaterThanZero subRegionHeight "subRegionSize height" ;;;
  (* Normalizing. *)
  let subRegionWidth :=
    if subRegionWidth >? getWidth containerRegion
    then getWidth containerRegion else subRegionWidth in
  let subRegionHeight :=
    if subRegionHeight >? getHeight containerRegion
    then getHeight containerRegion else subRegionHeight in
  if (subRegionWidth =? getWidth containerRegion)
     && (subRegionHeight =? getHeight containerRegion)
  then
    r <-- fromRegion containerRegion ;;
    Ok (push subRegions r)
  else
    let currentTop := getTop containerRegion in
    let bottom := getTop containerRegion + getHeight containerRegion - 1 in
    let right := getLeft containerRegion + getWidth containerRegion - 1 in
    fixedRows (Z.to_nat (bottom - currentTop + 1)) (getLeft containerRegion)
              bottom right subRegionWidth subRegionHeight currentTop subRegions.

(** *** Varying-size tiling *)

(** The inner [while (currentLeft < right)] loop of
    [_getSubRegionsWithVaryingSize]. *)
Fixpoint varyingColumns (fuel : nat) (right maxWidth : Z)
    (currentTop currentBottom currentLeft : Z) (subRegions : list t)
  : result (list t) :=
  if currentLeft <? right then
    match fuel with
    | O => OutOfFuel
    | S fuel' =>
      let currentRight := currentLeft + maxWidth in
      let currentRight := if currentRight >? right then right else currentRight in
      let currentHeight := currentBottom - currentTop in
      let currentWidth := currentRight - currentLeft in
      r <-- new currentLeft currentTop currentWidth currentHeight SCREENSHOT_AS_IS ;;
      varyingColumns fuel' right maxWidth currentTop currentBottom
                     (currentLeft + maxWidth) (push subRegions r)
    end
  else Ok subRegions.

(** The outer [while (currentTop < bottom)] loop. *)
Fixpoint varyingRows (fuel : nat) (containerLeft bottom right : Z)
    (maxWidth maxHeight : Z) (currentTop : Z) (subRegions : list t)
  : result (list t) :=
  if currentTop <? bottom then
    match fuel with
    | O => OutOfFuel
    | S fuel' =>
      let currentBottom := currentTop + maxHeight in
      let currentBottom := if currentBottom >? bottom then bottom else currentBottom in
      subRegions <-- varyingColumns (Z.to_nat (right - containerLeft)) right
                       maxWidth currentTop currentBottom containerLeft subRegions ;;
      varyingRows fuel' containerLeft bottom right maxWidth maxHeight
                  (currentTop + maxHeight) subRegions
    end
  else Ok subRegions.

Definition _getSubRegionsWithVaryingSize (containerRegion : t)
    (maxSubRegionSize : RectangleSize.t) : result (list t) :=
  ArgumentGuard.greaterThanZero (RectangleSize.getWidth maxSubRegionSize)
                                "maxSubRegionSize.getWidth()" ;;;
  ArgumentGuard.greaterThanZero (RectangleSize.getHeight maxSubRegionSize)
                                "maxSubRegionSize.getHeight()" ;;;
  let subRegions : list t := [] in
  let currentTop := getTop containerRegion in
  let bottom := getTop containerRegion + getHeight containerRegion in
  let right := getLeft containerRegion + getWidth containerRegion in
  varyingRows (Z.to_nat (bottom - currentTop)) (getLeft containerRegion)
              bottom right (RectangleSize.getWidth maxSubRegionSize)
              (RectangleSize.getHeight maxSubRegionSize) currentTop subRegions.

Definition getSubRegions (r : t) (subRegionSize : RectangleSize.t)
    (isFixedSize : bool) : result (list t) :=
  if isFixedSize then _getSubRegionsWithFixedSize r subRegionSize
  else _getSubRegionsWithVaryingSize r subRegionSize.

End Region.

(** ** Tiles as sets of pixels

    A region of width [w] at [left] holds the pixel columns
    [left .. left + w - 1]; this is the reading under which tiles are
    stitched into the page image. *)
Module Tiling.
Import Region.

Definition covers (r : Region.t) (x y : Z) : Prop :=
  getLeft r <= x < getLeft r + getWidth r
  /\ getTop r <= y < getTop r + getHeight r.

Definition disjoint (a b : Region.t) : Prop :=
  forall x y, ~ (covers a x y /\ covers b x y).

(** [a] comes before [b] in raster order: an earlier row, or the same row and
    further to the left. *)
Definition rowMajorBefore (a b : Region.t) : Prop :=
  getTop a < getTop b \/ (getTop a = getTop b /\ getLeft a < getLeft b).

Definition atMost (s : RectangleSize.t) (r : Region.t) : Prop :=
  getWidth r <= RectangleSize.getWidth s
  /\ getHeight r <= RectangleSize.getHeight s.

Definition inLastColumn (container r : Region.t) : Prop :=
  getLeft r + getWidth r = getLeft container + getWidth container.

Definition inLastRow (container r : Region.t) : Prop :=
  getTop r + getHeight r = getTop container + getHeight container.

(** One axis of a tiling: the list of (start, length) intervals that a
    [while] loop of the varying-size tiling visits. *)
Fixpoint varyingSegments (fuel : nat) (cur step limit : Z) : list (Z * Z) :=
  if cur <? limit then
    match fuel with
    | O => []
    | S fuel' =>
      (cur, Z.min (cur + step) limit - cur)
        :: varyingSegments fuel' (cur + step) step limit
    end
  else [].

(** One axis of the fixed-size tiling; [last] is the last pixel index. *)
Fixpoint fixedSegments (fuel : nat) (cur step last : Z) : list (Z * Z) :=
  if cur <=? last then
    match fuel with
    | O => []
    | S fuel' =>
      let c := if cur + step >? last then (last - step) + 1 else cur in
      (c, step) :: fixedSegments fuel' (c + step) step last
    end
  else [].

(** The tile sits a whole number of its own widths (heights) from the
    container's left (top) edge, or it ends at the container's far edge. *)
Definition steppedOrFlush (container r : Region.t) : Prop :=
  ((exists k, 0 <= k /\ getLeft r = getLeft container + k * getWidth r)
   \/ inLastColumn container r)
  /\ ((exists k, 0 <= k /\ getTop r = getTop container + k * getHeight r)
      \/ inLastRow container r).

Definition hasSize (w h : Z) (r : Region.t) : Prop :=
  getWidth r = w /\ getHeight r = h.

Definition tile (row col : Z * Z) : Region.t :=
  Region.mk (fst col) (fst row) (snd col) (snd row) SCREENSHOT_AS_IS.

Definition grid (rows cols : list (Z * Z)) : list Region.t :=
  flat_map (fun row => map (tile row) cols) rows.

End Tiling.

(** ** Promises

    The SDK is written against promises.  All of its chains are sequential,
    so a promise is modelled as a computation on the state of the outside
    world that settles (resolved or rejected), or never settles, and emits
    the external calls it makes, in order. *)
Module Promise.

Definition Reason : Type := string.
Bind Scope string_scope with Reason.

Inductive settled (A : Type) : Type :=
| Resolved (value : A)
| Rejected (reason : Reason)
| Pending.

Arguments Resolved {A} value.
Arguments Rejected {A} reason.
Arguments Pending {A}.

Section WithWorld.
Context {E W : Type}.

Record Run (A : Type) : Type := mkRun {
  outcome : settled A;
  final : W;
  emitted : list E
}.
Arguments mkRun {A}.
Arguments outcome {A}.
Arguments final {A}.
Arguments emitted {A}.

Definition t (A : Type) : Type := W -> Run A.

(** [promiseFactory.resolve(a)] and a rejection. *)
Definition resolve {A : Type} (a : A) : t A :=
  fun w => mkRun (Resolved a) w [].

Definition reject {A : Type} (reason : Reason) : t A :=
  fun w => mkRun (Rejected reason) w [].

(** [p.then(onFulfilled, onRejected)]. *)
Definition then2 {A B : Type} (p : t A)
    (onFulfilled : A -> t B) (onRejected : Reason -> t B) : t B :=
  fun w =>
    match p w with
    | mkRun (Resolved a) w1 ev1 =>
      match onFulfilled a w1 with
      | mkRun o w2 ev2 => mkRun o w2 (ev1 ++ ev2)
      end
    | mkRun (Rejected e) w1 ev1 =>
      match onRejected e w1 with
      | mkRun o w2 ev2 => mkRun o w2 (ev1 ++ ev2)
      end
    | mkRun Pending w1 ev1 => mkRun Pending w1 ev1
    end.

(** [p.then(onFulfilled)]: a rejection skips the callback. *)
Definition then_ {A B : Type} (p : t A) (onFulfilled : A -> t B) : t B :=
  then2 p onFulfilled reject.

(** [p.catch(onRejected)]. *)
Definition catch {A : Type} (p : t A) (onRejected : Reason -> t A) : t A :=
  then2 p resolve onRejected.

(** What the executor of [makePromise] does with its two callbacks. *)
Inductive settle (A : Type) : Type :=
| CallResolve (value : A)
| CallReject (reason : Reason)
| CallNeither.

(** [promiseFactory.makePromise((resolve, reject) => ...)].  The factory is
    not part of the source tree; it is taken to wrap the standard promise
    constructor.  The promise settles when the work started by the executor
    calls [resolve] or [reject]; when that work fails without calling either
    (the executor's own return value is ignored) it never settles. *)
Definition makePromise {A : Type} (executor : t (settle A)) : t A :=
  fun w =>
    match executor w with
    | mkRun (Resolved (CallResolve _ a)) w1 ev1 => mkRun (Resolved a) w1 ev1
    | mkRun (Resolved (CallReject _ e)) w1 ev1 => mkRun (Rejected e) w1 ev1
    | mkRun (Resolved (CallNeither _)) w1 ev1 => mkRun Pending w1 ev1
    | mkRun (Rejected _) w1 ev1 => mkRun Pending w1 ev1
    | mkRun Pending w1 ev1 => mkRun Pending w1 ev1
    end.

(** A chain started inside a callback without being returned from it: the
    callback itself completes, and the chain settles the enclosing promise
    only through the [resolve]/[reject] calls it reaches. *)
Definition detached {A : Type} (chain : t (settle A)) : t (settle A) :=
  fun w =>
    match chain w with
    | mkRun (Rejected _) w1 ev1 => mkRun (Resolved (CallNeither A)) w1 ev1
    | r => r
    end.

(** One external call: the event is emitted and the collaborator's handler
    acts on the world. *)
Definition invoke {A : Type} (e : E) (handler : W -> settled A * W) : t A :=
  fun w => let (o, w') := handler w in mkRun o w' [e].

(** An effect that cannot fail and leaves the world alone (a logger call). *)
Definition emit (e : E) : t unit :=
  fun w => mkRun (Resolved tt) w [e].

End WithWorld.

Arguments Run : clear implicits.
Arguments t : clear implicits.
Arguments mkRun {E W A}.
Arguments outcome {E W A}.
Arguments final {E W A}.
Arguments emitted {E W A}.
Arguments CallResolve {A} value.
Arguments CallReject {A} reason.
Arguments CallNeither {A}.

End Promise.

Notation "x <- p ;; k" := (Promise.then_ p (fun x => k))
  (at level 61, p at next level, right associativity).
Notation "p ;; k" := (Promise.then_ p (fun _ => k))
  (at level 61, right associativity).

(** ** The outside world

    The browser driver, the position provider and the image library are
    collaborators outside the source tree.  Each of their operations is a
    handler on an abstract state [X]; nothing is assumed about what a handler
    does, so every theorem holds for every browser. *)
Module World.
Import Promise.

Definition Buffer : Type := list Byte.byte.

(** Plain [{width, height}], [{x, y}] and [{left, top, width, height}]
    objects. *)
Record Size : Type := mkSize { width : Z; height : Z }.
Record Point : Type := mkPoint { x : Z; y : Z }.
Record Rect : Type := mkRect {
  left : Z; top : Z; rectWidth : Z; rectHeight : Z
}.

(** The scripts that [EyesSeleniumUtils] sends to [browser.executeScript]. *)
Inductive Script : Type :=
| JS_GET_VIEWPORT_SIZE
| JS_GET_CURRENT_SCROLL_POSITION
| JS_GET_IS_BODY_OVERFLOW_HIDDEN
| JS_DEVICE_PIXEL_RATIO
| JS_SET_OVERFLOW (overflowValue : option string)
| JS_SET_BODY_OVERFLOW (overflowValue : option string).

(** The inline styles that the overflow scripts read and write. *)
Record Dom : Type := mkDom {
  documentOverflow : string;
  bodyOverflow : string
}.

Section Events.
Variable PS : Type.

(** External calls and logger calls, as they appear in a run. *)
Inductive Event : Type :=
| LogVerbose (message : string) (args : list Z)
| LogLog (message : string) (args : list Z)
| WindowSetSize (w h : Z)
| WindowGetSize
| WindowSetPosition (px py : Z)
| ExecuteScript (script : Script)
| TakeScreenshot
| Sleep (ms : Z)
| GetEntireSize
| GetState
| SetPosition (p : Point)
| GetCurrentPosition
| RestoreState (state : option PS)
| ParseImage
| PackImage
| ScaleImage (scaleRatio : Q)
| CropImage (region : Rect)
| RotateImage (degrees : Z)
| SaveImage (filename : string)
| NewMutableImage
| ImageSaveImage (path : string) (timestamp : Z) (tag : string)
| ImageGetSize
| ImageCropImage (region : Rect)
| ImageScaleImage (scaleRatio : Q)
| ImageRotateImage (degrees : Z)
| ImageSetCoordinates (p : Point)
| ImageAsObject
| StitchImage (parts : nat)
| GetSubRegions (container : Rect) (partSize : Size)
| Cut
| GetRegionInLocation.

End Events.

Arguments LogVerbose {PS}.
Arguments LogLog {PS}.
Arguments WindowSetSize {PS}.
Arguments WindowGetSize {PS}.
Arguments WindowSetPosition {PS}.
Arguments ExecuteScript {PS}.
Arguments TakeScreenshot {PS}.
Arguments Sleep {PS}.
Arguments GetEntireSize {PS}.
Arguments GetState {PS}.
Arguments SetPosition {PS}.
Arguments GetCurrentPosition {PS}.
Arguments RestoreState {PS}.
Arguments ParseImage {PS}.
Arguments PackImage {PS}.
Arguments ScaleImage {PS}.
Arguments CropImage {PS}.
Arguments RotateImage {PS}.
Arguments SaveImage {PS}.
Arguments NewMutableImage {PS}.
Arguments ImageSaveImage {PS}.
Arguments ImageGetSize {PS}.
Arguments ImageCropImage {PS}.
Arguments ImageScaleImage {PS}.
Arguments ImageRotateImage {PS}.
Arguments ImageSetCoordinates {PS}.
Arguments ImageAsObject {PS}.
Arguments StitchImage {PS}.
Arguments GetSubRegions {PS}.
Arguments Cut {PS}.
Arguments GetRegionInLocation {PS}.

(** The state a promise runs on: the inline overflow styles, and the rest of
    the world. *)
Record State (X : Type) : Type := mkState { dom : Dom; outside : X }.
Arguments mkState {X}.
Arguments dom {X}.
Arguments outside {X}.

Definition Handler (X A : Type) : Type := X -> settled A * X.

(** [browser] (a WebDriver) and [GeneralUtils.sleep]. *)
Record WebDriver (X : Type) : Type := mkWebDriver {
  window_setSize : Z -> Z -> Handler X unit;
  window_getSize : Handler X Size;
  window_setPosition : Z -> Z -> Handler X unit;
  (** [executeScript(JS_GET_VIEWPORT_SIZE)]: the array [[width, height]];
      [None] stands for an entry that [isNaN] rejects. *)
  script_getViewportSize : Handler X (option Z * option Z);
  script_getCurrentScrollPosition : Handler X (option Z * option Z);
  script_devicePixelRatio : Handler X Q;
  script_isBodyOverflowHidden : Dom -> Handler X bool;
  (** Delivery of a script that only touches the overflow styles. *)
  script_deliver : Script -> Handler X unit;
  (** What [style.overflow = undefined] leaves in the style. *)
  assignUndefined : string -> string;
  takeScreenshot : Handler X Buffer;
  sleep : Z -> Handler X unit;
  (** [(new Date()).getTime()]. *)
  getTime : X -> Z
}.

Arguments window_setSize {X}.
Arguments window_getSize {X}.
Arguments window_setPosition {X}.
Arguments script_getViewportSize {X}.
Arguments script_getCurrentScrollPosition {X}.
Arguments script_devicePixelRatio {X}.
Arguments script_isBodyOverflowHidden {X}.
Arguments script_deliver {X}.
Arguments assignUndefined {X}.
Arguments takeScreenshot {X}.
Arguments sleep {X}.
Arguments getTime {X}.

Section Calls.
Context {PS X : Type}.

Definition P (A : Type) : Type := Promise.t (Event PS) (State X) A.

(** A call to a collaborator that acts on the outside only. *)
Definition call {A : Type} (e : Event PS) (h : Handler X A) : P A :=
  invoke e (fun s => let (o, x') := h (outside s) in (o, mkState (dom s) x')).

Definition verbose (message : string) (args : list Z) : P unit :=
  emit (LogVerbose message args).

Definition log (message : string) (args : list Z) : P unit :=
  emit (LogLog message args).

End Calls.

End World.

(** ** The image wrapper *)
Module MutableImage.
Import Promise World.

(** A parsed image ([png.Image]): its dimensions and its pixel data. *)
Record ImageData : Type := mkImageData {
  bmpWidth : Z;
  bmpHeight : Z;
  bmpData : Buffer
}.

(** [ImageUtils] is not part of the source tree: its functions are handlers
    on the world.  The ones that edit a bitmap in place return the bitmap
    after the edit. *)
Record ImageUtils (X : Type) : Type := mkImageUtils {
  parseImage : option Buffer -> Handler X ImageData;
  packImage : option ImageData -> Handler X Buffer;
  utilsScaleImage : option ImageData -> Q -> Handler X ImageData;
  utilsCropImage : option ImageData -> Rect -> Handler X ImageData;
  utilsRotateImage : option ImageData -> Z -> Handler X ImageData;
  (** Synchronous; [inl] is a thrown error. *)
  getImageSizeFromBuffer : option Buffer -> Reason + Size;
  utilsSaveImage : option Buffer -> string -> Handler X unit
}.

Arguments parseImage {X}.
Arguments packImage {X}.
Arguments utilsScaleImage {X}.
Arguments utilsCropImage {X}.
Arguments utilsRotateImage {X}.
Arguments getImageSizeFromBuffer {X}.
Arguments utilsSaveImage {X}.

(** The fields of a [MutableImage]; [_imageBuffer] is [null] after an edit
    and [_imageBmp] is [undefined] until the image is parsed. *)
Record t : Type := mk {
  _imageBuffer : option Buffer;
  _isParsed : bool;
  _imageBmp : option ImageData;
  _width : Z;
  _height : Z;
  _top : Z;
  _left : Z
}.

(** [new MutableImage(image, promiseFactory)]. *)
Definition new (image : Buffer) : t := mk (Some image) false None 0 0 0 0.

Definition isSome {A : Type} (o : option A) : bool :=
  match o with Some _ => true | None => false end.

Definition rectOf (region : Region.t) : Rect :=
  mkRect (Region.getLeft region) (Region.getTop region)
         (Region.getWidth region) (Region.getHeight region).

(** What an edit leaves in the object: no encoded bytes, the edited bitmap
    and its dimensions. *)
Definition edited (that : t) (bmp : ImageData) : t :=
  mk None (_isParsed that) (Some bmp) (bmpWidth bmp) (bmpHeight bmp)
     (_top that) (_left that).

Section WithImageUtils.
Context {PS X : Type}.
Variable imageUtils : ImageUtils X.

(** [const disabled = !fs.open], fixed when the module is loaded. *)
Variable disabled : bool.

Local Abbreviation P := (@World.P PS X).

(** The methods change the object in place; the model threads the object
    through and resolves to it after the call. *)

Definition _parseImage (that : t) : P t :=
  makePromise
    (if _isParsed that || disabled then resolve (CallResolve that)
     else
       imageData <- call ParseImage (parseImage imageUtils (_imageBuffer that)) ;;
       resolve (CallResolve
                  (mk (_imageBuffer that) true (Some imageData)
                      (bmpWidth imageData) (bmpHeight imageData)
                      (_top that) (_left that)))).

Definition _packImage (that : t) : P t :=
  makePromise
    (if negb (_isParsed that) || isSome (_imageBuffer that) || disabled
     then resolve (CallResolve that)
     else
       buffer <- call PackImage (packImage imageUtils (_imageBmp that)) ;;
       resolve (CallResolve
                  (mk (Some buffer) (_isParsed that) (_imageBmp that)
                      (_width that) (_height that) (_top that) (_left that)))).

(** Synchronous; [inl] is a thrown error. *)
Definition _retrieveImageSize (that : t) : Reason + t :=
  if _isParsed that || (negb (_width that =? 0) && negb (_height that =? 0))
  then inr that
  else
    match getImageSizeFromBuffer imageUtils (_imageBuffer that) with
    | inl e => inl e
    | inr imageSize =>
      inr (mk (_imageBuffer that) (_isParsed that) (_imageBmp that)
              (width imageSize) (height imageSize) (_top that) (_left that))
    end.

Definition getCoordinates (that : t) : P Location.t :=
  resolve (Location.mk (_left that) (_top that)).

Definition setCoordinates (that : t) (coordinates : Location.t) : P t :=
  resolve (mk (_imageBuffer that) (_isParsed that) (_imageBmp that)
              (_width that) (_height that)
              (Location.getY coordinates) (Location.getX coordinates)).

Definition getSize (that : t) : Reason + (RectangleSize.t * t) :=
  match _retrieveImageSize that with
  | inl e => inl e
  | inr that => inr (RectangleSize.mk (_width that) (_height that), that)
  end.

Definition getWidth (that : t) : Reason + (Z * t) :=
  match _retrieveImageSize that with
  | inl e => inl e
  | inr that => inr (_width that, that)
  end.

Definition getHeight (that : t) : Reason + (Z * t) :=
  match _retrieveImageSize that with
  | inl e => inl e
  | inr that => inr (_height that, that)
  end.

(** A synchronous call made inside a [then] callback: a thrown error
    rejects the chain. *)
Definition lift {A : Type} (r : Reason + A) : P A :=
  match r with inl e => reject e | inr a => resolve a end.

Record ImageObject : Type := mkImageObject {
  imageBuffer : option Buffer;
  objWidth : Z;
  objHeight : Z
}.

Definition asObject (that : t) : P (ImageObject * t) :=
  that <- _packImage that ;;
  that <- lift (_retrieveImageSize that) ;;
  resolve (mkImageObject (_imageBuffer that) (_width that) (_height that), that).

Definition scaleImage (that : t) (scaleRatio : Q) : P t :=
  if Qeq_bool scaleRatio 1 then resolve that
  else
    that <- _parseImage that ;;
    if _isParsed that then
      bmp <- call (ScaleImage scaleRatio)
                  (utilsScaleImage imageUtils (_imageBmp that) scaleRatio) ;;
      resolve (edited that bmp)
    else resolve that.

Definition cropImage (that : t) (region : Region.t) : P t :=
  that <- _parseImage that ;;
  if _isParsed that then
    bmp <- call (CropImage (rectOf region))
                (utilsCropImage imageUtils (_imageBmp that) (rectOf region)) ;;
    resolve (edited that bmp)
  else resolve that.

(** [getImagePart] resolves to the new image; the receiver may have been
    packed. *)
Definition getImagePart (that : t) (region : Region.t) : P (t * t) :=
  that <- _packImage that ;;
  match _imageBuffer that with
  | None => reject "Buffer.from: the first argument must not be null"
  | Some bytes =>
    newImage <- cropImage (new bytes) region ;;
    resolve (newImage, that)
  end.

Definition rotateImage (that : t) (degrees : Z) : P t :=
  if degrees =? 0 then makePromise (resolve (CallResolve that))
  else
    that <- _parseImage that ;;
    if _isParsed that then
      bmp <- call (RotateImage degrees)
                  (utilsRotateImage imageUtils (_imageBmp that) degrees) ;;
      resolve (edited that bmp)
    else resolve that.

Definition getImageBuffer (that : t) : P (option Buffer * t) :=
  that <- _packImage that ;;
  resolve (_imageBuffer that, that).

Definition saveImage (that : t) (filename : string) : P t :=
  r <- getImageBuffer that ;;
  call (SaveImage filename) (utilsSaveImage imageUtils (fst r) filename) ;;
  resolve (snd r).

Definition getImageData (that : t) : P (option ImageData * t) :=
  that <- _parseImage that ;;
  resolve (_imageBmp that, that).

End WithImageUtils.

End MutableImage.

(** ** The browser utilities: viewport sizer and capture orchestrator *)
Module EyesSeleniumUtils.
Import Promise World.

(** *** The viewport sizer *)

Section WithBrowser.
Context {PS X : Type}.
Variable browser : WebDriver X.

Local Abbreviation P := (@World.P PS X).

(** [EyesSeleniumUtils.getViewportSize]. *)
Definition getViewportSize : P Size :=
  makePromise
    (then2 (call (ExecuteScript JS_GET_VIEWPORT_SIZE)
                 (script_getViewportSize browser))
       (fun results =>
          match results with
          | (Some w, Some h) => resolve (CallResolve (mkSize w h))
          | _ => resolve (CallReject "Can't parse values.")
          end)
       (fun err => resolve (CallReject err))).

(** [EyesSeleniumUtils._setBrowserSize]; [retries] counts down to zero. *)
Fixpoint _setBrowserSize (requiredSize : Size) (retries : nat) : P unit :=
  makePromise
    (verbose "Trying to set browser size to:"
             [width requiredSize; height requiredSize] ;;
     call (WindowSetSize (width requiredSize) (height requiredSize))
          (window_setSize browser (width requiredSize) (height requiredSize)) ;;
     call (Sleep 1000) (sleep browser 1000) ;;
     currentSize <- call WindowGetSize (window_getSize browser) ;;
     log "Current browser size:" [width currentSize; height currentSize] ;;
     if (width currentSize =? width requiredSize)
        && (height currentSize =? height requiredSize)
     then resolve (CallResolve tt)
     else
       match retries with
       | O => resolve (CallReject "Failed to set browser size: retries is out.")
       | S retries' =>
         then2 (_setBrowserSize requiredSize retries')
               (fun _ => resolve (CallResolve tt))
               (fun err => resolve (CallReject err))
       end).

(** [EyesSeleniumUtils.setBrowserSize]. *)
Definition setBrowserSize (requiredSize : Size) : P bool :=
  then2 (_setBrowserSize requiredSize 3)
        (fun _ => resolve true) (fun _ => resolve false).

(** [EyesSeleniumUtils.setBrowserSizeByViewportSize]. *)
Definition setBrowserSizeByViewportSize
    (actualViewportSize requiredViewportSize : Size) : P bool :=
  browserSize <- call WindowGetSize (window_getSize browser) ;;
  verbose "Current browser size:" [width browserSize; height browserSize] ;;
  let requiredBrowserSize :=
    mkSize (width browserSize
            + (width requiredViewportSize - width actualViewportSize))
           (height browserSize
            + (height requiredViewportSize - height actualViewportSize)) in
  setBrowserSize requiredBrowserSize.

Definition sameSize (a b : Size) : bool :=
  (width a =? width b) && (height a =? height b).

(** [EyesSeleniumUtils._setWindowSize].  [retriesLeft] is a count; the
    recursive call is made when [--retriesLeft > 0]. *)
Fixpoint _setWindowSize (requiredSize actualViewportSize browserSize : Size)
    (widthDiff widthStep heightDiff heightStep : Z)
    (currWidthChange currHeightChange : Z) (retriesLeft : nat)
    (lastRequiredBrowserSize : option Size) : P unit :=
  makePromise
    (verbose "Retries left: " [Z.of_nat retriesLeft] ;;
     let currWidthChange :=
       if (Z.abs currWidthChange <=? Z.abs widthDiff)
          && negb (width actualViewportSize =? width requiredSize)
       then currWidthChange + widthStep else currWidthChange in
     let currHeightChange :=
       if (Z.abs currHeightChange <=? Z.abs heightDiff)
          && negb (height actualViewportSize =? height requiredSize)
       then currHeightChange + heightStep else currHeightChange in
     let requiredBrowserSize :=
       mkSize (width browserSize + currWidthChange)
              (height browserSize + currHeightChange) in
     if match lastRequiredBrowserSize with
        | Some last => sameSize requiredBrowserSize last
        | None => false
        end
     then
       verbose "Browser size is as required but viewport size does not match!" [] ;;
       verbose "Browser size: , Viewport size: "
               [width requiredBrowserSize; height requiredBrowserSize;
                width actualViewportSize; height actualViewportSize] ;;
       verbose "Stopping viewport size attempts." [] ;;
       resolve (CallResolve tt)
     else
       setBrowserSize requiredBrowserSize ;;
       let lastRequiredBrowserSize := Some requiredBrowserSize in
       actualViewportSize <- getViewportSize ;;
       verbose "Current viewport size:"
               [width actualViewportSize; height actualViewportSize] ;;
       if sameSize actualViewportSize requiredSize
       then resolve (CallResolve tt)
       else
         match retriesLeft with
         | S (S _ as retriesLeft') =>
           if (Z.abs currWidthChange <=? Z.abs widthDiff)
              || (Z.abs currHeightChange <=? Z.abs heightDiff)
           then
             then2 (_setWindowSize requiredSize actualViewportSize browserSize
                      widthDiff widthStep heightDiff heightStep
                      currWidthChange currHeightChange retriesLeft'
                      lastRequiredBrowserSize)
                   (fun _ => resolve (CallResolve tt))
                   (fun err => resolve (CallReject err))
           else resolve (CallReject "Failed to set window size!")
         | _ => resolve (CallReject "Failed to set window size!")
         end).

Definition MAX_DIFF : Z := 3.

(** The callback of [setViewportSize] that decides on the zoom workaround,
    given the viewport size measured after the second resize and the size of
    the browser window. *)
Definition zoomWorkaround (requiredSize actualViewportSize browserSize : Size)
  : P (settle unit) :=
  let widthDiff := width actualViewportSize - width requiredSize in
  let widthStep := if widthDiff >? 0 then -1 else 1 in
  let heightDiff := height actualViewportSize - height requiredSize in
  let heightStep := if heightDiff >? 0 then -1 else 1 in
  let currWidthChange := 0 in
  let currHeightChange := 0 in
  if (Z.abs widthDiff <=? MAX_DIFF) && (Z.abs heightDiff <=? MAX_DIFF) then
    verbose "Trying workaround for zoom..." [] ;;
    let retriesLeft :=
      Z.abs ((if widthDiff =? 0 then 1 else widthDiff)
             * (if heightDiff =? 0 then 1 else heightDiff)) * 2 in
    let lastRequiredBrowserSize : option Size := None in
    then2 (_setWindowSize requiredSize actualViewportSize browserSize
             widthDiff widthStep heightDiff heightStep
             currWidthChange currHeightChange (Z.to_nat retriesLeft)
             lastRequiredBrowserSize)
          (fun _ => resolve (CallResolve tt))
          (fun _ => resolve
                      (CallReject "Failed to set viewport size: zoom workaround failed."))
  else resolve (CallReject "Failed to set viewport size!").

(** [EyesSeleniumUtils.setViewportSize]. *)
Definition setViewportSize (requiredSize : Size) : P unit :=
  verbose "setViewportSize(" [width requiredSize; height requiredSize] ;;
  makePromise
    (catch
       (actualViewportSize <- getViewportSize ;;
        verbose "Initial viewport size:"
                [width actualViewportSize; height actualViewportSize] ;;
        if sameSize actualViewportSize requiredSize
        then resolve (CallResolve tt)
        else
          detached
            (catch (call (WindowSetPosition 0 0) (window_setPosition browser 0 0))
                   (fun _ =>
                      verbose "Warning: Failed to move the browser window to (0,0)" []) ;;
             setBrowserSizeByViewportSize actualViewportSize requiredSize ;;
             actualViewportSize <- getViewportSize ;;
             if sameSize actualViewportSize requiredSize
             then resolve (CallResolve tt)
             else
               verbose "Trying workaround for maximization..." [] ;;
               setBrowserSizeByViewportSize actualViewportSize requiredSize ;;
               actualViewportSize <- getViewportSize ;;
               verbose "Current viewport size:"
                       [width actualViewportSize; height actualViewportSize] ;;
               if sameSize actualViewportSize requiredSize
               then resolve (CallResolve tt)
               else
                 browserSize <- call WindowGetSize (window_getSize browser) ;;
                 zoomWorkaround requiredSize actualViewportSize browserSize))
       (fun err => resolve (CallReject err))).

(** [String.format] is not a function of the language: it is [None] unless a
    library loaded by the program defines it, and calling it then throws a
    [TypeError]. *)
Variable stringFormat : option (string -> Size -> string).

(** [EyesSeleniumUtils.getViewportSizeOrDisplaySize]; the error passed to
    the logger is left out of the logged arguments. *)
Definition getViewportSizeOrDisplaySize : P Size :=
  verbose "getViewportSizeOrDisplaySize()" [] ;;
  catch getViewportSize
    (fun err =>
       verbose "Failed to extract viewport size using Javascript:" [] ;;
       verbose "Using window size as viewport size." [] ;;
       size <- call WindowGetSize (window_getSize browser) ;;
       match stringFormat with
       | Some format => verbose (format "Done! Size is" size) [] ;; resolve size
       | None => reject "TypeError: String.format is not a function"
       end).

End WithBrowser.

(** *** The capture orchestrator *)

(** What [asObject] resolves to. *)
Record ImageObject : Type := mkImageObject {
  imageBuffer : Buffer;
  objWidth : Z;
  objHeight : Z
}.

(** An entry of the [parts] array handed to [ImageUtils.stitchImage]. *)
Record Part : Type := mkPart {
  image : Buffer;
  size : Size;
  position : Point
}.

(** A variable that holds [null], [undefined] or a string. *)
Inductive OverflowValue : Type :=
| Null
| Undefined
| Str (value : string).

(** JavaScript truthiness. *)
Definition truthy (v : OverflowValue) : bool :=
  match v with
  | Str value => negb (String.eqb value "")
  | _ => false
  end.

(** The collaborators of [getScreenshot] that [require('eyes.sdk')] and the
    caller supply; none of them is part of the source tree.  [Img] is a
    [MutableImage] object of that package: it lives in the world, and its
    methods are handlers that may change it in place. *)
Record Sdk (X PS Img : Type) : Type := mkSdk {
  (* PositionProvider *)
  getEntireSize : Handler X Size;
  getState : Handler X PS;
  setPosition : Point -> Handler X unit;
  getCurrentPosition : Handler X Point;
  restoreState : option PS -> Handler X unit;
  (* MutableImage *)
  newMutableImage : Buffer -> X -> Img * X;
  imageSaveImage : Img -> string -> Z -> string -> Handler X unit;
  imageGetSize : Img -> Handler X Size;
  imageCropImage : Img -> Rect -> Handler X unit;
  imageScaleImage : Img -> Q -> Handler X unit;
  imageRotateImage : Img -> Z -> Handler X unit;
  imageSetCoordinates : Img -> Point -> Handler X unit;
  imageAsObject : Img -> Handler X ImageObject;
  (* GeometryUtils; [inl] is a thrown error *)
  scaleRegion : Rect -> Q -> Rect;
  getSubRegions : Rect -> Size -> bool -> Reason + list Rect;
  (* ImageUtils *)
  stitchImage : Size -> list Part -> Handler X Buffer;
  (* the optional providers *)
  scaleProviderFactory : option (Z -> Q);
  cutProvider : option (Img -> Handler X Img);
  regionProvider : option (Img -> Handler X Rect)
}.

Arguments getEntireSize {X PS Img}.
Arguments getState {X PS Img}.
Arguments setPosition {X PS Img}.
Arguments getCurrentPosition {X PS Img}.
Arguments restoreState {X PS Img}.
Arguments newMutableImage {X PS Img}.
Arguments imageSaveImage {X PS Img}.
Arguments imageGetSize {X PS Img}.
Arguments imageCropImage {X PS Img}.
Arguments imageScaleImage {X PS Img}.
Arguments imageRotateImage {X PS Img}.
Arguments imageSetCoordinates {X PS Img}.
Arguments imageAsObject {X PS Img}.
Arguments scaleRegion {X PS Img}.
Arguments getSubRegions {X PS Img}.
Arguments stitchImage {X PS Img}.
Arguments scaleProviderFactory {X PS Img}.
Arguments cutProvider {X PS Img}.
Arguments regionProvider {X PS Img}.

Section WithCollaborators.
Context {PS X Img : Type}.
Variable browser : WebDriver X.
Variable sdk : Sdk X PS Img.

Local Abbreviation P := (@World.P PS X).

(** [when c p]: a callback that returns [p] if [c] holds and nothing
    otherwise. *)
Definition when (c : bool) (p : P unit) : P unit :=
  if c then p else resolve tt.

(** [EyesSeleniumUtils.executeScript]; [browserExecuteScript] is the call
    [browser.executeScript(script)]. *)
Definition executeScript {A : Type} (browserExecuteScript : P A)
    (stabilizationTimeMs : option Z) : P A :=
  result <- browserExecuteScript ;;
  match stabilizationTimeMs with
  | Some ms =>
    if ms =? 0 then resolve result
    else (call (Sleep ms) (sleep browser ms) ;; resolve result)
  | None => resolve result
  end.

(** [browser.executeScript] on one of the two overflow scripts: the driver
    delivers the script, which returns the inline style and replaces it (a
    style that is assigned a string is taken to keep that string). *)
Definition executeOverflowScript (script : Script)
    (get : Dom -> string) (set : string -> Dom -> Dom)
    (overflowValue : option string) : P string :=
  fun s =>
    match script_deliver browser script (outside s) with
    | (Resolved _, x') =>
      let origOverflow := get (dom s) in
      let newValue :=
        match overflowValue with
        | None => assignUndefined browser origOverflow
        | Some v => v
        end in
      mkRun (Resolved origOverflow) (mkState (set newValue (dom s)) x')
            [ExecuteScript script]
    | (Rejected e, x') =>
      mkRun (Rejected e) (mkState (dom s) x') [ExecuteScript script]
    | (Pending, x') =>
      mkRun Pending (mkState (dom s) x') [ExecuteScript script]
    end.

(** The script that [setOverflow] and [setBodyOverflow] build: [null] gives
    the script that assigns [undefined], any other value is spliced into the
    script between quotes. *)
Definition spliced (overflowValue : OverflowValue) : option string :=
  match overflowValue with
  | Null => None
  | Undefined => Some "undefined"
  | Str value => Some value
  end.

(** [EyesSeleniumUtils.setOverflow]. *)
Definition setOverflow (overflowValue : OverflowValue) : P string :=
  executeScript
    (executeOverflowScript (JS_SET_OVERFLOW (spliced overflowValue))
       documentOverflow (fun v d => mkDom v (bodyOverflow d))
       (spliced overflowValue))
    (Some 100).

(** [EyesSeleniumUtils.setBodyOverflow]. *)
Definition setBodyOverflow (overflowValue : OverflowValue) : P string :=
  executeScript
    (executeOverflowScript (JS_SET_BODY_OVERFLOW (spliced overflowValue))
       bodyOverflow (fun v d => mkDom (documentOverflow d) v)
       (spliced overflowValue))
    (Some 100).

(** [EyesSeleniumUtils.getDevicePixelRatio]. *)
Definition getDevicePixelRatio : P Q :=
  executeScript
    (call (ExecuteScript JS_DEVICE_PIXEL_RATIO) (script_devicePixelRatio browser))
    None.

(** [EyesSeleniumUtils.getCurrentScrollPosition]; an entry that cannot be
    parsed counts as 0. *)
Definition getCurrentScrollPosition : P Point :=
  results <- executeScript
               (call (ExecuteScript JS_GET_CURRENT_SCROLL_POSITION)
                     (script_getCurrentScrollPosition browser))
               None ;;
  let px := match fst results with Some v => v | None => 0 end in
  let py := match snd results with Some v => v | None => 0 end in
  resolve (mkPoint px py).

(** Saving a debug screenshot under
    ["screenshot " + (new Date()).getTime() + " " + tag + ".png"]. *)
Definition saveDebug (saveDebugScreenshots : bool) (debugScreenshotsPath : string)
    (mutableImage : Img) (tag : string) : P unit :=
  when saveDebugScreenshots
    (fun s =>
       let now := getTime browser (outside s) in
       call (ImageSaveImage debugScreenshotsPath now tag)
            (imageSaveImage sdk mutableImage debugScreenshotsPath now tag) s).

(** [EyesSeleniumUtils._captureViewport]. *)
Definition _captureViewport (viewportSize : Size) (entirePageSize : Size)
    (pixelRatio : Q) (rotationDegrees : Z) (automaticRotation : bool)
    (automaticRotationDegrees : Z) (isLandscape : bool)
    (waitBeforeScreenshots : Z) (regionInScreenshot : option Rect)
    (saveDebugScreenshots : bool) (debugScreenshotsPath : string) : P Img :=
  call (Sleep waitBeforeScreenshots) (sleep browser waitBeforeScreenshots) ;;
  screenshot64 <- call TakeScreenshot (takeScreenshot browser) ;;
  mutableImage <- invoke NewMutableImage
                    (fun s => let (img, x') := newMutableImage sdk screenshot64 (outside s) in
                              (Resolved img, mkState (dom s) x')) ;;
  saveDebug saveDebugScreenshots debugScreenshotsPath mutableImage "original" ;;
  mutableImage <-
    match cutProvider sdk with
    | Some cut => call Cut (cut mutableImage)
    | None => resolve mutableImage
    end ;;
  imageSize <- call ImageGetSize (imageGetSize sdk mutableImage) ;;
  let rotationDegrees :=
    if isLandscape && automaticRotation && (height imageSize >? width imageSize)
    then automaticRotationDegrees else rotationDegrees in
  let scaleRatio :=
    match scaleProviderFactory sdk with
    | Some getScaleRatio => getScaleRatio (width imageSize)
    | None => 1%Q
    end in
  match regionInScreenshot with
  | Some region =>
    let scaledRegion := scaleRegion sdk region (/ scaleRatio)%Q in
    call (ImageCropImage scaledRegion) (imageCropImage sdk mutableImage scaledRegion)
  | None => resolve tt
  end ;;
  saveDebug saveDebugScreenshots debugScreenshotsPath mutableImage "cropped" ;;
  when (negb (Qeq_bool scaleRatio 1))
       (call (ImageScaleImage scaleRatio) (imageScaleImage sdk mutableImage scaleRatio)) ;;
  saveDebug saveDebugScreenshots debugScreenshotsPath mutableImage "scaled" ;;
  when (negb (rotationDegrees =? 0))
       (call (ImageRotateImage rotationDegrees)
             (imageRotateImage sdk mutableImage rotationDegrees)) ;;
  imageSize <- call ImageGetSize (imageGetSize sdk mutableImage) ;;
  when ((width imageSize <=? width viewportSize)
        && (height imageSize <=? height viewportSize))
       (then2 getCurrentScrollPosition
          (fun scrollPosition =>
             call (ImageSetCoordinates scrollPosition)
                  (imageSetCoordinates sdk mutableImage scrollPosition))
          (fun _ =>
             call (ImageSetCoordinates (mkPoint 0 0))
                  (imageSetCoordinates sdk mutableImage (mkPoint 0 0)))) ;;
  resolve mutableImage.

(** [EyesSeleniumUtils._processPart]; the promise carries the [parts]
    array as filled so far. *)
Definition _processPart (part : Rect) (imageObj : ImageObject)
    (promise : P (list Part))
    (viewportSize entirePageSize : Size) (pixelRatio : Q)
    (rotationDegrees : Z) (automaticRotation : bool)
    (automaticRotationDegrees : Z) (isLandscape : bool)
    (waitBeforeScreenshots : Z) (regionInScreenshot : option Rect)
    (saveDebugScreenshots : bool) (debugScreenshotsPath : string)
  : P (list Part) :=
  parts <- promise ;;
  makePromise
    (if (left part =? 0) && (top part =? 0) then
       resolve (CallResolve
                  (push parts
                     (mkPart (imageBuffer imageObj)
                             (mkSize (objWidth imageObj) (objHeight imageObj))
                             (mkPoint 0 0))))
     else
       let partPosition := mkPoint (left part) (top part) in
       call (SetPosition partPosition) (setPosition sdk partPosition) ;;
       currentPosition <- call GetCurrentPosition (getCurrentPosition sdk) ;;
       partImage <- _captureViewport viewportSize entirePageSize pixelRatio
                      rotationDegrees automaticRotation automaticRotationDegrees
                      isLandscape waitBeforeScreenshots regionInScreenshot
                      saveDebugScreenshots debugScreenshotsPath ;;
       partObj <- call ImageAsObject (imageAsObject sdk partImage) ;;
       resolve (CallResolve
                  (push parts
                     (mkPart (imageBuffer partObj)
                             (mkSize (objWidth partObj) (objHeight partObj))
                             (mkPoint (x currentPosition) (y currentPosition)))))).

Definition MIN_SCREENSHOT_PART_HEIGHT : Z := 10.
Definition MAX_SCROLLBAR_SIZE : Z := 50.

(** What the steps of [getScreenshot] leave in its local variables before
    the tiling decision. *)
Record Captured : Type := mkCaptured {
  originalPosition : option PS;
  originalOverflow : OverflowValue;
  originalBodyOverflow : OverflowValue;
  entirePageSize : Size;
  regionInScreenshot : option Rect;
  pixelRatio : Q;
  imageObject : ImageObject;
  screenshot : Img
}.

Section GetScreenshot.
Variable viewportSize : Size.
Variable fullPage : bool.
Variable hideScrollbars : option bool.
Variable useCssTransition : bool.
Variable rotationDegrees : Z.
Variable automaticRotation : bool.
Variable automaticRotationDegrees : Z.
Variable isLandscape : bool.
Variable waitBeforeScreenshots : Z.
Variable checkFrameOrElement : bool.
Variable saveDebugScreenshots : bool.
Variable debugScreenshotsPath : string.

(** [hideScrollbars = hideScrollbars === null ? useCssTransition : hideScrollbars]. *)
Definition hideScrollbars' : bool :=
  match hideScrollbars with None => useCssTransition | Some b => b end.

(** step #1 - the entire page size, the viewport size when it cannot be
    read. *)
Definition measurePage : P Size :=
  then2 (call GetEntireSize (getEntireSize sdk))
        (fun pageSize => resolve pageSize)
        (fun _ => resolve viewportSize).

(** step #2 - the device pixel ratio, 1 when it cannot be read. *)
Definition measurePixelRatio : P Q :=
  then2 getDevicePixelRatio (fun ratio => resolve ratio) (fun _ => resolve 1%Q).

(** step #3 - hide the scrollbars if instructed; resolves to the values of
    [originalOverflow] and [originalBodyOverflow]. *)
Definition hideScrollbarsStep : P (OverflowValue * OverflowValue) :=
  if hideScrollbars' then
    originalVal <- setOverflow (Str "hidden") ;;
    if useCssTransition then
      isBodyOverflowHidden <-
        executeScript
          (fun s => call (ExecuteScript JS_GET_IS_BODY_OVERFLOW_HIDDEN)
                         (script_isBodyOverflowHidden browser (dom s)) s)
          None ;;
      if (isBodyOverflowHidden : bool) then
        originalBodyVal <- setBodyOverflow (Str "initial") ;;
        resolve (Str originalVal, Str originalBodyVal)
      else resolve (Str originalVal, Undefined)
    else resolve (Str originalVal, Undefined)
  else resolve (Undefined, Undefined).

(** step #4 - for a full page screenshot, scroll to position 0,0; resolves
    to the value of [originalPosition]. *)
Definition scrollToOrigin : P (option PS) :=
  if fullPage then
    state <- call GetState (getState sdk) ;;
    call (SetPosition (mkPoint 0 0)) (setPosition sdk (mkPoint 0 0)) ;;
    location <- call GetCurrentPosition (getCurrentPosition sdk) ;;
    if negb (x location =? 0) || negb (y location =? 0)
    then reject "Could not scroll to the x/y corner of the screen"
    else resolve (Some state)
  else resolve None.

(** The region of interest, found on a first capture of the viewport. *)
Definition locateRegion (entirePageSize : Size) (pixelRatio : Q)
  : P (option Rect) :=
  match regionProvider sdk with
  | Some getRegionInLocation =>
    image <- _captureViewport viewportSize entirePageSize pixelRatio
               rotationDegrees automaticRotation automaticRotationDegrees
               isLandscape waitBeforeScreenshots None false "" ;;
    region <- call GetRegionInLocation (getRegionInLocation image) ;;
    resolve (Some region)
  | None => resolve None
  end.

(** step #5 - the screenshot of the 0,0 tile / current viewport. *)
Definition captureFirst (entirePageSize : Size) (pixelRatio : Q)
    (regionInScreenshot : option Rect) : P (Img * ImageObject) :=
  screenshot <- _captureViewport viewportSize entirePageSize pixelRatio
                  rotationDegrees automaticRotation automaticRotationDegrees
                  isLandscape waitBeforeScreenshots
                  (if checkFrameOrElement then regionInScreenshot else None)
                  saveDebugScreenshots debugScreenshotsPath ;;
  imageObject <- call ImageAsObject (imageAsObject sdk screenshot) ;;
  resolve (screenshot, imageObject).

(** The chain up to step #5. *)
Definition captureOrigin : P Captured :=
  entirePageSize <- measurePage ;;
  pixelRatio <- measurePixelRatio ;;
  overflows <- hideScrollbarsStep ;;
  originalPosition <- scrollToOrigin ;;
  regionInScreenshot <- locateRegion entirePageSize pixelRatio ;;
  first <- captureFirst entirePageSize pixelRatio regionInScreenshot ;;
  resolve (mkCaptured originalPosition (fst overflows) (snd overflows)
             entirePageSize regionInScreenshot pixelRatio (snd first) (fst first)).

(** The promise made after step #5: decide on tiling, capture the parts and
    stitch them.  It resolves to the value of [screenshot]. *)
Definition tileAndStitch (c : Captured) : P Img :=
  makePromise
    (if negb fullPage && negb checkFrameOrElement then
       resolve (CallResolve (screenshot c))
     else if (objWidth (imageObject c) >=? width (entirePageSize c))
             && (objHeight (imageObject c) >=? height (entirePageSize c))
     then resolve (CallResolve (screenshot c))
     else
       let screenshotPartSize :=
         mkSize (objWidth (imageObject c))
                (Z.max (objHeight (imageObject c) - MAX_SCROLLBAR_SIZE)
                       MIN_SCREENSHOT_PART_HEIGHT) in
       let container :=
         mkRect 0 0 (width (entirePageSize c)) (height (entirePageSize c)) in
       emit (GetSubRegions container screenshotPartSize) ;;
       match getSubRegions sdk container screenshotPartSize false with
       | inl e => resolve (CallReject e)
       | inr screenshotParts =>
         let promise :=
           fold_left
             (fun promise part =>
                _processPart part (imageObject c) promise viewportSize
                  (entirePageSize c) (pixelRatio c) rotationDegrees
                  automaticRotation automaticRotationDegrees isLandscape
                  waitBeforeScreenshots
                  (if checkFrameOrElement then regionInScreenshot c else None)
                  saveDebugScreenshots debugScreenshotsPath)
             screenshotParts (resolve []) in
         detached
           (parts <- promise ;;
            stitchedBuffer <- call (StitchImage (List.length parts))
                                   (stitchImage sdk (entirePageSize c) parts) ;;
            screenshot <- invoke NewMutableImage
                            (fun s => let (img, x') :=
                                        newMutableImage sdk stitchedBuffer (outside s) in
                                      (Resolved img, mkState (dom s) x')) ;;
            resolve (CallResolve screenshot))
       end).

(** The steps after the tiling: put the overflow styles and the scroll
    state back, and crop to the region. *)
Definition restore (c : Captured) (screenshot : Img) : P Img :=
  (if hideScrollbars' then setOverflow (originalOverflow c) ;; resolve tt
   else resolve tt) ;;
  (if truthy (originalBodyOverflow c)
   then setBodyOverflow (originalBodyOverflow c) ;; resolve tt
   else resolve tt) ;;
  when fullPage
       (call (RestoreState (originalPosition c))
             (restoreState sdk (originalPosition c))) ;;
  match regionInScreenshot c with
  | Some region =>
    when (negb checkFrameOrElement)
         (call (ImageCropImage region) (imageCropImage sdk screenshot region))
  | None => resolve tt
  end ;;
  resolve screenshot.

(** [EyesSeleniumUtils.getScreenshot]. *)
Definition getScreenshot : P Img :=
  c <- captureOrigin ;;
  screenshot <- tileAndStitch c ;;
  restore c screenshot.

End GetScreenshot.

(** [EyesSeleniumUtils.hideScrollbars]. *)
Definition hideScrollbars : P string := setOverflow (Str "hidden").

End WithCollaborators.
End EyesSeleniumUtils.

(** ** The provider of debug screenshots *)
Module DebugScreenshotsProvider.

Definition DEFAULT_PREFIX : string := "screenshot_".

(** [_path] is [null] until [setPath] is called. *)
Record t : Type := mk { _prefix : string; _path : option string }.

(** [new DebugScreenshotsProvider()]. *)
Definition new : t := mk DEFAULT_PREFIX None.

Definition getPrefix (this : t) : string := _prefix this.

Definition getPath (this : t) : option string := _path this.

(** The argument of a setter is a string or is missing ([null],
    [undefined]); a missing argument and the empty string are falsy. *)
Definition truthy (value : option string) : bool :=
  match value with
  | Some v => negb (String.eqb v "")
  | None => false
  end.

(** [value || DEFAULT_PREFIX]. *)
Definition setPrefix (this : t) (value : option string) : t :=
  mk (match value with
      | Some v => if truthy value then v else DEFAULT_PREFIX
      | None => DEFAULT_PREFIX
      end)
     (_path this).



End DebugScreenshotsProvider.

(** ** Names of environment variables *)
Module ConfigUtils.
Import Ascii.

(** A character of the class [[A-Z]]. *)
Definition isCapital (c : ascii) : bool :=
  (65 <=? nat_of_ascii c)%nat && (nat_of_ascii c <=? 90)%nat.

(** A character that [.] matches: any but a line terminator. *)
Definition matchesDot (c : ascii) : bool :=
  negb ((nat_of_ascii c =? 10)%nat || (nat_of_ascii c =? 13)%nat).

(** [str.replace(/(.)([A-Z])/g, '$1_$2')]: the matches are looked for from
    left to right and do not overlap, so the search goes on after the
    capital of a match. *)
Fixpoint replaceBeforeCapitals (str : string) : string :=
  match str with
  | String c (String d rest as tail) =>
    if matchesDot c && isCapital d
    then String c (String "_" (String d (replaceBeforeCapitals rest)))
    else String c (replaceBeforeCapitals tail)
  | _ => str
  end.

(** [toUpperCase] on a character below 128: the letters a-z are mapped to
    A-Z.  (Above 128 the mapping of the language is not modelled.) *)
Definition upperChar (c : ascii) : ascii :=
  if (97 <=? nat_of_ascii c)%nat && (nat_of_ascii c <=? 122)%nat
  then ascii_of_nat (nat_of_ascii c - 32) else c.

Fixpoint toUpperCase (str : string) : string :=
  match str with
  | EmptyString => EmptyString
  | String c rest => String (upperChar c) (toUpperCase rest)
  end.

(** [ConfigUtils.toEnvVarName]. *)
Definition toEnvVarName (camelCaseStr : string) : string :=
  toUpperCase (replaceBeforeCapitals camelCaseStr).

End ConfigUtils.

(** ** The runner that closes the batches *)
Module EyesRunner.
Import Promise.

(** The call that the runner makes to the server. *)
Inductive Event : Type :=
| DeleteBatchSessions (batchId : string).

(** The [ServerConnector] of an [Eyes] instance is outside the source tree:
    its operation is a handler on the state [X] of the server. *)
Record ServerConnector (X : Type) : Type := mkServerConnector {
  deleteBatchSessions : string -> X -> settled unit * X
}.
Arguments deleteBatchSessions {X}.

(** What the runner uses of an [Eyes] instance: the id of its batch
    ([getBatch().getId()]) and its server connector. *)
Record Eyes (X : Type) : Type := mkEyes {
  getBatchId : string;
  _serverConnector : ServerConnector X
}.
Arguments getBatchId {X}.
Arguments _serverConnector {X}.

(** A [Set] of strings, listed in insertion order. *)
Definition has (set : list string) (value : string) : bool :=
  existsb (String.eqb value) set.

Definition add (set : list string) (value : string) : list string :=
  if has set value then set else set ++ [value].

(** The [for] loop of [_closeAllBatches]. *)
Definition collectBatchIds {X : Type} (_eyesInstances : list (Eyes X))
  : list string :=
  fold_left
    (fun batchIds eyesInstance =>
       let batchId := getBatchId eyesInstance in
       if negb (has batchIds batchId) then add batchIds batchId else batchIds)
    _eyesInstances [].

Section WithServer.
Context {X : Type}.

Local Abbreviation P := (Promise.t Event X).

(** [Promise.all] of promises that were started one after the other: every
    one of them runs; the result is rejected when one of them is, resolved
    when all of them are, and does not settle otherwise. *)
Fixpoint all {A : Type} (promises : list (P A)) : P (list A) :=
  fun w =>
    match promises with
    | [] => mkRun (Resolved []) w []
    | promise :: rest =>
      match promise w with
      | mkRun o w1 ev1 =>
        match all rest w1 with
        | mkRun os w2 ev2 =>
          mkRun
            match o, os with
            | Rejected reason, _ => Rejected reason
            | _, Rejected reason => Rejected reason
            | Resolved a, Resolved l => Resolved (a :: l)
            | _, _ => Pending
            end
            w2 (ev1 ++ ev2)
        end
      end
    end.

(** [EyesRunner._closeAllBatches]. *)
Definition _closeAllBatches (_eyesInstances : list (Eyes X)) : P unit :=
  match _eyesInstances with
  | first :: _ =>
    let batchIds := collectBatchIds _eyesInstances in
    let promises :=
      map (fun batchId =>
             invoke (DeleteBatchSessions batchId)
                    (deleteBatchSessions (_serverConnector first) batchId))
          batchIds in
    all promises ;; resolve tt
  | [] => resolve tt
  end.

End WithServer.

End EyesRunner.

(** * Properties *)

(** ** Facts about lists of ordered pairs *)
Section OrdPairs.
Context {A : Type}.

Lemma FOP_app (R : A -> A -> Prop) (l1 l2 : list A) :
  ForallOrdPairs R l1 -> ForallOrdPairs R l2 ->
  (forall a b, In a l1 -> In b l2 -> R a b) ->
  ForallOrdPairs R (l1 ++ l2).
Proof.
  induction 1 as [|a l Ha Hl IH]; intros H2 Hx; simpl; [assumption|].
  constructor.
  - apply Forall_app; split; [assumption|].
    apply Forall_forall; intros b Hb. apply Hx; [now left|assumption].
  - apply IH; [assumption|]. intros; apply Hx; [now right|assumption].
Qed.

Lemma FOP_impl (R R' : A -> A -> Prop) (l : list A) :
  (forall a b, In a l -> In b l -> R a b -> R' a b) ->
  ForallOrdPairs R l -> ForallOrdPairs R' l.
Proof.
  intros Himp H; induction H as [|a l Ha Hl IH]; constructor.
  - rewrite Forall_forall in *. intros b Hb.
    apply Himp; [now left|now right|now apply Ha].
  - apply IH. intros; apply Himp; try (now right); assumption.
Qed.

Lemma FOP_and (R R' : A -> A -> Prop) (l : list A) :
  ForallOrdPairs R l -> ForallOrdPairs R' l ->
  ForallOrdPairs (fun a b => R a b /\ R' a b) l.
Proof.
  induction 1 as [|a l Ha Hl IH]; intros H'; inversion H'; subst; constructor.
  - rewrite Forall_forall in *; auto.
  - auto.
Qed.

End OrdPairs.

Lemma FOP_map {A B : Type} (R : B -> B -> Prop) (f : A -> B) (l : list A) :
  ForallOrdPairs (fun a b => R (f a) (f b)) l -> ForallOrdPairs R (map f l).
Proof.
  induction 1 as [|a l Ha Hl IH]; simpl; constructor; [|assumption].
  apply Forall_forall; intros b Hb. apply in_map_iff in Hb as [x [<- Hx]].
  rewrite Forall_forall in Ha; auto.
Qed.

Lemma FOP_flat_map {A B : Type} (R : B -> B -> Prop) (Q : A -> A -> Prop)
    (f : A -> list B) (l : list A) :
  (forall a, In a l -> ForallOrdPairs R (f a)) ->
  (forall a a' b b', Q a a' -> In b (f a) -> In b' (f a') -> R b b') ->
  ForallOrdPairs Q l -> ForallOrdPairs R (flat_map f l).
Proof.
  intros Hin Hcross H; induction H as [|a l Ha Hl IH]; simpl; [constructor|].
  apply FOP_app.
  - apply Hin; now left.
  - apply IH. intros; apply Hin; now right.
  - intros b b' Hb Hb'. apply in_flat_map in Hb' as [a' [Ha' Hb']].
    rewrite Forall_forall in Ha. eapply Hcross; eauto.
Qed.

Lemma gtb_min (a b : Z) : (if a >? b then b else a) = Z.min a b.
Proof. destruct (Z.gtb_spec a b); lia. Qed.

(** ** One axis of a tiling *)
Module Segments.
Import Tiling.

(** [chain a b l]: the intervals of [l] follow one another without gap from
    [a] to [b], each of positive length. *)
Inductive chain : Z -> Z -> list (Z * Z) -> Prop :=
| chain_nil a : chain a a []
| chain_cons a len b l :
    0 < len -> chain (a + len) b l -> chain a b ((a, len) :: l).

Definition segBefore (p q : Z * Z) : Prop :=
  0 < snd p /\ 0 < snd q /\ fst p + snd p <= fst q.

Lemma chain_le a b l : chain a b l -> a <= b.
Proof. induction 1; lia. Qed.

Lemma chain_bounds a b l p :
  chain a b l -> In p l -> a <= fst p /\ 0 < snd p /\ fst p + snd p <= b.
Proof.
  induction 1 as [|a len b l Hlen Hc IH]; simpl; [tauto|].
  intros [<-|Hin]; simpl.
  - apply chain_le in Hc. lia.
  - specialize (IH Hin). lia.
Qed.

Lemma chain_cover a b l x :
  chain a b l -> a <= x < b ->
  exists p, In p l /\ fst p <= x < fst p + snd p.
Proof.
  induction 1 as [|a len b l Hlen Hc IH]; intros Hx; [lia|].
  destruct (Z_lt_dec x (a + len)) as [Hlt|Hge].
  - exists (a, len); simpl; split; [now left|lia].
  - destruct IH as [p [Hp Hpx]]; [lia|]. exists p; split; [now right|assumption].
Qed.

Lemma chain_ordered a b l : chain a b l -> ForallOrdPairs segBefore l.
Proof.
  induction 1 as [|a len b l Hlen Hc IH]; constructor; [|assumption].
  apply Forall_forall; intros q Hq.
  destruct (chain_bounds _ _ _ _ Hc Hq) as (H1 & H2 & H3).
  unfold segBefore; simpl; lia.
Qed.

Lemma varyingSegments_done fuel cur step limit :
  limit <= cur -> varyingSegments fuel cur step limit = [].
Proof.
  intros H. destruct fuel; simpl; destruct (Z.ltb_spec cur limit); auto; lia.
Qed.

Lemma varyingSegments_chain fuel : forall cur step limit,
  0 < step -> (Z.to_nat (limit - cur) <= fuel)%nat -> cur <= limit ->
  chain cur limit (varyingSegments fuel cur step limit).
Proof.
  induction fuel as [|fuel IH]; intros cur step limit Hs Hf Hle; simpl.
  - destruct (Z.ltb_spec cur limit); [lia|].
    replace limit with cur by lia. constructor.
  - destruct (Z.ltb_spec cur limit) as [Hlt|Hge].
    + destruct (Z_le_dec (cur + step) limit) as [Hin|Hout].
      * rewrite Z.min_l by lia. constructor; [lia|].
        replace (cur + (cur + step - cur)) with (cur + step) by lia.
        apply IH; lia.
      * rewrite Z.min_r by lia. constructor; [lia|].
        replace (cur + (limit - cur)) with limit by lia.
        rewrite varyingSegments_done by lia. constructor.
    + replace limit with cur by lia. constructor.
Qed.

(** Every interval has at most the step's length, and only one that ends at
    the limit is shorter. *)
Lemma varyingSegments_length fuel : forall cur step limit p,
  0 < step -> In p (varyingSegments fuel cur step limit) ->
  snd p <= step /\ (snd p < step -> fst p + snd p = limit).
Proof.
  induction fuel as [|fuel IH]; intros cur step limit p Hs; simpl.
  - destruct (cur <? limit); simpl; tauto.
  - destruct (Z.ltb_spec cur limit) as [Hlt|Hge]; simpl; [|tauto].
    intros [<-|Hin]; simpl; [lia|]. eapply IH; eauto.
Qed.

End Segments.

(** ** The tiling loops compute a grid *)
Module TilingLoops.
Import Region Tiling Segments.

Lemma new_ok left top width height c :
  0 <= width -> 0 <= height ->
  Region.new left top width height c = Ok (Region.mk left top width height c).
Proof.
  intros Hw Hh. unfold Region.new, ArgumentGuard.greaterThanOrEqualToZero.
  destruct (Z.gtb_spec 0 width); [lia|].
  destruct (Z.gtb_spec 0 height); [lia|]. reflexivity.
Qed.

Lemma greaterThanZero_ok v name :
  0 < v -> ArgumentGuard.greaterThanZero v name = Ok tt.
Proof.
  intros H. unfold ArgumentGuard.greaterThanZero.
  destruct (Z.geb_spec 0 v); [lia|reflexivity].
Qed.

Lemma greaterThanZero_throws v name :
  v <= 0 -> ArgumentGuard.greaterThanZero v name = Throw (IllegalArgument name).
Proof.
  intros H. unfold ArgumentGuard.greaterThanZero.
  destruct (Z.geb_spec 0 v); [reflexivity|lia].
Qed.

Lemma varyingColumns_grid fuel : forall right w ct cb cl acc,
  0 < w -> ct <= cb -> (Z.to_nat (right - cl) <= fuel)%nat ->
  varyingColumns fuel right w ct cb cl acc
  = Ok (acc ++ map (tile (ct, cb - ct)) (varyingSegments fuel cl w right)).
Proof.
  induction fuel as [|fuel IH]; intros right w ct cb cl acc Hw Hh Hf; simpl.
  - destruct (Z.ltb_spec cl right); [lia|]. now rewrite app_nil_r.
  - destruct (Z.ltb_spec cl right) as [Hlt|Hge]; [|now rewrite app_nil_r].
    rewrite gtb_min, new_ok by lia. simpl.
    rewrite IH by lia. unfold push. rewrite <- app_assoc. reflexivity.
Qed.

Lemma varyingRows_grid fuel : forall cleft bottom right w h ct acc,
  0 < w -> 0 < h -> (Z.to_nat (bottom - ct) <= fuel)%nat ->
  varyingRows fuel cleft bottom right w h ct acc
  = Ok (acc ++ grid (varyingSegments fuel ct h bottom)
                    (varyingSegments (Z.to_nat (right - cleft)) cleft w right)).
Proof.
  induction fuel as [|fuel IH]; intros cleft bottom right w h ct acc Hw Hh Hf; simpl.
  - destruct (Z.ltb_spec ct bottom); [lia|]. now rewrite app_nil_r.
  - destruct (Z.ltb_spec ct bottom) as [Hlt|Hge]; [|now rewrite app_nil_r].
    rewrite gtb_min, varyingColumns_grid by lia. simpl.
    rewrite IH by lia. rewrite <- app_assoc. reflexivity.
Qed.

Lemma in_grid rows cols t :
  In t (grid rows cols) <->
  exists row col, In row rows /\ In col cols /\ t = tile row col.
Proof.
  unfold grid. rewrite in_flat_map. split.
  - intros [row [Hr Ht]]. apply in_map_iff in Ht as [col [<- Hc]]. eauto.
  - intros (row & col & Hr & Hc & ->). exists row; split; [assumption|].
    apply in_map_iff; eauto.
Qed.

(** Rows that follow one another and columns that follow one another give
    tiles in raster order, no two of which share a pixel. *)
Lemma grid_ordered rows cols :
  ForallOrdPairs segBefore rows -> ForallOrdPairs segBefore cols ->
  ForallOrdPairs (fun a b => rowMajorBefore a b /\ disjoint a b) (grid rows cols).
Proof.
  intros Hr Hc. unfold grid.
  apply FOP_flat_map with (Q := segBefore); [| |assumption].
  - intros row _. apply FOP_map. eapply FOP_impl; [|exact Hc].
    intros p q _ _ (Hp & Hq & Hpq). split.
    + right; simpl; lia.
    + intros x y [[Hx _] [Hx' _]]; simpl in *; lia.
  - intros row row' b b' (Hp & Hq & Hpq) Hb Hb'.
    apply in_map_iff in Hb as [c [<- _]]. apply in_map_iff in Hb' as [c' [<- _]].
    split.
    + left; simpl; lia.
    + intros x y [[_ Hy] [_ Hy']]; simpl in *; lia.
Qed.

End TilingLoops.

Module VaryingTiling.
Import Region Tiling Segments TilingLoops.

(** Two regions of non-negative size that share no pixel have an
    intersection, as [Region.intersect] computes it, of no area. *)
Lemma intersect_no_area (a b : Region.t) :
  0 <= getWidth a -> 0 <= getHeight a -> 0 <= getWidth b -> 0 <= getHeight b ->
  disjoint a b ->
  getWidth (intersect a b) * getHeight (intersect a b) = 0.
Proof.
  intros Hwa Hha Hwb Hhb Hd. unfold intersect.
  destruct (isIntersected a b) eqn:Hi; simpl; [|reflexivity].
  unfold isIntersected in Hi.
  apply andb_true_iff in Hi as [Hx Hy].
  specialize (Hd (Z.max (getLeft a) (getLeft b)) (Z.max (getTop a) (getTop b))).
  unfold covers in Hd.
  destruct (Z.geb_spec (getLeft a) (getLeft b));
    destruct (Z.geb_spec (getTop a) (getTop b));
    destruct (Z.leb_spec (getLeft a + getWidth a) (getLeft b + getWidth b));
    destruct (Z.leb_spec (getTop a + getHeight a) (getTop b + getHeight b));
    apply orb_true_iff in Hx; apply orb_true_iff in Hy;
    rewrite !andb_true_iff, !Z.leb_le in Hx, Hy; nia.
Qed.

Definition onlyEdgeTilesSmaller (container : Region.t) (s : RectangleSize.t)
    (r : Region.t) : Prop :=
  (getWidth r < RectangleSize.getWidth s -> inLastColumn container r)
  /\ (getHeight r < RectangleSize.getHeight s -> inLastRow container r).

Lemma varying_is_grid (R : Region.t) (S : RectangleSize.t) :
  0 < RectangleSize.getWidth S -> 0 < RectangleSize.getHeight S ->
  getSubRegions R S false
  = Ok (grid (varyingSegments (Z.to_nat (getHeight R)) (getTop R)
                (RectangleSize.getHeight S) (getTop R + getHeight R))
             (varyingSegments (Z.to_nat (getWidth R)) (getLeft R)
                (RectangleSize.getWidth S) (getLeft R + getWidth R))).
Proof.
  intros Hw Hh. unfold getSubRegions, _getSubRegionsWithVaryingSize.
  rewrite !greaterThanZero_ok by assumption. simpl.
  rewrite varyingRows_grid by lia. simpl.
  replace (getTop R + getHeight R - getTop R) with (getHeight R) by lia.
  replace (getLeft R + getWidth R - getLeft R) with (getWidth R) by lia.
  reflexivity.
Qed.

Lemma varyingSegments_props cur step ext :
  0 < step ->
  let l := varyingSegments (Z.to_nat ext) cur step (cur + ext) in
  ForallOrdPairs segBefore l
  /\ (forall p, In p l ->
        cur <= fst p /\ 0 < snd p /\ fst p + snd p <= cur + ext
        /\ snd p <= step /\ (snd p < step -> fst p + snd p = cur + ext))
  /\ (forall x, cur <= x < cur + ext ->
        exists p, In p l /\ fst p <= x < fst p + snd p).
Proof.
  intros Hs l.
  destruct (Z_le_dec 0 ext) as [Hext|Hext].
  - assert (Hc : chain cur (cur + ext) l)
      by (apply varyingSegments_chain; lia).
    split; [exact (chain_ordered _ _ _ Hc)|]. split.
    + intros p Hp. destruct (chain_bounds _ _ _ _ Hc Hp) as (H1 & H2 & H3).
      destruct (varyingSegments_length _ _ _ _ _ Hs Hp). lia.
    + intros x Hx. exact (chain_cover _ _ _ _ Hc Hx).
  - subst l. rewrite varyingSegments_done by lia.
    split; [constructor|]. split; [intros p []|]. intros x Hx; lia.
Qed.

(** C1. For every container region [R] and every tile size [S] of positive
    width and height (in particular for a non-degenerate [R] with [S <= R]),
    [getSubRegions] with [isFixedSize = false] returns a list of tiles that
    is in raster order (left to right, top to bottom), whose tiles cover
    exactly the pixels of [R], no two of which share a pixel (and whose
    intersection as computed by [Region.intersect] has no area); every tile
    is at most [S], and a tile narrower (lower) than [S] lies in the last
    column (row). *)
Theorem varying_tiling_partitions (R : Region.t) (S : RectangleSize.t) :
  0 < RectangleSize.getWidth S -> 0 < RectangleSize.getHeight S ->
  exists tiles,
    getSubRegions R S false = Ok tiles
    /\ ForallOrdPairs rowMajorBefore tiles
    /\ (forall x y, covers R x y <-> exists t, In t tiles /\ covers t x y)
    /\ ForallOrdPairs disjoint tiles
    /\ ForallOrdPairs
         (fun a b => getWidth (intersect a b) * getHeight (intersect a b) = 0)
         tiles
    /\ Forall (fun t => atMost S t /\ onlyEdgeTilesSmaller R S t) tiles.
Proof.
  intros Hw Hh. eexists. split; [apply varying_is_grid; assumption|].
  destruct (varyingSegments_props (getTop R) (RectangleSize.getHeight S)
              (getHeight R) Hh) as (Hro & Hrb & Hrc).
  destruct (varyingSegments_props (getLeft R) (RectangleSize.getWidth S)
              (getWidth R) Hw) as (Hco & Hcb & Hcc).
  set (rows := varyingSegments _ (getTop R) _ _) in *.
  set (cols := varyingSegments _ (getLeft R) _ _) in *.
  pose proof (grid_ordered rows cols Hro Hco) as Hord.
  split; [|split; [|split; [|split]]].
  - eapply FOP_impl; [|exact Hord]. intros a b _ _ [H _]; exact H.
  - intros x y. split.
    + intros [Hx Hy]. destruct (Hcc x Hx) as [c [Hc Hcx]].
      destruct (Hrc y Hy) as [r [Hr Hry]].
      exists (tile r c). split; [apply in_grid; eauto|].
      split; simpl; assumption.
    + intros [t [Ht [Hx Hy]]]. apply in_grid in Ht as (r & c & Hr & Hc & ->).
      simpl in *. specialize (Hrb r Hr). specialize (Hcb c Hc).
      split; lia.
  - eapply FOP_impl; [|exact Hord]. intros a b _ _ [_ H]; exact H.
  - eapply FOP_impl; [|exact Hord]. intros a b Ha Hb [_ H].
    apply in_grid in Ha as (r & c & Hr & Hc & ->).
    apply in_grid in Hb as (r' & c' & Hr' & Hc' & ->).
    pose proof (Hrb r Hr). pose proof (Hcb c Hc).
    pose proof (Hrb r' Hr'). pose proof (Hcb c' Hc').
    apply intersect_no_area; simpl; try lia. exact H.
  - apply Forall_forall. intros t Ht.
    apply in_grid in Ht as (r & c & Hr & Hc & ->).
    specialize (Hrb r Hr). specialize (Hcb c Hc).
    unfold atMost, onlyEdgeTilesSmaller, inLastColumn, inLastRow; simpl.
    repeat split; lia.
Qed.

Lemma varying_tiling_partitions_witness :
  0 < RectangleSize.getWidth (RectangleSize.mk 4 5)
  /\ 0 < RectangleSize.getHeight (RectangleSize.mk 4 5)
  /\ exists tiles,
    getSubRegions (Region.mk 0 0 10 10 SCREENSHOT_AS_IS)
                  (RectangleSize.mk 4 5) false = Ok tiles
    /\ ForallOrdPairs rowMajorBefore tiles
    /\ (forall x y, covers (Region.mk 0 0 10 10 SCREENSHOT_AS_IS) x y
                    <-> exists t, In t tiles /\ covers t x y)
    /\ ForallOrdPairs disjoint tiles
    /\ ForallOrdPairs
         (fun a b => getWidth (intersect a b) * getHeight (intersect a b) = 0)
         tiles
    /\ Forall (fun t => atMost (RectangleSize.mk 4 5) t
                        /\ onlyEdgeTilesSmaller
                             (Region.mk 0 0 10 10 SCREENSHOT_AS_IS)
                             (RectangleSize.mk 4 5) t) tiles.
Proof.
  split; [simpl; lia|]. split; [simpl; lia|].
  apply (varying_tiling_partitions (Region.mk 0 0 10 10 SCREENSHOT_AS_IS)
           (RectangleSize.mk 4 5)); simpl; lia.
Defined.

End VaryingTiling.

Module FixedTiling.
Import Region Tiling Segments TilingLoops.

(** A start position of the fixed-size tiling is a whole number of steps
    from the first one, or it was moved back so that the interval ends at
    the far edge. *)
Definition onStepOrFlush (first step last : Z) (p : Z * Z) : Prop :=
  (exists k, 0 <= k /\ fst p = first + k * step) \/ fst p + step = last + 1.

Lemma fixedSegments_done fuel cur step last :
  last < cur -> fixedSegments fuel cur step last = [].
Proof.
  intros H. destruct fuel; simpl; destruct (Z.leb_spec cur last); auto; lia.
Qed.

Lemma fixedSegments_props fuel : forall first cur step last,
  0 < step -> first + step <= last + 1 ->
  (exists k, 0 <= k /\ cur = first + k * step) ->
  (Z.to_nat (last - cur + 1) <= fuel)%nat ->
  let l := fixedSegments fuel cur step last in
  (forall p, In p l ->
     snd p = step /\ Z.min cur (last - step + 1) <= fst p
     /\ fst p + step <= last + 1 /\ onStepOrFlush first step last p)
  /\ (forall x, cur <= x <= last ->
        exists p, In p l /\ fst p <= x < fst p + snd p)
  /\ ForallOrdPairs (fun p q => fst p < fst q) l.
Proof.
  induction fuel as [|fuel IH]; intros first cur step last Hs Hfit Hk Hf; simpl.
  - destruct (Z.leb_spec cur last); [lia|].
    split; [intros p []|]. split; [intros; lia|constructor].
  - destruct (Z.leb_spec cur last) as [Hle|Hgt].
    2:{ split; [intros p []|]. split; [intros; lia|constructor]. }
    destruct (Z.gtb_spec (cur + step) last) as [Hshift|Hstay].
    + replace (last - step + 1 + step) with (last + 1) by lia.
      rewrite fixedSegments_done by lia.
      split; [|split].
      * intros p [<-|[]]; simpl. repeat split; try lia.
        right; simpl; lia.
      * intros x Hx. exists (last - step + 1, step); simpl. split; [now left|lia].
      * repeat constructor.
    + destruct Hk as [k [Hk0 Hk]].
      destruct (IH first (cur + step) step last Hs Hfit) as (Hp & Hc & Ho);
        [exists (k + 1); split; lia|lia|].
      split; [|split].
      * intros p [<-|Hin]; simpl.
        -- repeat split; try lia. left; exists k; simpl; lia.
        -- destruct (Hp p Hin) as (H1 & H2 & H3 & H4). repeat split; try lia.
           exact H4.
      * intros x Hx. destruct (Z_lt_dec x (cur + step)) as [Hlt|Hge].
        -- exists (cur, step); simpl; split; [now left|lia].
        -- destruct (Hc x) as [p [Hin Hpx]]; [lia|].
           exists p; split; [now right|assumption].
      * constructor; [|assumption]. apply Forall_forall. intros q Hq.
        destruct (Hp q Hq) as (H1 & H2 & H3 & H4). simpl. lia.
Qed.

Lemma fixedColumns_grid fuel : forall right w h ct cl acc,
  (cl <= right -> 0 < w /\ 0 <= h) ->
  (Z.to_nat (right - cl + 1) <= fuel)%nat ->
  fixedColumns fuel right w h ct cl acc
  = Ok (acc ++ map (tile (ct, h)) (fixedSegments fuel cl w right)).
Proof.
  induction fuel as [|fuel IH]; intros right w h ct cl acc Hpos Hf; simpl.
  - destruct (Z.leb_spec cl right); [lia|]. now rewrite app_nil_r.
  - destruct (Z.leb_spec cl right) as [Hle|Hgt]; [|now rewrite app_nil_r].
    destruct (Hpos Hle) as [Hw Hh].
    rewrite new_ok by lia. simpl.
    rewrite IH.
    + unfold push. rewrite <- app_assoc. reflexivity.
    + intros _; split; assumption.
    + destruct (Z.gtb_spec (cl + w) right); lia.
Qed.

Lemma fixedRows_grid fuel : forall cleft bottom right w h ct acc,
  (cleft <= right -> 0 < w) -> (ct <= bottom -> 0 < h) ->
  (Z.to_nat (bottom - ct + 1) <= fuel)%nat ->
  fixedRows fuel cleft bottom right w h ct acc
  = Ok (acc ++ grid (fixedSegments fuel ct h bottom)
                    (fixedSegments (Z.to_nat (right - cleft + 1)) cleft w right)).
Proof.
  induction fuel as [|fuel IH]; intros cleft bottom right w h ct acc Hw Hh Hf; simpl.
  - destruct (Z.leb_spec ct bottom); [lia|]. now rewrite app_nil_r.
  - destruct (Z.leb_spec ct bottom) as [Hle|Hgt]; [|now rewrite app_nil_r].
    specialize (Hh Hle).
    rewrite fixedColumns_grid by (try lia; intros H; specialize (Hw H); lia).
    simpl. rewrite IH.
    + rewrite <- app_assoc. reflexivity.
    + assumption.
    + intros _; assumption.
    + destruct (Z.gtb_spec (ct + h) bottom); lia.
Qed.

Lemma grid_nil_r rows : grid rows [] = [].
Proof. unfold grid. induction rows; simpl; auto. Qed.

Lemma fixed_single (R : Region.t) (S : RectangleSize.t) :
  0 <= getWidth R -> 0 <= getHeight R ->
  0 < RectangleSize.getWidth S -> 0 < RectangleSize.getHeight S ->
  getWidth R <= RectangleSize.getWidth S ->
  getHeight R <= RectangleSize.getHeight S ->
  getSubRegions R S true = Ok [R].
Proof.
  intros HRw HRh Hw Hh Hcw Hch.
  unfold getSubRegions, _getSubRegionsWithFixedSize.
  rewrite !greaterThanZero_ok by assumption. simpl.
  rewrite !gtb_min.
  replace (Z.min (RectangleSize.getWidth S) (getWidth R)) with (getWidth R) by lia.
  replace (Z.min (RectangleSize.getHeight S) (getHeight R)) with (getHeight R) by lia.
  rewrite !Z.eqb_refl. simpl. unfold fromRegion.
  rewrite new_ok by assumption. destruct R; reflexivity.
Qed.

Lemma fixed_is_grid (R : Region.t) (S : RectangleSize.t) :
  0 < RectangleSize.getWidth S -> 0 < RectangleSize.getHeight S ->
  ~ (getWidth R <= RectangleSize.getWidth S
     /\ getHeight R <= RectangleSize.getHeight S) ->
  getSubRegions R S true
  = Ok (grid (fixedSegments (Z.to_nat (getHeight R)) (getTop R)
                (Z.min (RectangleSize.getHeight S) (getHeight R))
                (getTop R + getHeight R - 1))
             (fixedSegments (Z.to_nat (getWidth R)) (getLeft R)
                (Z.min (RectangleSize.getWidth S) (getWidth R))
                (getLeft R + getWidth R - 1))).
Proof.
  intros Hw Hh Hbig.
  unfold getSubRegions, _getSubRegionsWithFixedSize.
  rewrite !greaterThanZero_ok by assumption. simpl.
  rewrite !gtb_min.
  destruct (Z.eqb_spec (Z.min (RectangleSize.getWidth S) (getWidth R)) (getWidth R));
    destruct (Z.eqb_spec (Z.min (RectangleSize.getHeight S) (getHeight R)) (getHeight R));
    simpl; try lia;
    (rewrite fixedRows_grid by lia; simpl;
     replace (getTop R + getHeight R - 1 - getTop R + 1) with (getHeight R) by lia;
     replace (getLeft R + getWidth R - 1 - getLeft R + 1) with (getWidth R) by lia;
     reflexivity).
Qed.

Lemma grid_rowMajor rows cols :
  ForallOrdPairs (fun p q : Z * Z => fst p < fst q) rows ->
  ForallOrdPairs (fun p q : Z * Z => fst p < fst q) cols ->
  ForallOrdPairs rowMajorBefore (grid rows cols).
Proof.
  intros Hr Hc. unfold grid.
  apply FOP_flat_map with (Q := fun p q : Z * Z => fst p < fst q);
    [| |assumption].
  - intros row _. apply FOP_map. eapply FOP_impl; [|exact Hc].
    intros p q _ _ Hpq. right; simpl in *; lia.
  - intros row row' b b' Hlt Hb Hb'.
    apply in_map_iff in Hb as [c [<- _]]. apply in_map_iff in Hb' as [c' [<- _]].
    left; simpl in *; lia.
Qed.

Lemma fixedSegments_axis (first step ext : Z) :
  0 <= ext -> 0 < step ->
  let l := fixedSegments (Z.to_nat ext) first (Z.min step ext) (first + ext - 1) in
  (forall p, In p l ->
     snd p = Z.min step ext /\ first <= fst p /\ fst p + snd p <= first + ext
     /\ ((exists k, 0 <= k /\ fst p = first + k * snd p)
         \/ fst p + snd p = first + ext))
  /\ (forall x, first <= x < first + ext ->
        exists p, In p l /\ fst p <= x < fst p + snd p)
  /\ ForallOrdPairs (fun p q => fst p < fst q) l.
Proof.
  intros Hext Hs l.
  destruct (Z.eq_dec ext 0) as [->|Hne].
  - subst l. rewrite fixedSegments_done by lia.
    split; [intros p []|]. split; [intros; lia|constructor].
  - destruct (fixedSegments_props (Z.to_nat ext) first first (Z.min step ext)
                (first + ext - 1)) as (Hp & Hc & Ho);
      [lia|lia|exists 0; lia|lia|].
    fold l in Hp, Hc, Ho. split; [|split; [|exact Ho]].
    + intros p Hin. destruct (Hp p Hin) as (H1 & H2 & H3 & H4).
      rewrite H1. repeat split; try lia.
      destruct H4 as [[k [Hk0 Hk]]|H4]; [left; exists k; split; lia|right; lia].
    + intros x Hx. apply Hc. lia.
Qed.

Lemma fixed_grid_props (R : Region.t) (S : RectangleSize.t) :
  0 <= getWidth R -> 0 <= getHeight R ->
  0 < RectangleSize.getWidth S -> 0 < RectangleSize.getHeight S ->
  let tiles :=
    grid (fixedSegments (Z.to_nat (getHeight R)) (getTop R)
            (Z.min (RectangleSize.getHeight S) (getHeight R))
            (getTop R + getHeight R - 1))
         (fixedSegments (Z.to_nat (getWidth R)) (getLeft R)
            (Z.min (RectangleSize.getWidth S) (getWidth R))
            (getLeft R + getWidth R - 1)) in
  Forall (hasSize (Z.min (RectangleSize.getWidth S) (getWidth R))
                  (Z.min (RectangleSize.getHeight S) (getHeight R))) tiles
  /\ ForallOrdPairs rowMajorBefore tiles
  /\ (forall x y, covers R x y <-> exists t, In t tiles /\ covers t x y)
  /\ Forall (steppedOrFlush R) tiles.
Proof.
  intros HRw HRh Hw Hh tiles.
  destruct (fixedSegments_axis (getTop R) (RectangleSize.getHeight S)
              (getHeight R) HRh Hh) as (Hrp & Hrc & Hro).
  destruct (fixedSegments_axis (getLeft R) (RectangleSize.getWidth S)
              (getWidth R) HRw Hw) as (Hcp & Hcc & Hco).
  subst tiles.
  set (rows := fixedSegments _ (getTop R) _ _) in *.
  set (cols := fixedSegments _ (getLeft R) _ _) in *.
  split; [|split; [|split]].
  - apply Forall_forall. intros t Ht.
    apply in_grid in Ht as (r & c & Hr & Hc & ->).
    destruct (Hrp r Hr) as [H1 _]. destruct (Hcp c Hc) as [H2 _].
    split; simpl; assumption.
  - apply grid_rowMajor; assumption.
  - intros x y. split.
    + intros [Hx Hy]. destruct (Hcc x Hx) as [c [Hc Hcx]].
      destruct (Hrc y Hy) as [r [Hr Hry]].
      exists (tile r c). split; [apply in_grid; eauto|].
      split; simpl; assumption.
    + intros [t [Ht [Hx Hy]]]. apply in_grid in Ht as (r & c & Hr & Hc & ->).
      simpl in *. specialize (Hrp r Hr). specialize (Hcp c Hc). split; lia.
  - apply Forall_forall. intros t Ht.
    apply in_grid in Ht as (r & c & Hr & Hc & ->).
    destruct (Hrp r Hr) as (_ & _ & _ & H1).
    destruct (Hcp c Hc) as (_ & _ & _ & H2).
    unfold steppedOrFlush, inLastColumn, inLastRow; simpl. split; assumption.
Qed.

(** C2, as the code has it. For every container region [R] (of non-negative
    width and height, as the constructor guarantees) and every tile size [S]
    of positive width and height, [getSubRegions] with [isFixedSize = true]
    returns tiles that all have the size of [S] normalised to the container,
    that is [min S.width R.width] by [min S.height R.height]; if [S >= R] in
    both dimensions the result is the single tile [R]; otherwise the tiles
    are in raster order, cover exactly the pixels of [R], and each tile
    starts a whole number of tile widths (heights) from the left (top) edge
    of [R] or is moved back to end at the far edge of [R]. *)
Theorem fixed_tiling_normalised (R : Region.t) (S : RectangleSize.t) :
  0 <= getWidth R -> 0 <= getHeight R ->
  0 < RectangleSize.getWidth S -> 0 < RectangleSize.getHeight S ->
  exists tiles,
    getSubRegions R S true = Ok tiles
    /\ Forall (hasSize (Z.min (RectangleSize.getWidth S) (getWidth R))
                       (Z.min (RectangleSize.getHeight S) (getHeight R))) tiles
    /\ (getWidth R <= RectangleSize.getWidth S ->
        getHeight R <= RectangleSize.getHeight S -> tiles = [R])
    /\ (~ (getWidth R <= RectangleSize.getWidth S
           /\ getHeight R <= RectangleSize.getHeight S) ->
        ForallOrdPairs rowMajorBefore tiles
        /\ (forall x y, covers R x y <-> exists t, In t tiles /\ covers t x y)
        /\ Forall (steppedOrFlush R) tiles).
Proof.
  intros HRw HRh Hw Hh.
  destruct (Z_le_dec (getWidth R) (RectangleSize.getWidth S)) as [Hcw|Hcw];
    [destruct (Z_le_dec (getHeight R) (RectangleSize.getHeight S)) as [Hch|Hch]|].
  - exists [R]. split; [apply fixed_single; assumption|].
    split; [|split; [reflexivity|tauto]].
    repeat constructor; simpl; lia.
  - eexists. split; [apply fixed_is_grid; tauto|].
    destruct (fixed_grid_props R S HRw HRh Hw Hh) as (H1 & H2 & H3 & H4).
    split; [exact H1|]. split; [intros; lia|]. intros _. auto.
  - eexists. split; [apply fixed_is_grid; tauto|].
    destruct (fixed_grid_props R S HRw HRh Hw Hh) as (H1 & H2 & H3 & H4).
    split; [exact H1|]. split; [intros; lia|]. intros _. auto.
Qed.

Lemma fixed_tiling_normalised_witness :
  0 <= 10 /\ 0 < 4 /\ 0 < 5
  /\ exists tiles,
    getSubRegions (Region.mk 0 0 10 10 SCREENSHOT_AS_IS)
                  (RectangleSize.mk 4 5) true = Ok tiles
    /\ Forall (hasSize 4 5) tiles
    /\ ForallOrdPairs rowMajorBefore tiles
    /\ (forall x y, covers (Region.mk 0 0 10 10 SCREENSHOT_AS_IS) x y
                    <-> exists t, In t tiles /\ covers t x y)
    /\ Forall (steppedOrFlush (Region.mk 0 0 10 10 SCREENSHOT_AS_IS)) tiles.
Proof.
  split; [lia|]. split; [lia|]. split; [lia|].
  destruct (fixed_tiling_normalised (Region.mk 0 0 10 10 SCREENSHOT_AS_IS)
              (RectangleSize.mk 4 5)) as (tiles & H1 & H2 & _ & H3);
    simpl; try lia.
  exists tiles. split; [exact H1|]. split; [exact H2|].
  apply H3. simpl; lia.
Defined.

(** The claim as stated (every tile has exactly the requested size) fails
    when the requested size exceeds the container in one dimension only: a
    20x5 request on a 10x10 region yields two 10x5 tiles. *)
Lemma fixed_tiles_not_requested_size :
  getSubRegions (Region.mk 0 0 10 10 SCREENSHOT_AS_IS)
                (RectangleSize.mk 20 5) true
  = Ok [Region.mk 0 0 10 5 SCREENSHOT_AS_IS; Region.mk 0 5 10 5 SCREENSHOT_AS_IS]
  /\ ~ Forall (hasSize 20 5)
        [Region.mk 0 0 10 5 SCREENSHOT_AS_IS; Region.mk 0 5 10 5 SCREENSHOT_AS_IS].
Proof.
  split; [reflexivity|].
  intros H. inversion H as [|? ? [Hw _] _]. simpl in Hw. discriminate.
Qed.

(** In the same mode a 4x5 request on a 10x10 region moves the last column
    back to start at 6, where it shares the pixel columns 6 and 7 with its
    neighbour that starts at 4. *)
Example fixed_last_column_overlaps :
  getSubRegions (Region.mk 0 0 10 10 SCREENSHOT_AS_IS)
                (RectangleSize.mk 4 5) true
  = Ok [Region.mk 0 0 4 5 SCREENSHOT_AS_IS; Region.mk 4 0 4 5 SCREENSHOT_AS_IS;
        Region.mk 6 0 4 5 SCREENSHOT_AS_IS; Region.mk 0 5 4 5 SCREENSHOT_AS_IS;
        Region.mk 4 5 4 5 SCREENSHOT_AS_IS; Region.mk 6 5 4 5 SCREENSHOT_AS_IS]
  /\ covers (Region.mk 4 0 4 5 SCREENSHOT_AS_IS) 6 0
  /\ covers (Region.mk 6 0 4 5 SCREENSHOT_AS_IS) 6 0.
Proof. split; [reflexivity|]. unfold covers; simpl; lia. Qed.

End FixedTiling.

Module DegenerateTileSize.
Import Region TilingLoops.

(** C9. Under either tiling policy, a tile size whose width or height is not
    greater than zero makes [getSubRegions] throw an argument error; the call
    yields no list of tiles at all. *)
Theorem getSubRegions_rejects_degenerate_size
    (R : Region.t) (S : RectangleSize.t) (isFixedSize : bool) :
  RectangleSize.getWidth S <= 0 \/ RectangleSize.getHeight S <= 0 ->
  exists paramName,
    getSubRegions R S isFixedSize = Throw (IllegalArgument paramName).
Proof.
  intros Hdeg. unfold getSubRegions.
  destruct isFixedSize;
    unfold _getSubRegionsWithFixedSize, _getSubRegionsWithVaryingSize;
    (destruct (Z_le_dec (RectangleSize.getWidth S) 0) as [Hw|Hw];
     [rewrite (greaterThanZero_throws _ _ Hw); simpl; eauto
     |rewrite greaterThanZero_ok by lia; simpl;
      rewrite greaterThanZero_throws by lia; simpl; eauto]).
Qed.

Lemma getSubRegions_rejects_degenerate_size_witness :
  (RectangleSize.getWidth (RectangleSize.mk 0 5) <= 0
   \/ RectangleSize.getHeight (RectangleSize.mk 0 5) <= 0)
  /\ exists paramName,
       getSubRegions (Region.mk 0 0 10 10 SCREENSHOT_AS_IS)
                     (RectangleSize.mk 0 5) true
       = Throw (IllegalArgument paramName).
Proof.
  split; [left; simpl; lia|].
  apply (getSubRegions_rejects_degenerate_size
           (Region.mk 0 0 10 10 SCREENSHOT_AS_IS) (RectangleSize.mk 0 5) true).
  left; simpl; lia.
Defined.

End DegenerateTileSize.

(** ** The geometry of regions *)
Module RegionFacts.
Import Region Tiling.

Lemma isIntersected_true (a b : Region.t) :
  isIntersected a b = true <->
  (getLeft a <= getLeft b <= getLeft a + getWidth a
   \/ getLeft b <= getLeft a <= getLeft b + getWidth b)
  /\ (getTop a <= getTop b <= getTop a + getHeight a
      \/ getTop b <= getTop a <= getTop b + getHeight b).
Proof.
  unfold isIntersected. cbv zeta.
  rewrite andb_true_iff, !orb_true_iff, !andb_true_iff, !Z.leb_le. tauto.
Qed.

Lemma containsRegion_true (a b : Region.t) :
  containsRegion a b = true <->
  getTop a <= getTop b /\ getLeft a <= getLeft b
  /\ getTop b + getHeight b <= getTop a + getHeight a
  /\ getLeft b + getWidth b <= getLeft a + getWidth a.
Proof.
  unfold containsRegion. cbv zeta.
  rewrite !andb_true_iff, !Z.leb_le, !Z.geb_le. tauto.
Qed.

Lemma containsLocation_true (r : Region.t) (location : Location.t) :
  containsLocation r location = true <->
  getLeft r <= Location.getX location <= getLeft r + getWidth r
  /\ getTop r <= Location.getY location <= getTop r + getHeight r.
Proof.
  unfold containsLocation.
  rewrite !andb_true_iff, !Z.leb_le, !Z.geb_le. tauto.
Qed.

Ltac compare_all :=
  repeat match goal with
         | |- context [?x >=? ?y] => destruct (Z.geb_spec x y)
         | |- context [?x <=? ?y] => destruct (Z.leb_spec x y)
         end.

(** The rectangle that [intersect] leaves when the regions intersect. *)
Lemma intersect_fields (a b : Region.t) :
  isIntersected a b = true ->
  getLeft (intersect a b) = Z.max (getLeft a) (getLeft b)
  /\ getTop (intersect a b) = Z.max (getTop a) (getTop b)
  /\ getWidth (intersect a b)
     = Z.min (getLeft a + getWidth a) (getLeft b + getWidth b)
       - Z.max (getLeft a) (getLeft b)
  /\ getHeight (intersect a b)
     = Z.min (getTop a + getHeight a) (getTop b + getHeight b)
       - Z.max (getTop a) (getTop b).
Proof.
  intros H. unfold intersect. rewrite H. cbn.
  repeat split; compare_all; lia.
Qed.

Lemma intersect_apart (a b : Region.t) :
  isIntersected a b = false -> intersect a b = EMPTY.
Proof. intros H. unfold intersect. rewrite H. reflexivity. Qed.

(** X1. [intersect] computes the common pixels: a pixel lies in the region that
    [intersect] leaves exactly when it lies in both regions.  In particular
    two regions that [isIntersected] rejects share no pixel. *)
Theorem intersect_is_common_pixels (a b : Region.t) (x y : Z) :
  covers (intersect a b) x y <-> covers a x y /\ covers b x y.
Proof.
  destruct (isIntersected a b) eqn:Hi.
  - destruct (intersect_fields a b Hi) as (Hl & Ht & Hw & Hh).
    unfold covers. rewrite Hl, Ht, Hw, Hh. lia.
  - rewrite (intersect_apart a b Hi).
    assert (Hn : ~ isIntersected a b = true) by (rewrite Hi; discriminate).
    rewrite isIntersected_true in Hn.
    unfold covers; simpl. lia.
Qed.

(** X2. [isIntersected] does not depend on which region is the receiver, and
    [intersect] leaves the same rectangle (as [equals] compares it) whichever
    of the two regions is the receiver. *)
Theorem intersect_commutes (a b : Region.t) :
  isIntersected a b = isIntersected b a
  /\ equals (intersect a b) (intersect b a) = true.
Proof.
  assert (Hs : isIntersected a b = isIntersected b a).
  { apply eq_true_iff_eq. rewrite !isIntersected_true. tauto. }
  split; [exact Hs|].
  destruct (isIntersected a b) eqn:Hi.
  - destruct (intersect_fields a b Hi) as (Hl & Ht & Hw & Hh).
    destruct (intersect_fields b a (eq_sym Hs)) as (Hl' & Ht' & Hw' & Hh').
    unfold equals. rewrite Hl, Ht, Hw, Hh, Hl', Ht', Hw', Hh'.
    rewrite !andb_true_iff, !Z.eqb_eq. lia.
  - rewrite (intersect_apart a b Hi), (intersect_apart b a (eq_sym Hs)).
    reflexivity.
Qed.

(** X3. For regions of non-negative width and height, [intersect] leaves the
    greatest region that both contain: when the regions intersect, the
    result has non-negative width and height and [containsRegion] holds of
    it for both; and every region of non-negative size that both contain is
    contained in the result. *)
Theorem intersect_is_greatest_common_region (a b c : Region.t) :
  0 <= getWidth a -> 0 <= getHeight a ->
  0 <= getWidth b -> 0 <= getHeight b ->
  (isIntersected a b = true ->
   0 <= getWidth (intersect a b) /\ 0 <= getHeight (intersect a b)
   /\ containsRegion a (intersect a b) = true
   /\ containsRegion b (intersect a b) = true)
  /\ (0 <= getWidth c -> 0 <= getHeight c ->
      containsRegion a c = true -> containsRegion b c = true ->
      containsRegion (intersect a b) c = true).
Proof.
  intros Hwa Hha Hwb Hhb. split.
  - intros Hi. destruct (intersect_fields a b Hi) as (Hl & Ht & Hw & Hh).
    apply isIntersected_true in Hi.
    rewrite !containsRegion_true, Hl, Ht, Hw, Hh. lia.
  - intros Hwc Hhc Ha Hb. rewrite containsRegion_true in Ha, Hb.
    assert (Hi : isIntersected a b = true) by (apply isIntersected_true; lia).
    destruct (intersect_fields a b Hi) as (Hl & Ht & Hw & Hh).
    rewrite containsRegion_true, Hl, Ht, Hw, Hh. lia.
Qed.

Lemma intersect_is_greatest_common_region_witness :
  let a := Region.mk 0 0 10 10 SCREENSHOT_AS_IS in
  let b := Region.mk 5 5 10 10 SCREENSHOT_AS_IS in
  let c := Region.mk 6 6 2 2 SCREENSHOT_AS_IS in
  intersect a b = Region.mk 5 5 5 5 SCREENSHOT_AS_IS
  /\ containsRegion a (intersect a b) = true
  /\ containsRegion b (intersect a b) = true
  /\ containsRegion (intersect a b) c = true.
Proof.
  intros a b c.
  destruct (intersect_is_greatest_common_region a b c) as [H1 H2];
    [simpl; lia ..|].
  split; [reflexivity|].
  destruct (H1 eq_refl) as (_ & _ & Ha & Hb).
  split; [exact Ha|]. split; [exact Hb|].
  apply H2; [simpl; lia|simpl; lia|reflexivity|reflexivity].
Defined.

(** X4. For a region [b] of positive width and height, [containsRegion a b]
    holds exactly when every pixel of [b] is a pixel of [a]. *)
Theorem containsRegion_iff_pixels (a b : Region.t) :
  0 < getWidth b -> 0 < getHeight b ->
  (containsRegion a b = true <-> forall x y, covers b x y -> covers a x y).
Proof.
  intros Hw Hh. rewrite containsRegion_true. unfold covers. split.
  - intros H x y Hb. lia.
  - intros H.
    pose proof (H (getLeft b) (getTop b)).
    pose proof (H (getLeft b + getWidth b - 1) (getTop b + getHeight b - 1)).
    lia.
Qed.

Lemma containsRegion_iff_pixels_witness :
  let a := Region.mk 0 0 10 10 SCREENSHOT_AS_IS in
  let b := Region.mk 2 3 4 5 SCREENSHOT_AS_IS in
  0 < getWidth b /\ 0 < getHeight b
  /\ (containsRegion a b = true <-> forall x y, covers b x y -> covers a x y).
Proof.
  intros a b. split; [simpl; lia|]. split; [simpl; lia|].
  apply (containsRegion_iff_pixels a b); simpl; lia.
Defined.

(** X5. For regions of non-negative width and height, [isIntersected] holds
    exactly when some location is contained, in the sense of
    [containsLocation] (far edges included), in both regions; so two regions
    that only touch along an edge are intersected. *)
Theorem isIntersected_iff_common_location (a b : Region.t) :
  0 <= getWidth a -> 0 <= getHeight a ->
  0 <= getWidth b -> 0 <= getHeight b ->
  (isIntersected a b = true <->
   exists location,
     containsLocation a location = true /\ containsLocation b location = true).
Proof.
  intros Hwa Hha Hwb Hhb. rewrite isIntersected_true. split.
  - intros H.
    exists (Location.mk (Z.max (getLeft a) (getLeft b))
                        (Z.max (getTop a) (getTop b))).
    rewrite !containsLocation_true. simpl. lia.
  - intros [location [Ha Hb]]. rewrite containsLocation_true in Ha, Hb. lia.
Qed.

Lemma isIntersected_iff_common_location_witness :
  let a := Region.mk 0 0 10 10 SCREENSHOT_AS_IS in
  let b := Region.mk 10 0 5 5 SCREENSHOT_AS_IS in
  isIntersected a b = true
  /\ exists location,
       containsLocation a location = true /\ containsLocation b location = true.
Proof.
  intros a b. split; [reflexivity|].
  apply (isIntersected_iff_common_location a b); simpl; try lia. reflexivity.
Defined.

End RegionFacts.

(** ** How many tiles, and when the two policies agree *)
Module TilingCounts.
Import Region Tiling Segments TilingLoops.

(** The number of steps of length [step] that span [ext] pixels: [ext / step]
    rounded up. *)
Definition stepsToSpan (ext step : Z) : Z := (ext + step - 1) / step.

Lemma stepsToSpan_nonpos (ext step : Z) :
  0 < step -> ext <= 0 -> stepsToSpan ext step <= 0.
Proof.
  intros Hs He. unfold stepsToSpan.
  assert (H : (ext + step - 1) / step < 1)
    by (apply Z.div_lt_upper_bound; lia).
  lia.
Qed.

Lemma stepsToSpan_next (ext step : Z) :
  0 < step -> stepsToSpan ext step = stepsToSpan (ext - step) step + 1.
Proof.
  intros Hs. unfold stepsToSpan.
  replace (ext + step - 1) with (ext - step + step - 1 + 1 * step) by lia.
  rewrite Z.div_add by lia. reflexivity.
Qed.

Lemma stepsToSpan_one (ext step : Z) :
  0 < ext <= step -> stepsToSpan ext step = 1.
Proof.
  intros H. unfold stepsToSpan. symmetry.
  apply Z.div_unique with (r := ext - 1); lia.
Qed.

Lemma stepsToSpan_pos (ext step : Z) :
  0 < step -> 0 < ext -> 0 < stepsToSpan ext step.
Proof.
  intros Hs He. unfold stepsToSpan.
  apply Z.div_str_pos. lia.
Qed.

Lemma stepsToSpan_min (ext step : Z) :
  0 < ext -> 0 < step ->
  stepsToSpan ext (Z.min step ext) = stepsToSpan ext step.
Proof.
  intros He Hs. destruct (Z_le_dec step ext).
  - now rewrite Z.min_l.
  - rewrite Z.min_r by lia. rewrite !stepsToSpan_one by lia. reflexivity.
Qed.

Lemma varyingSegments_count fuel : forall cur step limit,
  0 < step -> (Z.to_nat (limit - cur) <= fuel)%nat ->
  Z.of_nat (List.length (varyingSegments fuel cur step limit))
  = Z.max 0 (stepsToSpan (limit - cur) step).
Proof.
  induction fuel as [|fuel IH]; intros cur step limit Hs Hf; simpl.
  - destruct (Z.ltb_spec cur limit); [lia|].
    pose proof (stepsToSpan_nonpos (limit - cur) step). simpl. lia.
  - destruct (Z.ltb_spec cur limit) as [Hlt|Hge].
    + cbn [List.length]. rewrite Nat2Z.inj_succ, IH by lia.
      rewrite (stepsToSpan_next (limit - cur)) by assumption.
      replace (limit - (cur + step)) with (limit - cur - step) by lia.
      destruct (Z_lt_dec 0 (limit - cur - step)) as [Hp|Hn].
      * pose proof (stepsToSpan_pos (limit - cur - step) step). lia.
      * pose proof (stepsToSpan_nonpos (limit - cur - step) step).
        assert (0 <= stepsToSpan (limit - cur - step) step).
        { unfold stepsToSpan. apply Z.div_pos; lia. }
        lia.
    + pose proof (stepsToSpan_nonpos (limit - cur) step). simpl. lia.
Qed.

Lemma fixedSegments_count fuel : forall cur step last,
  0 < step -> (Z.to_nat (last - cur + 1) <= fuel)%nat ->
  Z.of_nat (List.length (fixedSegments fuel cur step last))
  = Z.max 0 (stepsToSpan (last - cur + 1) step).
Proof.
  induction fuel as [|fuel IH]; intros cur step last Hs Hf; simpl.
  - destruct (Z.leb_spec cur last); [lia|].
    pose proof (stepsToSpan_nonpos (last - cur + 1) step). simpl. lia.
  - destruct (Z.leb_spec cur last) as [Hle|Hgt].
    + cbn [List.length]. rewrite Nat2Z.inj_succ.
      destruct (Z.gtb_spec (cur + step) last) as [Hshift|Hstay].
      * rewrite FixedTiling.fixedSegments_done by lia.
        rewrite stepsToSpan_one by lia. simpl. lia.
      * rewrite IH by lia.
        rewrite (stepsToSpan_next (last - cur + 1)) by assumption.
        replace (last - (cur + step) + 1) with (last - cur + 1 - step) by lia.
        assert (0 <= stepsToSpan (last - cur + 1 - step) step).
        { unfold stepsToSpan. apply Z.div_pos; lia. }
        lia.
    + pose proof (stepsToSpan_nonpos (last - cur + 1) step). simpl. lia.
Qed.

Lemma grid_length (rows cols : list (Z * Z)) :
  List.length (grid rows cols) = (List.length rows * List.length cols)%nat.
Proof.
  unfold grid. induction rows as [|row rows IH]; simpl; [reflexivity|].
  rewrite length_app, length_map, IH. reflexivity.
Qed.

Lemma varying_count (R : Region.t) (S : RectangleSize.t) :
  0 < RectangleSize.getWidth S -> 0 < RectangleSize.getHeight S ->
  exists tiles,
    getSubRegions R S false = Ok tiles
    /\ Z.of_nat (List.length tiles)
       = Z.max 0 (stepsToSpan (getHeight R) (RectangleSize.getHeight S))
         * Z.max 0 (stepsToSpan (getWidth R) (RectangleSize.getWidth S)).
Proof.
  intros Hw Hh. eexists. split; [apply VaryingTiling.varying_is_grid; assumption|].
  rewrite grid_length, Nat2Z.inj_mul, !varyingSegments_count by lia.
  replace (getTop R + getHeight R - getTop R) with (getHeight R) by lia.
  replace (getLeft R + getWidth R - getLeft R) with (getWidth R) by lia.
  reflexivity.
Qed.

(** X6. For a container of positive width and height and a tile size of
    positive width and height, both tiling policies return
    [ceil(R.height / S.height) * ceil(R.width / S.width)] tiles. *)
Theorem tile_count (R : Region.t) (S : RectangleSize.t) (isFixedSize : bool) :
  0 < getWidth R -> 0 < getHeight R ->
  0 < RectangleSize.getWidth S -> 0 < RectangleSize.getHeight S ->
  exists tiles,
    getSubRegions R S isFixedSize = Ok tiles
    /\ Z.of_nat (List.length tiles)
       = stepsToSpan (getHeight R) (RectangleSize.getHeight S)
         * stepsToSpan (getWidth R) (RectangleSize.getWidth S).
Proof.
  intros HRw HRh Hw Hh.
  pose proof (stepsToSpan_pos (getHeight R) _ Hh HRh) as Hph.
  pose proof (stepsToSpan_pos (getWidth R) _ Hw HRw) as Hpw.
  destruct isFixedSize.
  - destruct (Z_le_dec (getWidth R) (RectangleSize.getWidth S)) as [Hcw|Hcw];
      [destruct (Z_le_dec (getHeight R) (RectangleSize.getHeight S)) as [Hch|Hch]|].
    + exists [R]. split; [apply FixedTiling.fixed_single; lia|].
      rewrite !stepsToSpan_one by lia. reflexivity.
    + eexists. split; [apply FixedTiling.fixed_is_grid; tauto|].
      rewrite grid_length, Nat2Z.inj_mul, !fixedSegments_count by lia.
      replace (getTop R + getHeight R - 1 - getTop R + 1) with (getHeight R) by lia.
      replace (getLeft R + getWidth R - 1 - getLeft R + 1) with (getWidth R) by lia.
      rewrite !stepsToSpan_min by lia. lia.
    + eexists. split; [apply FixedTiling.fixed_is_grid; tauto|].
      rewrite grid_length, Nat2Z.inj_mul, !fixedSegments_count by lia.
      replace (getTop R + getHeight R - 1 - getTop R + 1) with (getHeight R) by lia.
      replace (getLeft R + getWidth R - 1 - getLeft R + 1) with (getWidth R) by lia.
      rewrite !stepsToSpan_min by lia. lia.
  - destruct (varying_count R S Hw Hh) as (tiles & Ht & Hn).
    exists tiles. split; [exact Ht|]. lia.
Qed.

Lemma tile_count_witness :
  exists tiles,
    getSubRegions (Region.mk 0 0 10 10 SCREENSHOT_AS_IS)
                  (RectangleSize.mk 4 5) true = Ok tiles
    /\ Z.of_nat (List.length tiles) = 6.
Proof.
  apply (tile_count (Region.mk 0 0 10 10 SCREENSHOT_AS_IS)
           (RectangleSize.mk 4 5) true); simpl; lia.
Defined.

(** X7. For a container of non-negative width and height, the varying-size
    tiling returns no tile at all exactly when the container has no pixel. *)
Theorem varying_no_tiles_iff_empty (R : Region.t) (S : RectangleSize.t) :
  0 <= getWidth R -> 0 <= getHeight R ->
  0 < RectangleSize.getWidth S -> 0 < RectangleSize.getHeight S ->
  (getSubRegions R S false = Ok [] <-> getWidth R = 0 \/ getHeight R = 0).
Proof.
  intros HRw HRh Hw Hh.
  destruct (varying_count R S Hw Hh) as (tiles & Ht & Hn). rewrite Ht.
  assert (Hz : forall ext step, 0 < step -> 0 <= ext ->
                 (Z.max 0 (stepsToSpan ext step) = 0 <-> ext = 0)).
  { intros ext step Hs He. split.
    - intros H. destruct (Z.eq_dec ext 0); [assumption|].
      pose proof (stepsToSpan_pos ext step). lia.
    - intros ->. pose proof (stepsToSpan_nonpos 0 step). lia. }
  split.
  - intros E. injection E as ->. simpl in Hn. symmetry in Hn.
    apply Z.mul_eq_0 in Hn as [H|H]; apply Hz in H; auto.
  - intros H. f_equal. apply length_zero_iff_nil. apply Nat2Z.inj.
    rewrite Hn. simpl.
    destruct H as [H|H].
    + apply (Hz _ _ Hw HRw) in H. rewrite H. lia.
    + apply (Hz _ _ Hh HRh) in H. rewrite H. lia.
Qed.

Lemma varying_no_tiles_iff_empty_witness :
  getSubRegions (Region.mk 3 4 0 10 SCREENSHOT_AS_IS)
                (RectangleSize.mk 4 5) false = Ok []
  <-> getWidth (Region.mk 3 4 0 10 SCREENSHOT_AS_IS) = 0
      \/ getHeight (Region.mk 3 4 0 10 SCREENSHOT_AS_IS) = 0.
Proof.
  apply (varying_no_tiles_iff_empty (Region.mk 3 4 0 10 SCREENSHOT_AS_IS)
           (RectangleSize.mk 4 5)); simpl; lia.
Defined.

Lemma varyingSegments_single (ext cur step : Z) :
  0 < ext <= step ->
  varyingSegments (Z.to_nat ext) cur step (cur + ext) = [(cur, ext)].
Proof.
  intros H.
  destruct (Z.to_nat ext) as [|n] eqn:En; [lia|]. simpl.
  destruct (Z.ltb_spec cur (cur + ext)); [|lia].
  rewrite Z.min_r by lia. rewrite varyingSegments_done by lia.
  f_equal. f_equal. lia.
Qed.

(** X8. When the tile size is at least the size of a container that has pixels,
    the varying-size tiling returns a single tile with the container's
    rectangle (in the default coordinate space). *)
Theorem varying_single_tile (R : Region.t) (S : RectangleSize.t) :
  0 < getWidth R <= RectangleSize.getWidth S ->
  0 < getHeight R <= RectangleSize.getHeight S ->
  getSubRegions R S false
  = Ok [Region.mk (getLeft R) (getTop R) (getWidth R) (getHeight R)
                  SCREENSHOT_AS_IS].
Proof.
  intros Hw Hh. rewrite VaryingTiling.varying_is_grid by lia.
  rewrite !varyingSegments_single by assumption. reflexivity.
Qed.

Lemma varying_single_tile_witness :
  getSubRegions (Region.mk 3 4 10 10 CONTEXT_RELATIVE)
                (RectangleSize.mk 10 20) false
  = Ok [Region.mk 3 4 10 10 SCREENSHOT_AS_IS].
Proof.
  apply (varying_single_tile (Region.mk 3 4 10 10 CONTEXT_RELATIVE)
           (RectangleSize.mk 10 20)); simpl; lia.
Defined.

Lemma fixedSegments_even fuel : forall cur step last,
  0 < step -> (step | last + 1 - cur) ->
  fixedSegments fuel cur step last = varyingSegments fuel cur step (last + 1).
Proof.
  induction fuel as [|fuel IH]; intros cur step last Hs [k Hk]; simpl.
  - destruct (Z.leb_spec cur last); destruct (Z.ltb_spec cur (last + 1));
      try reflexivity; lia.
  - destruct (Z.leb_spec cur last); destruct (Z.ltb_spec cur (last + 1));
      try reflexivity; try lia.
    assert (1 <= k) by nia.
    assert (cur + step <= last + 1) by nia.
    destruct (Z.gtb_spec (cur + step) last).
    + replace (last - step + 1) with cur by lia.
      rewrite Z.min_l by lia. rewrite IH; [|assumption|exists (k - 1); lia].
      f_equal. f_equal. lia.
    + rewrite Z.min_l by lia. rewrite IH; [|assumption|exists (k - 1); lia].
      f_equal. f_equal. lia.
Qed.

(** X9. When the tile size divides the size of a container that has pixels
    evenly in both dimensions, the fixed-size and the varying-size tiling
    return the same rectangles in the same order, as [equals] compares
    them. *)
Theorem policies_agree_on_even_division (R : Region.t) (S : RectangleSize.t) :
  0 < getWidth R -> 0 < getHeight R ->
  0 < RectangleSize.getWidth S -> 0 < RectangleSize.getHeight S ->
  (RectangleSize.getWidth S | getWidth R) ->
  (RectangleSize.getHeight S | getHeight R) ->
  exists fixed varying,
    getSubRegions R S true = Ok fixed
    /\ getSubRegions R S false = Ok varying
    /\ Forall2 (fun a b => equals a b = true) fixed varying.
Proof.
  intros HRw HRh Hw Hh Hdw Hdh.
  assert (Hlw : RectangleSize.getWidth S <= getWidth R)
    by (apply Z.divide_pos_le; assumption).
  assert (Hlh : RectangleSize.getHeight S <= getHeight R)
    by (apply Z.divide_pos_le; assumption).
  assert (Hrefl : forall l, Forall2 (fun a b => equals a b = true) l l).
  { induction l as [|t l IH]; constructor; [|exact IH].
    unfold equals. rewrite !Z.eqb_refl. reflexivity. }
  destruct (Z.eq_dec (getWidth R) (RectangleSize.getWidth S)) as [Ew|Ew];
    [destruct (Z.eq_dec (getHeight R) (RectangleSize.getHeight S)) as [Eh|Eh]|].
  - do 2 eexists. split; [apply FixedTiling.fixed_single; lia|].
    split.
    { rewrite VaryingTiling.varying_is_grid by lia.
      rewrite !varyingSegments_single by lia. reflexivity. }
    constructor; [|constructor].
    unfold equals; simpl. rewrite !Z.eqb_refl. reflexivity.
  - do 2 eexists. split; [apply FixedTiling.fixed_is_grid; lia|].
    split; [apply VaryingTiling.varying_is_grid; lia|].
    rewrite !Z.min_l by lia.
    rewrite !fixedSegments_even;
      [|assumption|replace (getLeft R + getWidth R - 1 + 1 - getLeft R)
                     with (getWidth R) by lia; assumption
       |assumption|replace (getTop R + getHeight R - 1 + 1 - getTop R)
                     with (getHeight R) by lia; assumption].
    replace (getTop R + getHeight R - 1 + 1) with (getTop R + getHeight R) by lia.
    replace (getLeft R + getWidth R - 1 + 1) with (getLeft R + getWidth R) by lia.
    apply Hrefl.
  - do 2 eexists. split; [apply FixedTiling.fixed_is_grid; lia|].
    split; [apply VaryingTiling.varying_is_grid; lia|].
    rewrite !Z.min_l by lia.
    rewrite !fixedSegments_even;
      [|assumption|replace (getLeft R + getWidth R - 1 + 1 - getLeft R)
                     with (getWidth R) by lia; assumption
       |assumption|replace (getTop R + getHeight R - 1 + 1 - getTop R)
                     with (getHeight R) by lia; assumption].
    replace (getTop R + getHeight R - 1 + 1) with (getTop R + getHeight R) by lia.
    replace (getLeft R + getWidth R - 1 + 1) with (getLeft R + getWidth R) by lia.
    apply Hrefl.
Qed.

Lemma policies_agree_on_even_division_witness :
  exists fixed varying,
    getSubRegions (Region.mk 0 0 12 10 SCREENSHOT_AS_IS)
                  (RectangleSize.mk 4 5) true = Ok fixed
    /\ getSubRegions (Region.mk 0 0 12 10 SCREENSHOT_AS_IS)
                     (RectangleSize.mk 4 5) false = Ok varying
    /\ Forall2 (fun a b => equals a b = true) fixed varying.
Proof.
  apply (policies_agree_on_even_division
           (Region.mk 0 0 12 10 SCREENSHOT_AS_IS) (RectangleSize.mk 4 5));
    simpl; try lia; [exists 3; lia|exists 2; lia].
Defined.

Lemma tile_within (R t : Region.t) :
  getLeft R <= getLeft t -> 0 <= getWidth t ->
  getLeft t + getWidth t <= getLeft R + getWidth R ->
  getTop R <= getTop t -> 0 <= getHeight t ->
  getTop t + getHeight t <= getTop R + getHeight R ->
  containsRegion R t = true /\ equals (intersect t R) t = true.
Proof.
  intros Hl Hw Hr Ht Hh Hb.
  split; [apply RegionFacts.containsRegion_true; lia|].
  assert (Hi : isIntersected t R = true)
    by (apply RegionFacts.isIntersected_true; lia).
  destruct (RegionFacts.intersect_fields t R Hi) as (El & Et & Ew & Eh).
  unfold equals. rewrite El, Et, Ew, Eh.
  rewrite !andb_true_iff, !Z.eqb_eq. lia.
Qed.

(** X10. Under both policies every tile lies within the container:
    [containsRegion] holds of the container and the tile, and intersecting
    the tile with the container leaves the rectangle of the tile. *)
Theorem tiles_lie_within_container
    (R : Region.t) (S : RectangleSize.t) (isFixedSize : bool) :
  0 <= getWidth R -> 0 <= getHeight R ->
  0 < RectangleSize.getWidth S -> 0 < RectangleSize.getHeight S ->
  exists tiles,
    getSubRegions R S isFixedSize = Ok tiles
    /\ Forall (fun t => containsRegion R t = true
                        /\ equals (intersect t R) t = true) tiles.
Proof.
  intros HRw HRh Hw Hh. destruct isFixedSize.
  - destruct (Z_le_dec (getWidth R) (RectangleSize.getWidth S)) as [Hcw|Hcw];
      [destruct (Z_le_dec (getHeight R) (RectangleSize.getHeight S)) as [Hch|Hch]|].
    + exists [R]. split; [apply FixedTiling.fixed_single; lia|].
      constructor; [|constructor]. apply tile_within; lia.
    + eexists. split; [apply FixedTiling.fixed_is_grid; tauto|].
      destruct (FixedTiling.fixedSegments_axis (getTop R)
                  (RectangleSize.getHeight S) (getHeight R) HRh Hh)
        as (Hrp & _ & _).
      destruct (FixedTiling.fixedSegments_axis (getLeft R)
                  (RectangleSize.getWidth S) (getWidth R) HRw Hw)
        as (Hcp & _ & _).
      apply Forall_forall. intros t Ht.
      apply in_grid in Ht as (r & c & Hr & Hc & ->).
      specialize (Hrp r Hr). specialize (Hcp c Hc).
      apply tile_within; simpl; lia.
    + eexists. split; [apply FixedTiling.fixed_is_grid; tauto|].
      destruct (FixedTiling.fixedSegments_axis (getTop R)
                  (RectangleSize.getHeight S) (getHeight R) HRh Hh)
        as (Hrp & _ & _).
      destruct (FixedTiling.fixedSegments_axis (getLeft R)
                  (RectangleSize.getWidth S) (getWidth R) HRw Hw)
        as (Hcp & _ & _).
      apply Forall_forall. intros t Ht.
      apply in_grid in Ht as (r & c & Hr & Hc & ->).
      specialize (Hrp r Hr). specialize (Hcp c Hc).
      apply tile_within; simpl; lia.
  - eexists. split; [apply VaryingTiling.varying_is_grid; assumption|].
    destruct (VaryingTiling.varyingSegments_props (getTop R)
                (RectangleSize.getHeight S) (getHeight R) Hh) as (_ & Hrb & _).
    destruct (VaryingTiling.varyingSegments_props (getLeft R)
                (RectangleSize.getWidth S) (getWidth R) Hw) as (_ & Hcb & _).
    apply Forall_forall. intros t Ht.
    apply in_grid in Ht as (r & c & Hr & Hc & ->).
    specialize (Hrb r Hr). specialize (Hcb c Hc).
    apply tile_within; simpl; lia.
Qed.

Lemma tiles_lie_within_container_witness :
  exists tiles,
    getSubRegions (Region.mk 3 4 10 10 SCREENSHOT_AS_IS)
                  (RectangleSize.mk 4 5) true = Ok tiles
    /\ Forall (fun t =>
                 containsRegion (Region.mk 3 4 10 10 SCREENSHOT_AS_IS) t = true
                 /\ equals (intersect t (Region.mk 3 4 10 10 SCREENSHOT_AS_IS)) t
                    = true) tiles.
Proof.
  apply (tiles_lie_within_container (Region.mk 3 4 10 10 SCREENSHOT_AS_IS)
           (RectangleSize.mk 4 5) true); simpl; lia.
Defined.

End TilingCounts.

Module PromiseFacts.
Import Promise.

Section Facts.
Context {E W : Type}.

Lemma emitted_then2 {A B} (p : Promise.t E W A) f (g : Reason -> Promise.t E W B) w :
  emitted (then2 p f g w)
  = emitted (p w)
    ++ match outcome (p w) with
       | Resolved a => emitted (f a (final (p w)))
       | Rejected e => emitted (g e (final (p w)))
       | Pending => []
       end.
Proof.
  unfold then2. destruct (p w) as [[a|e|] w1 ev1]; cbn.
  - destruct (f a w1); reflexivity.
  - destruct (g e w1); reflexivity.
  - now rewrite app_nil_r.
Qed.

Lemma emitted_then_ {A B} (p : Promise.t E W A) (f : A -> Promise.t E W B) w :
  emitted (then_ p f w)
  = emitted (p w)
    ++ match outcome (p w) with
       | Resolved a => emitted (f a (final (p w)))
       | _ => []
       end.
Proof.
  unfold then_. rewrite emitted_then2. destruct (outcome (p w)); reflexivity.
Qed.

Lemma emitted_makePromise {A} (e : Promise.t E W (settle A)) w :
  emitted (makePromise e w) = emitted (e w).
Proof.
  unfold makePromise. destruct (e w) as [[[]| |] w1 ev1]; reflexivity.
Qed.

(** The run of a chain, from the runs of its parts. *)
Lemma then2_run {A B} (p : Promise.t E W A) f (g : Reason -> Promise.t E W B) w :
  then2 p f g w
  = match outcome (p w) with
    | Resolved a =>
      mkRun (outcome (f a (final (p w)))) (final (f a (final (p w))))
            (emitted (p w) ++ emitted (f a (final (p w))))
    | Rejected e =>
      mkRun (outcome (g e (final (p w)))) (final (g e (final (p w))))
            (emitted (p w) ++ emitted (g e (final (p w))))
    | Pending => mkRun Pending (final (p w)) (emitted (p w))
    end.
Proof.
  unfold then2. destruct (p w) as [[a|e|] w1 ev1]; cbn.
  - destruct (f a w1); reflexivity.
  - destruct (g e w1); reflexivity.
  - reflexivity.
Qed.

Lemma then_run {A B} (p : Promise.t E W A) (f : A -> Promise.t E W B) w :
  then_ p f w
  = match outcome (p w) with
    | Resolved a =>
      mkRun (outcome (f a (final (p w)))) (final (f a (final (p w))))
            (emitted (p w) ++ emitted (f a (final (p w))))
    | Rejected e => mkRun (Rejected e) (final (p w)) (emitted (p w))
    | Pending => mkRun Pending (final (p w)) (emitted (p w))
    end.
Proof.
  unfold then_. rewrite then2_run.
  destruct (outcome (p w)); cbn; rewrite ?app_nil_r; reflexivity.
Qed.



End Facts.
End PromiseFacts.

Module WorldFacts.
Import Promise World.

Section Facts.
Context {PS X : Type}.

Lemma emitted_call {A} (e : Event PS) (h : Handler X A) (s : State X) :
  emitted (call e h s) = [e].
Proof. unfold call, invoke. destruct (h (outside s)); reflexivity. Qed.


Lemma final_call {A} (e : Event PS) (h : Handler X A) (s : State X) :
  final (call e h s) = mkState (dom s) (snd (h (outside s))).
Proof. unfold call, invoke. destruct (h (outside s)); reflexivity. Qed.

End Facts.

Ltac run_unfold :=
  unfold Promise.then_, Promise.then2, Promise.catch, Promise.makePromise,
    Promise.detached, call, Promise.invoke, verbose, log, Promise.emit,
    Promise.resolve, Promise.reject;
  cbn.

End WorldFacts.

Module SizerFacts.
Import Promise World EyesSeleniumUtils PromiseFacts WorldFacts.

Section Facts.
Context {PS X : Type}.
Variable browser : WebDriver X.

Definition isResize (e : Event PS) : bool :=
  match e with WindowSetSize _ _ => true | _ => false end.

(** The number of [window.setSize] calls in a run. *)
Definition resizeCalls (tr : list (Event PS)) : nat :=
  List.length (filter isResize tr).

(** The window sizes that [_setBrowserSize] observed and logged. *)
Definition observations (tr : list (Event PS)) : list Size :=
  flat_map (fun e => match e with
                     | LogLog _ [w; h] => [mkSize w h]
                     | _ => []
                     end) tr.

Lemma resizeCalls_app (a b : list (Event PS)) :
  resizeCalls (a ++ b) = (resizeCalls a + resizeCalls b)%nat.
Proof. unfold resizeCalls. now rewrite filter_app, length_app. Qed.

Lemma observations_app (a b : list (Event PS)) :
  observations (a ++ b) = observations a ++ observations b.
Proof. unfold observations. now rewrite flat_map_app. Qed.

Lemma _setBrowserSize_eq (requiredSize : Size) (retries : nat) :
  _setBrowserSize (PS:=PS) browser requiredSize retries
  = makePromise
    (verbose "Trying to set browser size to:"
             [width requiredSize; height requiredSize] ;;
     call (WindowSetSize (width requiredSize) (height requiredSize))
          (window_setSize browser (width requiredSize) (height requiredSize)) ;;
     call (Sleep 1000) (sleep browser 1000) ;;
     currentSize <- call WindowGetSize (window_getSize browser) ;;
     log "Current browser size:" [width currentSize; height currentSize] ;;
     if (width currentSize =? width requiredSize)
        && (height currentSize =? height requiredSize)
     then resolve (CallResolve tt)
     else
       match retries with
       | O => resolve (CallReject "Failed to set browser size: retries is out.")
       | S retries' =>
         then2 (_setBrowserSize browser requiredSize retries')
               (fun _ => resolve (CallResolve tt))
               (fun err => resolve (CallReject err))
       end).
Proof. destruct retries; reflexivity. Qed.

Lemma _setBrowserSize_runs (requiredSize : Size) (retries : nat) :
  forall s,
    let r := _setBrowserSize (PS:=PS) browser requiredSize retries s in
    (1 <= resizeCalls (emitted r) <= retries + 1)%nat
    /\ (forall reason, outcome r = Rejected reason ->
          resizeCalls (emitted r) = (retries + 1)%nat
          /\ Forall (fun sz => sameSize sz requiredSize = false)
                    (observations (emitted r)))
    /\ (outcome r = Resolved tt ->
          exists sz, In sz (observations (emitted r))
                     /\ sameSize sz requiredSize = true).
Proof.
  induction retries as [|n IH]; intros s r; subst r;
    rewrite _setBrowserSize_eq; run_unfold.
  all: destruct (window_setSize browser _ _ (outside s)) as [[[]| |] x1]; cbn;
    try (split; [lia|split; intros; discriminate]).
  all: destruct (sleep browser 1000 x1) as [[[]| |] x2]; cbn;
    try (split; [lia|split; intros; discriminate]).
  all: destruct (window_getSize browser x2) as [[[w h]| |] x3]; cbn;
    try (split; [lia|split; intros; discriminate]).
  all: destruct ((w =? width requiredSize) && (h =? height requiredSize))
         eqn:Hsame; cbn.
  - split; [lia|split; [intros; discriminate|]].
    intros _. exists (mkSize w h). split; [now left|exact Hsame].
  - split; [lia|split; [|intros; discriminate]].
    intros reason _. split; [lia|]. repeat constructor. exact Hsame.
  - split; [lia|split; [intros; discriminate|]].
    intros _. exists (mkSize w h). split; [now left|exact Hsame].
  - specialize (IH (mkState (dom s) x3)). cbn zeta in IH.
    destruct (_setBrowserSize browser requiredSize n _) as [o f ev].
    cbn in IH. destruct IH as (Hc & Hrej & Hres).
    destruct o as [[]|reason|]; cbn; rewrite ?app_nil_r.
    + split; [lia|split; [intros; discriminate|]].
      intros _. destruct Hres as [sz' [Hin Hs]]; [reflexivity|].
      exists sz'. split; [|assumption]. now right.
    + destruct (Hrej reason eq_refl) as [Hn Hall].
      split; [lia|split; [|intros; discriminate]].
      intros r _. split; [lia|]. constructor; [exact Hsame|assumption].
    + split; [lia|split; intros; discriminate].
Qed.

(** A browser that accepts every call but never shows the requested size. *)
Definition neverHonours (requiredSize : Size) : Prop :=
  (forall x, exists x',
      window_setSize browser (width requiredSize) (height requiredSize) x
      = (Resolved tt, x'))
  /\ (forall x, exists x', sleep browser 1000 x = (Resolved tt, x'))
  /\ (forall x, exists sz x',
        window_getSize browser x = (Resolved sz, x')
        /\ sameSize sz requiredSize = false).

Lemma _setBrowserSize_exhausted (requiredSize : Size) (retries : nat) :
  neverHonours requiredSize ->
  forall s,
    outcome (_setBrowserSize (PS:=PS) browser requiredSize retries s)
    = Rejected "Failed to set browser size: retries is out.".
Proof.
  intros (Hset & Hsleep & Hget).
  induction retries as [|n IH]; intros s;
    rewrite _setBrowserSize_eq; run_unfold;
    destruct (Hset (outside s)) as [x1 ->]; cbn;
    destruct (Hsleep x1) as [x2 ->]; cbn;
    destruct (Hget x2) as (sz & x3 & -> & Hsz); cbn;
    fold (sameSize sz requiredSize); rewrite Hsz; cbn.
  - reflexivity.
  - specialize (IH (mkState (dom s) x3)).
    destruct (_setBrowserSize browser requiredSize n _) as [o f ev].
    cbn in IH. subst o. reflexivity.
Qed.

(** The driver answers the three calls of a resize request. *)
Definition answers : Prop :=
  (forall w h x, exists x', window_setSize browser w h x = (Resolved tt, x'))
  /\ (forall ms x, exists x', sleep browser ms x = (Resolved tt, x'))
  /\ (forall x, exists sz x', window_getSize browser x = (Resolved sz, x')).

(** The calls of one try of a resize request, with the window size that it
    observed. *)
Definition oneTry (requiredSize observed : Size) : list (Event PS) :=
  [LogVerbose "Trying to set browser size to:"
              [width requiredSize; height requiredSize];
   WindowSetSize (width requiredSize) (height requiredSize);
   Sleep 1000;
   WindowGetSize;
   LogLog "Current browser size:" [width observed; height observed]].

(** The tries of a resize request as the browser sees them, from one state
    of the world to another, with the window sizes observed: the window is
    asked for the size, the settle delay passes, the size of the window is
    read; another try is made only after an observation that differs from
    the requested size. *)
Inductive tries (requiredSize : Size) : X -> list Size -> X -> Prop :=
| tries_last x x1 x2 x3 observed :
    window_setSize browser (width requiredSize) (height requiredSize) x
    = (Resolved tt, x1) ->
    sleep browser 1000 x1 = (Resolved tt, x2) ->
    window_getSize browser x2 = (Resolved observed, x3) ->
    tries requiredSize x [observed] x3
| tries_again x x1 x2 x3 observed rest x' :
    window_setSize browser (width requiredSize) (height requiredSize) x
    = (Resolved tt, x1) ->
    sleep browser 1000 x1 = (Resolved tt, x2) ->
    window_getSize browser x2 = (Resolved observed, x3) ->
    sameSize observed requiredSize = false ->
    tries requiredSize x3 rest x' ->
    tries requiredSize x (observed :: rest) x'.

Definition differs (requiredSize observed : Size) : Prop :=
  sameSize observed requiredSize = false.

Lemma _setBrowserSize_tries (requiredSize : Size) (retries : nat) :
  answers ->
  forall s,
    let r := _setBrowserSize (PS:=PS) browser requiredSize retries s in
    exists earlier lastSeen x',
      tries requiredSize (outside s) (earlier ++ [lastSeen]) x'
      /\ Forall (differs requiredSize) earlier
      /\ (List.length earlier <= retries)%nat
      /\ emitted r = flat_map (oneTry requiredSize) (earlier ++ [lastSeen])
      /\ final r = mkState (dom s) x'
      /\ outcome r
         = (if sameSize lastSeen requiredSize then Resolved tt
            else Rejected "Failed to set browser size: retries is out.")
      /\ (differs requiredSize lastSeen -> List.length earlier = retries).
Proof.
  intros (Hset & Hsleep & Hget).
  induction retries as [|n IH]; intros s r; subst r;
    rewrite _setBrowserSize_eq; run_unfold;
    destruct (Hset (width requiredSize) (height requiredSize) (outside s))
      as [x1 Hx1]; rewrite Hx1; cbn;
    destruct (Hsleep 1000 x1) as [x2 Hx2]; rewrite Hx2; cbn;
    destruct (Hget x2) as (sz & x3 & Hx3); rewrite Hx3; cbn;
    fold (sameSize sz requiredSize);
    destruct (sameSize sz requiredSize) eqn:Hsz; cbn.
  1-3: exists [], sz, x3; rewrite Hsz; cbn;
    (split; [eapply tries_last; eassumption|]);
    (split; [constructor|]); (split; [lia|]);
    (split; [reflexivity|]); (split; [reflexivity|]);
    (split; [reflexivity|]);
    unfold differs; intros; first [congruence | reflexivity].
  destruct (IH (mkState (dom s) x3))
      as (earlier & lastSeen & x' & Ht & Hall & Hlen & Hev & Hfin & Hout & Hex).
    cbn [outside dom] in *.
    destruct (_setBrowserSize browser requiredSize n _) as [o f ev].
    cbn [outcome final emitted] in *. subst o f ev.
    exists (sz :: earlier), lastSeen, x'.
    split; [eapply tries_again; eassumption|].
    split; [constructor; assumption|].
    split; [cbn; lia|].
    split.
    { destruct (sameSize lastSeen requiredSize); cbn; rewrite ?app_nil_r;
        reflexivity. }
    split; [destruct (sameSize lastSeen requiredSize); reflexivity|].
    split; [destruct (sameSize lastSeen requiredSize); reflexivity|].
    intros Hd. cbn. rewrite (Hex Hd). reflexivity.
Qed.

(** C6, the resize request.  Whatever the browser does, a resize request
    ([setBrowserSize]) makes between one and four [window.setSize] calls
    (the first try and up to three retries) and never rejects.  With a
    driver that answers its calls, the run is a sequence of at most four
    tries, each one asking for the requested size, waiting for the settle
    delay and reading the size of the window; a try is followed by another
    one only when the size it observed differs from the requested one; the
    request resolves to [true] when the last observation matches, and to
    [false], after four tries, when it differs.  With a browser that never
    shows the requested size the request resolves to [false]. *)
Theorem setBrowserSize_retries_then_reports_failure
    (requiredSize : Size) (s : State X) :
  let r := setBrowserSize (PS:=PS) browser requiredSize s in
  (forall reason, outcome r <> Rejected reason)
  /\ (1 <= resizeCalls (emitted r) <= 4)%nat
  /\ (outcome r = Resolved true ->
        exists sz, In sz (observations (emitted r))
                   /\ sameSize sz requiredSize = true)
  /\ (outcome r = Resolved false ->
        resizeCalls (emitted r) = 4%nat
        /\ Forall (differs requiredSize) (observations (emitted r)))
  /\ (answers ->
      exists earlier lastSeen x',
        tries requiredSize (outside s) (earlier ++ [lastSeen]) x'
        /\ Forall (differs requiredSize) earlier
        /\ (List.length earlier <= 3)%nat
        /\ emitted r = flat_map (oneTry requiredSize) (earlier ++ [lastSeen])
        /\ final r = mkState (dom s) x'
        /\ outcome r = Resolved (sameSize lastSeen requiredSize)
        /\ (differs requiredSize lastSeen -> List.length earlier = 3%nat))
  /\ (neverHonours requiredSize -> outcome r = Resolved false).
Proof.
  intros r. subst r. unfold setBrowserSize, then2.
  pose proof (_setBrowserSize_runs requiredSize 3 s) as Hruns.
  pose proof (fun H => _setBrowserSize_exhausted requiredSize 3 H s) as Hex.
  pose proof (fun H => _setBrowserSize_tries requiredSize 3 H s) as Htries.
  cbn zeta in Hruns, Htries.
  destruct (_setBrowserSize browser requiredSize 3 s) as [o f ev].
  cbn [outcome final emitted] in Hruns, Hex, Htries.
  destruct Hruns as (Hc & Hrej & Hres).
  assert (Hshape : answers ->
    exists earlier lastSeen x',
      tries requiredSize (outside s) (earlier ++ [lastSeen]) x'
      /\ Forall (differs requiredSize) earlier
      /\ (List.length earlier <= 3)%nat
      /\ ev = flat_map (oneTry requiredSize) (earlier ++ [lastSeen])
      /\ f = mkState (dom s) x'
      /\ match o with
         | Resolved _ => sameSize lastSeen requiredSize = true
         | Rejected _ => sameSize lastSeen requiredSize = false
         | Pending => False
         end
      /\ (differs requiredSize lastSeen -> List.length earlier = 3%nat)).
  { intros Ha.
    destruct (Htries Ha)
      as (earlier & lastSeen & x' & Ht & Hall & Hlen & Hev & Hfin & Hout & Hl).
    exists earlier, lastSeen, x'. repeat split; auto.
    rewrite Hout. destruct (sameSize lastSeen requiredSize); reflexivity. }
  destruct o as [[]|reason|]; cbn [resolve outcome final emitted];
    rewrite ?app_nil_r.
  - split; [intros; discriminate|]. split; [lia|].
    split; [intros _; apply Hres; reflexivity|].
    split; [intros; discriminate|].
    split.
    + intros Ha. destruct (Hshape Ha)
        as (earlier & lastSeen & x' & Ht & Hall & Hlen & Hev & Hfin & Hout & Hl).
      exists earlier, lastSeen, x'. rewrite Hout. repeat split; auto.
    + intros H. specialize (Hex H). discriminate.
  - destruct (Hrej reason eq_refl) as [Hn Hall].
    split; [intros; discriminate|]. split; [lia|].
    split; [intros; discriminate|]. split; [intros _; split; assumption|].
    split; [|reflexivity].
    intros Ha. destruct (Hshape Ha)
      as (earlier & lastSeen & x' & Ht & Hall' & Hlen & Hev & Hfin & Hout & Hl).
    exists earlier, lastSeen, x'. rewrite Hout. repeat split; auto.
  - split; [intros; discriminate|]. split; [lia|].
    split; [intros; discriminate|]. split; [intros; discriminate|].
    split.
    + intros Ha. destruct (Hshape Ha) as (? & ? & ? & _ & _ & _ & _ & _ & [] & _).
    + intros H. specialize (Hex H). discriminate.
Qed.

(** *** The stepwise search *)



(** The window sizes asked for in a run, in order. *)
Definition resizes (tr : list (Event PS)) : list Size :=
  flat_map (fun e => match e with
                     | WindowSetSize w h => [mkSize w h]
                     | _ => []
                     end) tr.














Lemma getViewportSize_trace (s : State X) :
  emitted (getViewportSize (PS:=PS) browser s)
  = [ExecuteScript JS_GET_VIEWPORT_SIZE].
Proof.
  unfold getViewportSize. run_unfold.
  destruct (script_getViewportSize browser (outside s)) as [[[[w|] [h|]]| |] x1];
    reflexivity.
Qed.








End Facts.
End SizerFacts.

Module SizerExamples.
Import Promise World EyesSeleniumUtils SizerFacts.

(** A browser whose window stays at 800x600, with a viewport of 790x500,
    whatever is requested. *)
Definition stuckBrowser : WebDriver unit :=
  mkWebDriver unit
    (fun _ _ x => (Resolved tt, x))
    (fun x => (Resolved (mkSize 800 600), x))
    (fun _ _ x => (Resolved tt, x))
    (fun x => (Resolved (Some 790, Some 500), x))
    (fun x => (Resolved (Some 0, Some 0), x))
    (fun x => (Resolved 1%Q, x))
    (fun _ x => (Resolved false, x))
    (fun _ x => (Resolved tt, x))
    (fun style => style)
    (fun x => (Resolved nil, x))
    (fun _ x => (Resolved tt, x))
    (fun _ => 0).

Definition blankPage : State unit := mkState (mkDom "" "") tt.

Lemma stuckBrowser_neverHonours :
  neverHonours stuckBrowser (mkSize 1000 700).
Proof.
  split; [|split].
  - intros []. exists tt. reflexivity.
  - intros []. exists tt. reflexivity.
  - intros []. exists (mkSize 800 600), tt. split; reflexivity.
Qed.

Lemma stuckBrowser_answers : answers stuckBrowser.
Proof.
  split; [|split].
  - intros w h []. exists tt. reflexivity.
  - intros ms []. exists tt. reflexivity.
  - intros []. exists (mkSize 800 600), tt. reflexivity.
Qed.

Lemma setBrowserSize_retries_then_reports_failure_witness :
  answers stuckBrowser
  /\ neverHonours stuckBrowser (mkSize 1000 700)
  /\ outcome (setBrowserSize (PS:=unit) stuckBrowser (mkSize 1000 700) blankPage)
     = Resolved false
  /\ resizeCalls (emitted (setBrowserSize (PS:=unit) stuckBrowser
                             (mkSize 1000 700) blankPage)) = 4%nat
  /\ exists earlier lastSeen,
       List.length earlier = 3%nat
       /\ Forall (differs (mkSize 1000 700)) (earlier ++ [lastSeen])
       /\ emitted (setBrowserSize (PS:=unit) stuckBrowser (mkSize 1000 700)
                     blankPage)
          = flat_map (oneTry (mkSize 1000 700)) (earlier ++ [lastSeen]).
Proof.
  split; [exact stuckBrowser_answers|].
  split; [exact stuckBrowser_neverHonours|].
  destruct (setBrowserSize_retries_then_reports_failure (PS:=unit) stuckBrowser
              (mkSize 1000 700) blankPage)
    as (_ & _ & _ & Hfalse & Hanswers & Hnever).
  specialize (Hnever stuckBrowser_neverHonours).
  split; [exact Hnever|]. split; [apply Hfalse; exact Hnever|].
  destruct (Hanswers stuckBrowser_answers)
    as (earlier & lastSeen & x' & _ & Hall & _ & Hev & _ & Hout & Hlen).
  assert (Hlast : differs (mkSize 1000 700) lastSeen).
  { unfold differs. rewrite Hnever in Hout. congruence. }
  exists earlier, lastSeen. split; [exact (Hlen Hlast)|].
  split; [|exact Hev].
  apply Forall_app. split; [exact Hall|]. constructor; [exact Hlast|constructor].
Defined.

(** The sizer does not read what a resize request resolves to.  Asked for a
    viewport of 792x500 on the browser that stays at 800x600 with a
    viewport of 790x500, every resize request runs out of retries (each of
    the twenty [window.setSize] calls is followed by the observation
    800x600, which is never the size asked for), and [setViewportSize]
    resolves: the stepwise search stops once it has no step left to take.
    The viewport is still 790x500. *)
Lemma sizer_resolves_when_no_resize_is_honoured :
  let r := setViewportSize (PS:=unit) stuckBrowser (mkSize 792 500) blankPage in
  outcome r = Resolved tt
  /\ resizeCalls (emitted r) = 20%nat
  /\ observations (emitted r) = repeat (mkSize 800 600) 20
  /\ ~ In (WindowSetSize 800 600) (emitted r)
  /\ outcome (getViewportSize (PS:=unit) stuckBrowser (final r))
     = Resolved (mkSize 790 500).
Proof.
  vm_compute. repeat split; try reflexivity.
  intros H. repeat (destruct H as [H|H]; [discriminate|]). exact H.
Qed.


End SizerExamples.

Module MutableImageFacts.
Import Promise World MutableImage.

Section Facts.
Context {PS X : Type}.
Variable imageUtils : ImageUtils X.
Variable disabled : bool.

Local Abbreviation P := (@World.P PS X).

(** C7. For every image, whatever its state, [scaleImage(1)] and
    [rotateImage(0)] resolve at once: the object (its encoded bytes
    included) is unchanged, the world is unchanged and no call is made, in
    particular no [ImageUtils.parseImage]. *)
Theorem scale_one_and_rotate_zero_are_noops (that : t) (s : State X) :
  let scaled := scaleImage (PS:=PS) imageUtils disabled that 1 s in
  let rotated := rotateImage (PS:=PS) imageUtils disabled that 0 s in
  (outcome scaled = Resolved that /\ final scaled = s /\ emitted scaled = [])
  /\ (outcome rotated = Resolved that /\ final rotated = s
      /\ emitted rotated = [])
  /\ ~ In ParseImage (emitted scaled ++ emitted rotated).
Proof.
  cbn. repeat split; auto.
Qed.

(** The images that a program can hold: built by the constructor and then
    passed through the methods, in any world. *)
Inductive obtained : t -> Prop :=
| obtained_new image : obtained (new image)
| obtained_parse that that' s :
    obtained that ->
    outcome (_parseImage (PS:=PS) imageUtils disabled that s) = Resolved that' ->
    obtained that'
| obtained_pack that that' s :
    obtained that ->
    outcome (_packImage (PS:=PS) imageUtils disabled that s) = Resolved that' ->
    obtained that'
| obtained_size that that' :
    obtained that -> _retrieveImageSize imageUtils that = inr that' ->
    obtained that'
| obtained_coordinates that coordinates that' s :
    obtained that ->
    outcome (setCoordinates (PS:=PS) (X:=X) that coordinates s) = Resolved that' ->
    obtained that'
| obtained_scale that scaleRatio that' s :
    obtained that ->
    outcome (scaleImage (PS:=PS) imageUtils disabled that scaleRatio s)
    = Resolved that' ->
    obtained that'
| obtained_crop that region that' s :
    obtained that ->
    outcome (cropImage (PS:=PS) imageUtils disabled that region s)
    = Resolved that' ->
    obtained that'
| obtained_rotate that degrees that' s :
    obtained that ->
    outcome (rotateImage (PS:=PS) imageUtils disabled that degrees s)
    = Resolved that' ->
    obtained that'.

Lemma _parseImage_disabled (that : t) (s : State X) :
  disabled = true ->
  _parseImage (PS:=PS) imageUtils disabled that s = mkRun (Resolved that) s [].
Proof.
  intros ->. unfold _parseImage. rewrite orb_true_r. reflexivity.
Qed.

Lemma _packImage_disabled (that : t) (s : State X) :
  disabled = true ->
  _packImage (PS:=PS) imageUtils disabled that s = mkRun (Resolved that) s [].
Proof.
  intros ->. unfold _packImage. rewrite orb_true_r. reflexivity.
Qed.

Lemma cropImage_unparsed (that : t) (region : Region.t) (s : State X) :
  disabled = true -> _isParsed that = false ->
  cropImage (PS:=PS) imageUtils disabled that region s
  = mkRun (Resolved that) s [].
Proof.
  intros Hd Hp. unfold cropImage, then_, then2.
  rewrite _parseImage_disabled by assumption. rewrite Hp. reflexivity.
Qed.

Lemma scaleImage_unparsed (that : t) (scaleRatio : Q) (s : State X) :
  disabled = true -> _isParsed that = false ->
  scaleImage (PS:=PS) imageUtils disabled that scaleRatio s
  = mkRun (Resolved that) s [].
Proof.
  intros Hd Hp. unfold scaleImage. destruct (Qeq_bool scaleRatio 1);
    [reflexivity|].
  unfold then_, then2.
  rewrite _parseImage_disabled by assumption. rewrite Hp. reflexivity.
Qed.

Lemma rotateImage_unparsed (that : t) (degrees : Z) (s : State X) :
  disabled = true -> _isParsed that = false ->
  rotateImage (PS:=PS) imageUtils disabled that degrees s
  = mkRun (Resolved that) s [].
Proof.
  intros Hd Hp. unfold rotateImage. destruct (degrees =? 0); [reflexivity|].
  unfold then_, then2.
  rewrite _parseImage_disabled by assumption. rewrite Hp. reflexivity.
Qed.

(** With editing disabled no image is ever parsed. *)
Lemma obtained_unparsed (that : t) :
  disabled = true -> obtained that -> _isParsed that = false.
Proof.
  intros Hd H. induction H as
    [image
    |that that' s _ IH Ho|that that' s _ IH Ho|that that' _ IH Ho
    |that c that' s _ IH Ho|that r that' s _ IH Ho
    |that r that' s _ IH Ho|that d that' s _ IH Ho].
  - reflexivity.
  - rewrite _parseImage_disabled in Ho by assumption. cbn in Ho.
    injection Ho as <-. exact IH.
  - rewrite _packImage_disabled in Ho by assumption. cbn in Ho.
    injection Ho as <-. exact IH.
  - unfold _retrieveImageSize in Ho.
    destruct (_ || _); [injection Ho as <-; exact IH|].
    destruct (getImageSizeFromBuffer _ _); [discriminate|].
    injection Ho as <-. exact IH.
  - cbn in Ho. injection Ho as <-. exact IH.
  - rewrite scaleImage_unparsed in Ho by assumption. cbn in Ho.
    injection Ho as <-. exact IH.
  - rewrite cropImage_unparsed in Ho by assumption. cbn in Ho.
    injection Ho as <-. exact IH.
  - rewrite rotateImage_unparsed in Ho by assumption. cbn in Ho.
    injection Ho as <-. exact IH.
Qed.

(** C10. When image editing is disabled, [cropImage], [scaleImage] and
    [rotateImage] on any image a program can hold resolve to the unchanged
    object (same encoded bytes, same recorded dimensions, still unparsed)
    without touching the world and without any call: the parse is skipped,
    so no decode failure can arise. *)
Theorem disabled_editing_is_a_noop (that : t)
    (region : Region.t) (scaleRatio : Q) (degrees : Z) (s : State X) :
  disabled = true -> obtained that ->
  cropImage (PS:=PS) imageUtils disabled that region s
    = mkRun (Resolved that) s []
  /\ scaleImage (PS:=PS) imageUtils disabled that scaleRatio s
    = mkRun (Resolved that) s []
  /\ rotateImage (PS:=PS) imageUtils disabled that degrees s
    = mkRun (Resolved that) s []
  /\ _isParsed that = false.
Proof.
  intros Hd Hobt. pose proof (obtained_unparsed that Hd Hobt) as Hp.
  split; [apply cropImage_unparsed; assumption|].
  split; [apply scaleImage_unparsed; assumption|].
  split; [apply rotateImage_unparsed; assumption|exact Hp].
Qed.

End Facts.
End MutableImageFacts.

Module MutableImageExamples.
Import Promise World MutableImage MutableImageFacts.

(** An image library that cannot decode anything. *)
Definition noDecoder : ImageUtils unit :=
  mkImageUtils unit
    (fun _ x => (Rejected "not a decodable image", x))
    (fun _ x => (Resolved nil, x))
    (fun _ _ x => (Rejected "not a decodable image", x))
    (fun _ _ x => (Rejected "not a decodable image", x))
    (fun _ _ x => (Rejected "not a decodable image", x))
    (fun _ => inl "not a decodable image")
    (fun _ _ x => (Resolved tt, x)).

Definition blank : State unit := mkState (mkDom "" "") tt.

Lemma disabled_editing_is_a_noop_witness :
  true = true
  /\ obtained (PS:=unit) noDecoder true (new nil)
  /\ cropImage (PS:=unit) noDecoder true (new nil)
       (Region.mk 0 0 10 10 Region.SCREENSHOT_AS_IS) blank
     = mkRun (Resolved (new nil)) blank nil
  /\ scaleImage (PS:=unit) noDecoder true (new nil) (1 # 2) blank
     = mkRun (Resolved (new nil)) blank nil
  /\ rotateImage (PS:=unit) noDecoder true (new nil) 90 blank
     = mkRun (Resolved (new nil)) blank nil
  /\ _isParsed (new nil) = false.
Proof.
  split; [reflexivity|]. split; [apply obtained_new|].
  apply (disabled_editing_is_a_noop (PS:=unit) noDecoder true (new nil)
           (Region.mk 0 0 10 10 Region.SCREENSHOT_AS_IS) (1 # 2) 90 blank
           eq_refl (obtained_new noDecoder true nil)).
Defined.

(** With editing enabled the same crop reaches the decoder and never
    settles. *)
Example enabled_crop_reaches_decoder :
  cropImage (PS:=unit) noDecoder false (new nil)
    (Region.mk 0 0 10 10 Region.SCREENSHOT_AS_IS) blank
  = mkRun Pending blank [ParseImage].
Proof. reflexivity. Qed.

End MutableImageExamples.

(** ** Reasoning about runs *)
Module RunLogic.
Import Promise World PromiseFacts WorldFacts.

Section Logic.
Context {PS X : Type}.

Local Abbreviation P := (@World.P PS X).

(** [ensures p s post]: if [p] resolves when run from [s], its value, the
    state it leaves and the events it emitted satisfy [post]. *)
Definition ensures {A : Type} (p : P A) (s : State X)
    (post : A -> State X -> list (Event PS) -> Prop) : Prop :=
  match outcome (p s) with
  | Resolved a => post a (final (p s)) (emitted (p s))
  | _ => True
  end.

Lemma ensures_elim {A} (p : P A) s post a :
  ensures p s post -> outcome (p s) = Resolved a ->
  post a (final (p s)) (emitted (p s)).
Proof. unfold ensures. intros H E. rewrite E in H. exact H. Qed.

Lemma ensures_conseq {A} (p : P A) s (post post' : A -> State X -> list (Event PS) -> Prop) :
  ensures p s post -> (forall a s' ev, post a s' ev -> post' a s' ev) ->
  ensures p s post'.
Proof. unfold ensures. destruct (outcome (p s)); auto. Qed.

Lemma ensures_resolve {A} (a : A) s (post : A -> State X -> list (Event PS) -> Prop) :
  post a s [] -> ensures (resolve a) s post.
Proof. auto. Qed.

Lemma ensures_reject {A} e s (post : A -> State X -> list (Event PS) -> Prop) :
  ensures (reject e) s post.
Proof. exact I. Qed.

Lemma ensures_then {A B} (p : P A) (f : A -> P B) s post :
  ensures p s (fun a s1 ev1 =>
    ensures (f a) s1 (fun b s2 ev2 => post b s2 (ev1 ++ ev2))) ->
  ensures (then_ p f) s post.
Proof.
  unfold ensures, then_, then2.
  destruct (p s) as [[a|e|] s1 ev1]; cbn; auto.
  destruct (f a s1) as [[b|e|] s2 ev2]; cbn; auto.
Qed.

Lemma ensures_then2 {A B} (p : P A) (f : A -> P B) (g : Reason -> P B) s post :
  ensures p s (fun a s1 ev1 =>
    ensures (f a) s1 (fun b s2 ev2 => post b s2 (ev1 ++ ev2))) ->
  (forall e, outcome (p s) = Rejected e ->
     ensures (g e) (final (p s))
       (fun b s2 ev2 => post b s2 (emitted (p s) ++ ev2))) ->
  ensures (then2 p f g) s post.
Proof.
  unfold ensures, then2.
  destruct (p s) as [[a|e|] s1 ev1]; cbn; auto.
  - destruct (f a s1) as [[b|e|] s2 ev2]; cbn; auto.
  - intros _ H. specialize (H e eq_refl).
    destruct (g e s1) as [[b|e'|] s2 ev2]; cbn in *; auto.
Qed.

Lemma ensures_makePromise {A} (p : P (settle A)) s post :
  ensures p s (fun c s1 ev =>
    match c with CallResolve a => post a s1 ev | _ => True end) ->
  ensures (makePromise p) s post.
Proof.
  unfold ensures, makePromise.
  destruct (p s) as [[[a|e|]|e|] s1 ev1]; cbn; auto.
Qed.

Lemma ensures_detached {A} (p : P (settle A)) s
    (post : settle A -> State X -> list (Event PS) -> Prop) :
  ensures p s post -> (forall s1 ev, post CallNeither s1 ev) ->
  ensures (detached p) s post.
Proof.
  unfold ensures, detached.
  destruct (p s) as [[c|e|] s1 ev1]; cbn; auto.
Qed.

Lemma ensures_call {A} (e : Event PS) (h : Handler X A) s
    (post : A -> State X -> list (Event PS) -> Prop) :
  (forall a x', h (outside s) = (Resolved a, x') ->
     post a (mkState (dom s) x') [e]) ->
  ensures (call e h) s post.
Proof.
  unfold ensures, call, invoke. intros H.
  destruct (h (outside s)) as [[a|r|] x'] eqn:Hh; cbn; auto.
Qed.

Lemma then_resolved {A B} (p : P A) (f : A -> P B) s a :
  outcome (p s) = Resolved a ->
  then_ p f s
  = mkRun (outcome (f a (final (p s)))) (final (f a (final (p s))))
          (emitted (p s) ++ emitted (f a (final (p s)))).
Proof.
  unfold then_, then2. destruct (p s) as [o s1 ev1]; cbn. intros ->.
  destruct (f a s1); reflexivity.
Qed.

Lemma then_call_resolved {A B} (e : Event PS) (h : Handler X A)
    (f : A -> P B) s a x' :
  h (outside s) = (Resolved a, x') ->
  then_ (call e h) f s
  = mkRun (outcome (f a (mkState (dom s) x')))
          (final (f a (mkState (dom s) x')))
          (e :: emitted (f a (mkState (dom s) x'))).
Proof.
  intros Hh. unfold then_, then2, call, invoke. rewrite Hh.
  destruct (f a _); reflexivity.
Qed.

Lemma outcome_makePromise {A} (p : P (settle A)) s :
  outcome (makePromise p s)
  = match outcome (p s) with
    | Resolved (CallResolve a) => Resolved a
    | Resolved (CallReject e) => Rejected e
    | _ => Pending
    end.
Proof.
  unfold makePromise. destruct (p s) as [[[a|e|]|e|] s1 ev1]; reflexivity.
Qed.

Lemma then_unresolved {A B} (p : P A) (f : A -> P B) s :
  (forall a, outcome (p s) <> Resolved a) ->
  emitted (then_ p f s) = emitted (p s)
  /\ (forall b, outcome (then_ p f s) <> Resolved b).
Proof.
  unfold then_, then2. destruct (p s) as [[a|e|] s1 ev1]; cbn; intros H.
  - exfalso. apply (H a). reflexivity.
  - rewrite ?app_nil_r. split; [reflexivity|intros; discriminate].
  - split; [reflexivity|intros; discriminate].
Qed.

Lemma then_resolved_inv {A B} (p : P A) (f : A -> P B) s b :
  outcome (then_ p f s) = Resolved b -> exists a, outcome (p s) = Resolved a.
Proof.
  intros H. destruct (outcome (p s)) as [a|e|] eqn:Hp; [eauto| |];
    exfalso;
    (destruct (then_unresolved p f s) as [_ Hn];
     [intros a; rewrite Hp; discriminate|exact (Hn b H)]).
Qed.

Lemma ensures_then_later {A B} (p : P A) (f : A -> P B) s
    (post1 : A -> State X -> list (Event PS) -> Prop) post :
  ensures p s post1 ->
  (forall a s1 ev1, post1 a s1 ev1 ->
     ensures (f a) s1 (fun b s2 ev2 => post b s2 (ev1 ++ ev2))) ->
  ensures (then_ p f) s post.
Proof.
  intros Hp Hf. apply ensures_then.
  eapply ensures_conseq; [exact Hp|]. exact Hf.
Qed.

(** A postcondition on the value alone passes through any first step. *)
Lemma ensures_then_value {A B} (p : P A) (f : A -> P B) s (post : B -> Prop) :
  (forall a s1, ensures (f a) s1 (fun b _ _ => post b)) ->
  ensures (then_ p f) s (fun b _ _ => post b).
Proof.
  intros H. apply ensures_then. unfold ensures at 1.
  destruct (outcome (p s)); auto.
Qed.

(** [respects Q R p]: every event of a run of [p] satisfies [Q], and the
    state it leaves is related to the state it started from by [R]. *)
Section Respects.
Variable Q : Event PS -> Prop.
Variable R : State X -> State X -> Prop.
Hypothesis R_refl : forall s, R s s.
Hypothesis R_trans : forall a b c, R a b -> R b c -> R a c.
Hypothesis R_outside : forall s x', R s (mkState (dom s) x').

Definition respects {A : Type} (p : P A) : Prop :=
  forall s, Forall Q (emitted (p s)) /\ R s (final (p s)).

Lemma respects_resolve {A} (a : A) : respects (resolve a).
Proof. intros s. split; [constructor|apply R_refl]. Qed.

Lemma respects_reject {A} e : respects (A:=A) (reject e).
Proof. intros s. split; [constructor|apply R_refl]. Qed.

Lemma respects_then2 {A B} (p : P A) (f : A -> P B) (g : Reason -> P B) :
  respects p -> (forall a, respects (f a)) -> (forall e, respects (g e)) ->
  respects (then2 p f g).
Proof.
  intros Hp Hf Hg s. unfold then2. specialize (Hp s).
  destruct (p s) as [[a|e|] s1 ev1]; cbn in *; auto.
  - specialize (Hf a s1). destruct (f a s1) as [o s2 ev2]; cbn in *.
    split; [apply Forall_app; tauto|eapply R_trans; [apply Hp|apply Hf]].
  - specialize (Hg e s1). destruct (g e s1) as [o s2 ev2]; cbn in *.
    split; [apply Forall_app; tauto|eapply R_trans; [apply Hp|apply Hg]].
Qed.

Lemma respects_then {A B} (p : P A) (f : A -> P B) :
  respects p -> (forall a, respects (f a)) -> respects (then_ p f).
Proof.
  intros Hp Hf. apply respects_then2; auto. intros e. apply respects_reject.
Qed.

Lemma respects_makePromise {A} (p : P (settle A)) :
  respects p -> respects (makePromise p).
Proof.
  intros Hp s. unfold makePromise. specialize (Hp s).
  destruct (p s) as [[[a|e|]|e|] s1 ev1]; cbn in *; auto.
Qed.

Lemma respects_detached {A} (p : P (settle A)) :
  respects p -> respects (detached p).
Proof.
  intros Hp s. unfold detached. specialize (Hp s).
  destruct (p s) as [[c|e|] s1 ev1]; cbn in *; auto.
Qed.

Lemma respects_call {A} (e : Event PS) (h : Handler X A) :
  Q e -> respects (call e h).
Proof.
  intros He s. unfold call, invoke.
  destruct (h (outside s)) as [o x']; cbn.
  split; [repeat constructor; assumption|apply R_outside].
Qed.

Lemma respects_emit (e : Event PS) : Q e -> respects (emit e).
Proof.
  intros He s. cbn. split; [repeat constructor; assumption|apply R_refl].
Qed.

(** A call whose event or handler reads the state it starts from. *)
Lemma respects_reading {A} (p : State X -> P A) :
  (forall s0, respects (p s0)) -> respects (fun s => p s s).
Proof. intros H s. apply (H s s). Qed.

Lemma respects_ensures {A} (p : P A) s :
  respects p -> ensures p s (fun _ s' ev => Forall Q ev /\ R s s').
Proof.
  intros H. unfold ensures. specialize (H s).
  destruct (outcome (p s)); auto.
Qed.

End Respects.

End Logic.
End RunLogic.

(** ** Decoding and encoding on demand *)
Module MutableImageLifecycle.
Import Promise World MutableImage PromiseFacts WorldFacts RunLogic.

Section Facts.
Context {PS X : Type}.
Variable imageUtils : ImageUtils X.
Variable disabled : bool.

Local Abbreviation P := (@World.P PS X).
Local Abbreviation parse := (_parseImage (PS:=PS) imageUtils disabled).
Local Abbreviation pack := (_packImage (PS:=PS) imageUtils disabled).
Local Abbreviation crop := (cropImage (PS:=PS) imageUtils disabled).
Local Abbreviation scale := (scaleImage (PS:=PS) imageUtils disabled).
Local Abbreviation rotate := (rotateImage (PS:=PS) imageUtils disabled).
Local Abbreviation imageData := (getImageData (PS:=PS) imageUtils disabled).
Local Abbreviation imageBuffer := (getImageBuffer (PS:=PS) imageUtils disabled).
Local Abbreviation imagePart := (getImagePart (PS:=PS) imageUtils disabled).

(** What [_parseImage] leaves in the object after a decode. *)
Definition parsedAs (that : t) (d : ImageData) : t :=
  mk (_imageBuffer that) true (Some d) (bmpWidth d) (bmpHeight d)
     (_top that) (_left that).

Lemma parse_run (that : t) (s : State X) :
  parse that s
  = if _isParsed that || disabled then mkRun (Resolved that) s []
    else
      match parseImage imageUtils (_imageBuffer that) (outside s) with
      | (Resolved d, x') =>
        mkRun (Resolved (parsedAs that d)) (mkState (dom s) x') [ParseImage]
      | (_, x') => mkRun Pending (mkState (dom s) x') [ParseImage]
      end.
Proof.
  unfold _parseImage. destruct (_isParsed that || disabled); [reflexivity|].
  run_unfold. destruct (parseImage imageUtils _ _) as [[d|e|] x']; reflexivity.
Qed.

Lemma pack_run (that : t) (s : State X) :
  pack that s
  = if negb (_isParsed that) || isSome (_imageBuffer that) || disabled
    then mkRun (Resolved that) s []
    else
      match packImage imageUtils (_imageBmp that) (outside s) with
      | (Resolved buffer, x') =>
        mkRun (Resolved (mk (Some buffer) (_isParsed that) (_imageBmp that)
                            (_width that) (_height that) (_top that)
                            (_left that)))
              (mkState (dom s) x') [PackImage]
      | (_, x') => mkRun Pending (mkState (dom s) x') [PackImage]
      end.
Proof.
  unfold _packImage.
  destruct (negb (_isParsed that) || isSome (_imageBuffer that) || disabled);
    [reflexivity|].
  run_unfold. destruct (packImage imageUtils _ _) as [[d|e|] x']; reflexivity.
Qed.

(** The image needs no decoding any more: it is parsed, or editing is
    disabled. *)
Definition settledParse (that : t) : Prop := _isParsed that || disabled = true.

Lemma parse_settled (that : t) (s : State X) :
  settledParse that -> parse that s = mkRun (Resolved that) s [].
Proof. intros H. rewrite parse_run. unfold settledParse in H. now rewrite H. Qed.

Lemma parse_resolved (that that' : t) (s : State X) :
  outcome (parse that s) = Resolved that' ->
  settledParse that'
  /\ _top that' = _top that /\ _left that' = _left that
  /\ (_isParsed that' = false -> that' = that).
Proof.
  rewrite parse_run. unfold settledParse.
  destruct (_isParsed that || disabled) eqn:E; cbn.
  - intros [= <-]. auto.
  - destruct (parseImage imageUtils _ _) as [[d|e|] x']; cbn;
      try discriminate.
    intros [= <-]. cbn. repeat split; auto. discriminate.
Qed.

(** One edit after the decode: the call to the image library that [edit]
    stands for, and the update of the object. *)
Definition editStep (e : Event PS) (h : option ImageData -> Handler X ImageData)
    (that : t) : P t :=
  that <- parse that ;;
  if _isParsed that then
    bmp <- call e (h (_imageBmp that)) ;;
    resolve (edited that bmp)
  else resolve that.

Lemma editStep_resolved e h (that that' : t) (s : State X) :
  outcome (editStep e h that s) = Resolved that' ->
  (that' = that /\ _isParsed that = false /\ disabled = true)
  \/ (exists that1 bmp,
        outcome (parse that s) = Resolved that1 /\ _isParsed that1 = true
        /\ that' = edited that1 bmp).
Proof.
  unfold editStep. intros H.
  destruct (outcome (parse that s)) as [that1| |] eqn:Hp.
  2,3: exfalso; unfold then_, then2 in H;
       destruct (parse that s) as [o s1 ev1]; cbn in Hp; subst o; cbn in H;
       discriminate.
  unfold then_ at 1, then2 in H.
  destruct (parse that s) as [o s1 ev1] eqn:Hrun. cbn in Hp. subst o.
  pose proof (parse_resolved that that1 s) as Hres.
  rewrite Hrun in Hres. specialize (Hres eq_refl).
  destruct Hres as (Hset & _ & _ & Hsame).
  destruct (_isParsed that1) eqn:Hparsed.
  - right. exists that1.
    unfold then_, then2, call, invoke in H.
    destruct (h (_imageBmp that1) (outside s1)) as [[bmp|r|] x']; cbn in H;
      try discriminate.
    injection H as <-. exists bmp. auto.
  - left. cbn in H. injection H as <-.
    rewrite (Hsame eq_refl) in *. unfold settledParse in Hset.
    rewrite Hparsed in Hset. cbn in Hset. auto.
Qed.

Lemma editStep_trace e h (that : t) (s : State X) :
  settledParse that ->
  emitted (editStep e h that s) = if _isParsed that then [e] else [].
Proof.
  intros Hset. unfold editStep. rewrite emitted_then_.
  rewrite parse_settled by assumption. cbn.
  destruct (_isParsed that).
  - rewrite emitted_then_, emitted_call.
    destruct (outcome _); reflexivity.
  - reflexivity.
Qed.

Lemma crop_is_editStep (that : t) (region : Region.t) :
  crop that region
  = editStep (CropImage (rectOf region))
      (fun bmp => utilsCropImage imageUtils bmp (rectOf region)) that.
Proof. reflexivity. Qed.

Lemma scale_is_editStep (that : t) (scaleRatio : Q) :
  Qeq_bool scaleRatio 1 = false ->
  scale that scaleRatio
  = editStep (ScaleImage scaleRatio)
      (fun bmp => utilsScaleImage imageUtils bmp scaleRatio) that.
Proof. intros H. unfold scaleImage. rewrite H. reflexivity. Qed.

Lemma rotate_is_editStep (that : t) (degrees : Z) :
  degrees <> 0 ->
  rotate that degrees
  = editStep (RotateImage degrees)
      (fun bmp => utilsRotateImage imageUtils bmp degrees) that.
Proof.
  intros H. unfold rotateImage.
  destruct (Z.eqb_spec degrees 0); [contradiction|reflexivity].
Qed.

(** [that'] is what a resolved crop, scaling (by a ratio other than 1) or
    rotation (by other than 0 degrees) of [that] leaves. *)
Definition editedTo (that that' : t) : Prop :=
  exists s,
    (exists region, outcome (crop that region s) = Resolved that')
    \/ (exists scaleRatio,
          Qeq_bool scaleRatio 1 = false
          /\ outcome (scale that scaleRatio s) = Resolved that')
    \/ (exists degrees,
          degrees <> 0 /\ outcome (rotate that degrees s) = Resolved that').

Lemma editedTo_inv (that that' : t) :
  editedTo that that' ->
  (that' = that /\ _isParsed that = false /\ disabled = true)
  \/ (exists that1 bmp s,
        outcome (parse that s) = Resolved that1 /\ _isParsed that1 = true
        /\ that' = edited that1 bmp).
Proof.
  intros [s [[region H]|[[scaleRatio [Hr H]]|[degrees [Hd H]]]]].
  - rewrite crop_is_editStep in H.
    destruct (editStep_resolved _ _ _ _ _ H) as [?|(t1 & bmp & ?)]; eauto 6.
  - rewrite scale_is_editStep in H by assumption.
    destruct (editStep_resolved _ _ _ _ _ H) as [?|(t1 & bmp & ?)]; eauto 6.
  - rewrite rotate_is_editStep in H by assumption.
    destruct (editStep_resolved _ _ _ _ _ H) as [?|(t1 & bmp & ?)]; eauto 6.
Qed.

Lemma editedTo_settled (that that' : t) :
  editedTo that that' -> settledParse that'.
Proof.
  intros H. unfold settledParse.
  destruct (editedTo_inv _ _ H) as [(-> & Hp & ->)|(t1 & bmp & s & _ & Hp & ->)].
  - apply orb_true_r.
  - cbn. rewrite Hp. reflexivity.
Qed.

(** X11. An image is decoded at most once.  After a crop, a scaling or a
    rotation has resolved, or after [getImageData] has resolved, no later
    crop, scaling, rotation or [getImageData] of the object calls
    [ImageUtils.parseImage], in whatever state of the world it is made, and
    [getImageData] resolves at once to the bitmap that the object holds. *)
Theorem image_is_decoded_at_most_once (that that' : t) :
  editedTo that that'
  \/ (exists s d, outcome (imageData that s) = Resolved (d, that')) ->
  forall (region : Region.t) (scaleRatio : Q) (degrees : Z) (s' : State X),
    ~ In ParseImage (emitted (crop that' region s'))
    /\ ~ In ParseImage (emitted (scale that' scaleRatio s'))
    /\ ~ In ParseImage (emitted (rotate that' degrees s'))
    /\ imageData that' s' = mkRun (Resolved (_imageBmp that', that')) s' [].
Proof.
  intros H region scaleRatio degrees s'.
  assert (Hset : settledParse that').
  { destruct H as [H|(s & d & H)]; [exact (editedTo_settled _ _ H)|].
    unfold getImageData in H.
    destruct (outcome (parse that s)) as [that1| |] eqn:Hp.
    - rewrite (then_resolved _ _ _ _ Hp) in H. cbn in H.
      injection H as _ <-. exact (proj1 (parse_resolved _ _ _ Hp)).
    - unfold then_, then2 in H. destruct (parse that s) as [o s1 ev1].
      cbn in Hp. subst o. discriminate.
    - unfold then_, then2 in H. destruct (parse that s) as [o s1 ev1].
      cbn in Hp. subst o. discriminate. }
  assert (Hno : forall e h, e <> ParseImage ->
                  ~ In ParseImage (emitted (editStep e h that' s'))).
  { intros e h He. rewrite editStep_trace by assumption.
    destruct (_isParsed that'); simpl; [|tauto]. intros [E|[]]. now apply He. }
  split; [rewrite crop_is_editStep; apply Hno; discriminate|].
  split.
  { destruct (Qeq_bool scaleRatio 1) eqn:Hr.
    - unfold scaleImage. rewrite Hr. cbn. tauto.
    - rewrite scale_is_editStep by assumption. apply Hno; discriminate. }
  split.
  { destruct (Z.eq_dec degrees 0) as [->|Hd].
    - cbn. tauto.
    - rewrite rotate_is_editStep by assumption. apply Hno; discriminate. }
  unfold getImageData, then_, then2. rewrite parse_settled by assumption.
  reflexivity.
Qed.

(** X12. With editing enabled, an edit drops the encoded bytes without encoding
    anything; the next [getImageBuffer] calls [ImageUtils.packImage] exactly
    once, and when it resolves it yields bytes that a further
    [getImageBuffer] returns without any call. *)
Theorem edit_is_encoded_on_demand (that that' : t) :
  disabled = false -> editedTo that that' ->
  _imageBuffer that' = None
  /\ forall s1 : State X,
       emitted (imageBuffer that' s1) = [PackImage]
       /\ forall buffer that'',
            outcome (imageBuffer that' s1) = Resolved (buffer, that'') ->
            (exists bytes, buffer = Some bytes)
            /\ forall s2 : State X,
                 imageBuffer that'' s2 = mkRun (Resolved (buffer, that'')) s2 [].
Proof.
  intros Hd H.
  destruct (editedTo_inv _ _ H) as [(_ & _ & Hd')|(t1 & bmp & s & _ & Hp & ->)];
    [congruence|].
  split; [reflexivity|]. intros s1.
  assert (Hpack :
    pack (edited t1 bmp) s1
    = match packImage imageUtils (Some bmp) (outside s1) with
      | (Resolved buffer, x') =>
        mkRun (Resolved (mk (Some buffer) true (Some bmp) (bmpWidth bmp)
                            (bmpHeight bmp) (_top t1) (_left t1)))
              (mkState (dom s1) x') [PackImage]
      | (_, x') => mkRun Pending (mkState (dom s1) x') [PackImage]
      end).
  { rewrite pack_run. cbn. rewrite Hp, Hd. reflexivity. }
  split.
  - unfold getImageBuffer. rewrite emitted_then_, Hpack.
    destruct (packImage imageUtils (Some bmp) (outside s1)) as [[bytes|e|] x'];
      reflexivity.
  - intros buffer that'' E. unfold getImageBuffer in E.
    destruct (then_resolved_inv _ _ _ _ E) as [t2 Ho].
    rewrite (then_resolved _ _ _ _ Ho) in E. cbn in E. injection E as <- <-.
    rewrite Hpack in Ho.
    destruct (packImage imageUtils (Some bmp) (outside s1)) as [[bytes|e|] x'];
      cbn in Ho; try discriminate.
    injection Ho as <-. split; [cbn; eauto|]. intros s2.
    unfold getImageBuffer, then_, then2. rewrite pack_run. reflexivity.
Qed.

(** X13. With editing enabled, when [ImageUtils.parseImage] rejects the bytes of
    an image that is not parsed yet, [cropImage], [scaleImage] (by a ratio
    other than 1), [rotateImage] (by other than 0 degrees) and
    [getImageData] never settle: the rejection does not reach the caller. *)
Theorem decoder_failure_never_settles (that : t) (s : State X)
    (reason : Reason) (x' : X) :
  disabled = false -> _isParsed that = false ->
  parseImage imageUtils (_imageBuffer that) (outside s) = (Rejected reason, x') ->
  forall (region : Region.t) (scaleRatio : Q) (degrees : Z),
    outcome (crop that region s) = Pending
    /\ (Qeq_bool scaleRatio 1 = false ->
        outcome (scale that scaleRatio s) = Pending)
    /\ (degrees <> 0 -> outcome (rotate that degrees s) = Pending)
    /\ outcome (imageData that s) = Pending.
Proof.
  intros Hd Hp Hrej region scaleRatio degrees.
  assert (Hparse : parse that s
                   = mkRun Pending (mkState (dom s) x') [ParseImage]).
  { rewrite parse_run, Hp, Hd, Hrej. reflexivity. }
  assert (Hedit : forall e h, outcome (editStep e h that s) = Pending).
  { intros e h. unfold editStep, then_ at 1, then2. rewrite Hparse.
    reflexivity. }
  split; [rewrite crop_is_editStep; apply Hedit|].
  split; [intros Hr; rewrite scale_is_editStep by assumption; apply Hedit|].
  split; [intros Hz; rewrite rotate_is_editStep by assumption; apply Hedit|].
  unfold getImageData, then_, then2. rewrite Hparse. reflexivity.
Qed.

(** X14. The coordinates given to [setCoordinates] are the ones that
    [getCoordinates] resolves to, also after the image has been cropped,
    scaled or rotated in between. *)
Theorem coordinates_survive_edits (that that1 that2 : t)
    (coordinates : Location.t) (s s' : State X) :
  outcome (setCoordinates (PS:=PS) that coordinates s) = Resolved that1 ->
  that2 = that1 \/ editedTo that1 that2 ->
  outcome (getCoordinates (PS:=PS) that2 s') = Resolved coordinates.
Proof.
  intros Hset Hedit. cbn in Hset. injection Hset as <-.
  assert (H : _left that2 = Location.getX coordinates
              /\ _top that2 = Location.getY coordinates).
  { destruct Hedit as [->|Hedit]; [cbn; auto|].
    destruct (editedTo_inv _ _ Hedit)
      as [(-> & _)|(t1 & bmp & s1 & Hp & _ & ->)]; [cbn; auto|].
    destruct (parse_resolved _ _ _ Hp) as (_ & Ht & Hl & _).
    cbn in *. auto. }
  destruct H as [Hl Ht]. cbn. rewrite Hl, Ht.
  destruct coordinates; reflexivity.
Qed.

(** X15. [getImagePart] does not edit the receiver: its bitmap, its dimensions
    and its coordinates are as before (at most its bytes have been
    encoded).  The part is a new image at coordinates (0,0); with editing
    enabled it holds the cropped bitmap, has the dimensions of that bitmap
    and holds no encoded bytes. *)
Theorem getImagePart_leaves_receiver (that that' part : t)
    (region : Region.t) (s : State X) :
  outcome (imagePart that region s) = Resolved (part, that') ->
  (_isParsed that' = _isParsed that /\ _imageBmp that' = _imageBmp that
   /\ _width that' = _width that /\ _height that' = _height that
   /\ _top that' = _top that /\ _left that' = _left that)
  /\ _top part = 0 /\ _left part = 0
  /\ (disabled = false ->
      exists bmp,
        _imageBmp part = Some bmp /\ _imageBuffer part = None
        /\ _width part = bmpWidth bmp /\ _height part = bmpHeight bmp).
Proof.
  unfold getImagePart. intros H.
  destruct (outcome (pack that s)) as [that1| |] eqn:Hp.
  2,3: exfalso; unfold then_, then2 in H;
       destruct (pack that s) as [o s1 ev1]; cbn in Hp; subst o; cbn in H;
       discriminate.
  rewrite (then_resolved _ _ _ _ Hp) in H. cbn in H.
  assert (Hsame : _isParsed that1 = _isParsed that
                  /\ _imageBmp that1 = _imageBmp that
                  /\ _width that1 = _width that /\ _height that1 = _height that
                  /\ _top that1 = _top that /\ _left that1 = _left that).
  { rewrite pack_run in Hp.
    destruct (negb (_isParsed that) || isSome (_imageBuffer that) || disabled);
      cbn in Hp; [injection Hp as <-; auto 6|].
    destruct (packImage imageUtils _ _) as [[b|e|] x']; cbn in Hp;
      try discriminate.
    injection Hp as <-. cbn. auto 6. }
  destruct (_imageBuffer that1) as [bytes|]; [|discriminate].
  set (s1 := final (pack that s)) in *.
  destruct (outcome (crop (new bytes) region s1)) as [p| |] eqn:Hc.
  2,3: exfalso; unfold then_, then2 in H;
       destruct (crop (new bytes) region s1) as [o s2 ev2]; cbn in Hc;
       subst o; cbn in H; discriminate.
  rewrite (then_resolved _ _ _ _ Hc) in H. cbn in H.
  injection H as <- <-. split; [exact Hsame|].
  rewrite crop_is_editStep in Hc.
  destruct (editStep_resolved _ _ _ _ _ Hc)
    as [(-> & _ & Hd)|(t1 & bmp & Hq & Hparsed & ->)].
  - cbn. split; [reflexivity|]. split; [reflexivity|]. congruence.
  - destruct (parse_resolved _ _ _ Hq) as (_ & Ht & Hl & _). cbn in *.
    split; [assumption|]. split; [assumption|]. intros _. exists bmp. auto.
Qed.

(** Every image that a program can hold is parsed or still has its encoded
    bytes. *)
Lemma obtained_has_source (that : t) :
  MutableImageFacts.obtained (PS:=PS) imageUtils disabled that ->
  _isParsed that = true \/ isSome (_imageBuffer that) = true.
Proof.
  assert (Hedit : forall e h that0 that1 (s : State X),
            (_isParsed that0 = true \/ isSome (_imageBuffer that0) = true) ->
            outcome (editStep e h that0 s) = Resolved that1 ->
            _isParsed that1 = true \/ isSome (_imageBuffer that1) = true).
  { intros e h that0 that1 s IH Ho.
    destruct (editStep_resolved _ _ _ _ _ Ho)
      as [(-> & _)|(t1 & bmp & _ & Hp & ->)]; [exact IH|].
    left. exact Hp. }
  induction 1 as
    [image
    |that that' s _ IH Ho|that that' s _ IH Ho|that that' _ IH Ho
    |that c that' s _ IH Ho|that r that' s _ IH Ho
    |that r that' s _ IH Ho|that d that' s _ IH Ho].
  - right. reflexivity.
  - rewrite parse_run in Ho.
    destruct (_isParsed that || disabled); cbn in Ho;
      [injection Ho as <-; exact IH|].
    destruct (parseImage imageUtils _ _) as [[data|e|] x']; cbn in Ho;
      try discriminate.
    injection Ho as <-. left. reflexivity.
  - rewrite pack_run in Ho.
    destruct (negb (_isParsed that) || isSome (_imageBuffer that) || disabled);
      cbn in Ho; [injection Ho as <-; exact IH|].
    destruct (packImage imageUtils _ _) as [[bytes|e|] x']; cbn in Ho;
      try discriminate.
    injection Ho as <-. right. reflexivity.
  - unfold _retrieveImageSize in Ho.
    destruct (_ || _); [injection Ho as <-; exact IH|].
    destruct (getImageSizeFromBuffer _ _); [discriminate|].
    injection Ho as <-. exact IH.
  - cbn in Ho. injection Ho as <-. exact IH.
  - destruct (Qeq_bool r 1) eqn:Hr.
    + unfold scaleImage in Ho. rewrite Hr in Ho. cbn in Ho.
      injection Ho as <-. exact IH.
    + rewrite scale_is_editStep in Ho by assumption. eapply Hedit; eauto.
  - rewrite crop_is_editStep in Ho. eapply Hedit; eauto.
  - destruct (Z.eq_dec d 0) as [->|Hd].
    + cbn in Ho. injection Ho as <-. exact IH.
    + rewrite rotate_is_editStep in Ho by assumption. eapply Hedit; eauto.
Qed.

(** X16. For every image that a program can hold (built by the constructor and
    passed through the methods), [getImageBuffer] never resolves to [null]:
    when it resolves, it yields encoded bytes, and the object holds them. *)
Theorem getImageBuffer_never_null (that that' : t)
    (buffer : option Buffer) (s : State X) :
  MutableImageFacts.obtained (PS:=PS) imageUtils disabled that ->
  outcome (imageBuffer that s) = Resolved (buffer, that') ->
  exists bytes, buffer = Some bytes /\ _imageBuffer that' = Some bytes.
Proof.
  intros Hobt H. unfold getImageBuffer in H.
  destruct (then_resolved_inv _ _ _ _ H) as [t1 Ho].
  rewrite (then_resolved _ _ _ _ Ho) in H. cbn in H. injection H as <- <-.
  rewrite pack_run in Ho.
  destruct (negb (_isParsed that) || isSome (_imageBuffer that) || disabled)
    eqn:Hskip; cbn in Ho.
  - injection Ho as <-.
    destruct (_imageBuffer that) as [bytes|] eqn:Hb; [eauto|].
    exfalso. destruct (obtained_has_source that Hobt) as [Hp|Hs];
      [|rewrite Hb in Hs; discriminate].
    rewrite Hp in Hskip. cbn in Hskip.
    pose proof (MutableImageFacts.obtained_unparsed imageUtils disabled that
                  Hskip Hobt).
    congruence.
  - destruct (packImage imageUtils _ _) as [[bytes|e|] x']; cbn in Ho;
      try discriminate.
    injection Ho as <-. cbn. eauto.
Qed.

End Facts.
End MutableImageLifecycle.

Module MutableImageLifecycleExamples.
Import Promise World MutableImage MutableImageLifecycle.

(** An image library that decodes every buffer to an 8x6 bitmap, crops to
    the size of the region and encodes to two bytes. *)
Definition decoder : ImageUtils unit :=
  mkImageUtils unit
    (fun _ x => (Resolved (mkImageData 8 6 nil), x))
    (fun _ x => (Resolved (cons Byte.x89 (cons Byte.x50 nil)), x))
    (fun _ _ x => (Resolved (mkImageData 4 3 nil), x))
    (fun _ region x =>
       (Resolved (mkImageData (rectWidth region) (rectHeight region) nil), x))
    (fun _ _ x => (Resolved (mkImageData 6 8 nil), x))
    (fun _ => inr (mkSize 8 6))
    (fun _ _ x => (Resolved tt, x)).

Definition corner : Region.t := Region.mk 0 0 2 2 Region.SCREENSHOT_AS_IS.

(** A fresh image after [cropImage(corner)]. *)
Definition cropped : t :=
  edited (parsedAs (new nil) (mkImageData 8 6 nil)) (mkImageData 2 2 nil).

Lemma cropped_is_edited : editedTo (PS:=unit) decoder false (new nil) cropped.
Proof. exists MutableImageExamples.blank. left. exists corner. reflexivity. Qed.

Lemma image_is_decoded_at_most_once_witness :
  editedTo (PS:=unit) decoder false (new nil) cropped
  /\ ~ In ParseImage
        (emitted (cropImage (PS:=unit) decoder false cropped corner MutableImageExamples.blank))
  /\ getImageData (PS:=unit) decoder false cropped MutableImageExamples.blank
     = mkRun (Resolved (_imageBmp cropped, cropped)) MutableImageExamples.blank nil.
Proof.
  split; [exact cropped_is_edited|].
  destruct (image_is_decoded_at_most_once (PS:=unit) decoder false
              (new nil) cropped (or_introl cropped_is_edited)
              corner 1%Q 0 MutableImageExamples.blank) as (H1 & _ & _ & H4).
  split; assumption.
Defined.

Lemma edit_is_encoded_on_demand_witness :
  editedTo (PS:=unit) decoder false (new nil) cropped
  /\ _imageBuffer cropped = None
  /\ emitted (getImageBuffer (PS:=unit) decoder false cropped MutableImageExamples.blank)
     = cons PackImage nil.
Proof.
  split; [exact cropped_is_edited|].
  destruct (edit_is_encoded_on_demand (PS:=unit) decoder false (new nil)
              cropped eq_refl cropped_is_edited) as [H1 H2].
  split; [exact H1|]. exact (proj1 (H2 MutableImageExamples.blank)).
Defined.

Lemma decoder_failure_never_settles_witness :
  outcome (cropImage (PS:=unit) MutableImageExamples.noDecoder false (new nil)
             corner MutableImageExamples.blank) = Pending
  /\ outcome (getImageData (PS:=unit) MutableImageExamples.noDecoder false
                (new nil) MutableImageExamples.blank) = Pending.
Proof.
  destruct (decoder_failure_never_settles (PS:=unit)
              MutableImageExamples.noDecoder false (new nil) MutableImageExamples.blank
              "not a decodable image" tt eq_refl eq_refl eq_refl
              corner 1%Q 0) as (H1 & _ & _ & H4).
  split; assumption.
Defined.

Lemma coordinates_survive_edits_witness :
  outcome (getCoordinates (PS:=unit) (X:=unit)
             (edited (parsedAs (mk (Some nil) false None 0 0 7 5)
                               (mkImageData 8 6 nil))
                     (mkImageData 2 2 nil))
             MutableImageExamples.blank)
  = Resolved (Location.mk 5 7).
Proof.
  apply (coordinates_survive_edits (PS:=unit) decoder false (new nil)
           (mk (Some nil) false None 0 0 7 5) _ (Location.mk 5 7) MutableImageExamples.blank MutableImageExamples.blank).
  - reflexivity.
  - right. exists MutableImageExamples.blank. left. exists corner. reflexivity.
Defined.

Lemma getImagePart_leaves_receiver_witness :
  outcome (getImagePart (PS:=unit) decoder false (new nil) corner MutableImageExamples.blank)
  = Resolved (cropped, new nil)
  /\ _top cropped = 0 /\ _left cropped = 0
  /\ exists bmp,
       _imageBmp cropped = Some bmp /\ _imageBuffer cropped = None
       /\ _width cropped = bmpWidth bmp /\ _height cropped = bmpHeight bmp.
Proof.
  split; [reflexivity|].
  destruct (getImagePart_leaves_receiver (PS:=unit) decoder false
              (new nil) (new nil) cropped corner MutableImageExamples.blank eq_refl)
    as (_ & H1 & H2 & H3).
  split; [exact H1|]. split; [exact H2|]. exact (H3 eq_refl).
Defined.

Lemma getImageBuffer_never_null_witness :
  MutableImageFacts.obtained (PS:=unit) decoder false cropped
  /\ exists bytes,
       outcome (getImageBuffer (PS:=unit) decoder false cropped MutableImageExamples.blank)
       = Resolved (Some bytes,
                   mk (Some bytes) true (Some (mkImageData 2 2 nil)) 2 2 0 0)
       /\ _imageBuffer (mk (Some bytes) true (Some (mkImageData 2 2 nil)) 2 2 0 0)
          = Some bytes.
Proof.
  assert (H : MutableImageFacts.obtained (PS:=unit) decoder false cropped).
  { apply (MutableImageFacts.obtained_crop decoder false (new nil) corner
             cropped MutableImageExamples.blank); [apply MutableImageFacts.obtained_new|reflexivity]. }
  split; [exact H|].
  destruct (getImageBuffer_never_null (PS:=unit) decoder false cropped _ _
              MutableImageExamples.blank H eq_refl) as (bytes & Hb & Hthat).
  exists bytes. injection Hb as <-. split; reflexivity.
Defined.

End MutableImageLifecycleExamples.

(** ** Measuring and setting the viewport *)
Module ViewportFacts.
Import Promise World EyesSeleniumUtils PromiseFacts WorldFacts RunLogic.

Section Facts.
Context {PS X : Type}.
Variable browser : WebDriver X.

Local Abbreviation P := (@World.P PS X).

Lemma sameSize_refl (a : Size) : sameSize a a = true.
Proof. unfold sameSize. now rewrite !Z.eqb_refl. Qed.

Lemma verbose_then {B} message args (f : unit -> P B) (s : State X) :
  then_ (verbose message args) f s
  = mkRun (outcome (f tt s)) (final (f tt s))
          (LogVerbose message args :: emitted (f tt s)).
Proof. unfold then_, then2, verbose, emit. destruct (f tt s); reflexivity. Qed.


(** The executor of [makePromise] whose chain ends in a [catch] that calls
    [reject]. *)
Lemma executor_resolved {A} (p : P (settle A)) g (s : State X) (a : A) :
  outcome (p s) = Resolved (CallResolve a) ->
  makePromise (catch p g) s = mkRun (Resolved a) (final (p s)) (emitted (p s)).
Proof.
  unfold makePromise, catch, then2. destruct (p s) as [o s1 ev1]; cbn.
  intros ->. cbn. now rewrite app_nil_r.
Qed.

Lemma executor_silent {A} (p : P (settle A)) g (s : State X) :
  outcome (p s) = Resolved CallNeither \/ outcome (p s) = Pending ->
  outcome (makePromise (catch p g) s) = Pending.
Proof.
  unfold makePromise, catch, then2. destruct (p s) as [o s1 ev1]; cbn.
  intros [->| ->]; reflexivity.
Qed.

Lemma detached_unresolved {A} (chain : P (settle A)) (s : State X) :
  (forall c, outcome (chain s) <> Resolved c) ->
  outcome (detached chain s) = Resolved CallNeither
  \/ outcome (detached chain s) = Pending.
Proof.
  unfold detached. destruct (chain s) as [[c|e|] s1 ev1]; cbn; intros H; auto.
  exfalso. exact (H c eq_refl).
Qed.

(** X17. When the viewport already has the required size, [setViewportSize]
    resolves after the one measurement: it moves nothing and resizes
    nothing. *)
Theorem matching_viewport_is_left_alone (requiredSize : Size) (s : State X) :
  outcome (getViewportSize (PS:=PS) browser s) = Resolved requiredSize ->
  setViewportSize (PS:=PS) browser requiredSize s
  = mkRun (Resolved tt) (final (getViewportSize (PS:=PS) browser s))
      [LogVerbose "setViewportSize(" [width requiredSize; height requiredSize];
       ExecuteScript JS_GET_VIEWPORT_SIZE;
       LogVerbose "Initial viewport size:"
                  [width requiredSize; height requiredSize]].
Proof.
  intros H. unfold setViewportSize.
  rewrite verbose_then.
  match goal with
  | |- context [makePromise (catch ?p ?g)] =>
    assert (Hp : p s
                 = mkRun (Resolved (CallResolve tt))
                     (final (getViewportSize (PS:=PS) browser s))
                     [ExecuteScript JS_GET_VIEWPORT_SIZE;
                      LogVerbose "Initial viewport size:"
                                 [width requiredSize; height requiredSize]])
  end.
  { rewrite (then_resolved _ _ _ _ H). cbn beta. rewrite sameSize_refl.
    rewrite SizerFacts.getViewportSize_trace. reflexivity. }
  rewrite (executor_resolved _ _ s tt); rewrite Hp; reflexivity.
Qed.







(** X19. When the script measures the viewport, [getViewportSizeOrDisplaySize]
    resolves to that size and does not ask for the size of the window. *)
Theorem measured_viewport_is_preferred
    (stringFormat : option (string -> Size -> string))
    (size : Size) (s : State X) :
  outcome (getViewportSize (PS:=PS) browser s) = Resolved size ->
  getViewportSizeOrDisplaySize (PS:=PS) browser stringFormat s
  = mkRun (Resolved size) (final (getViewportSize (PS:=PS) browser s))
      [LogVerbose "getViewportSizeOrDisplaySize()" [];
       ExecuteScript JS_GET_VIEWPORT_SIZE].
Proof.
  intros H. unfold getViewportSizeOrDisplaySize.
  rewrite verbose_then.
  pose proof (SizerFacts.getViewportSize_trace (PS:=PS) browser s) as Htr.
  unfold catch, then2.
  destruct (getViewportSize browser s) as [o s1 ev1]. cbn in H, Htr |- *.
  subst o ev1. reflexivity.
Qed.

(** X20. In a program where nothing defines [String.format],
    [getViewportSizeOrDisplaySize] resolves exactly when the script
    measurement does, to the same size: when the measurement fails, the size
    of the window is read and then lost to the [TypeError] of the log
    statement. *)
Theorem display_size_is_never_returned (s : State X) :
  (forall size,
     outcome (getViewportSizeOrDisplaySize (PS:=PS) browser None s)
     = Resolved size
     <-> outcome (getViewportSize (PS:=PS) browser s) = Resolved size)
  /\ forall reason size x',
       outcome (getViewportSize (PS:=PS) browser s) = Rejected reason ->
       window_getSize browser (outside (final (getViewportSize (PS:=PS) browser s)))
       = (Resolved size, x') ->
       outcome (getViewportSizeOrDisplaySize (PS:=PS) browser None s)
       = Rejected "TypeError: String.format is not a function"
       /\ In WindowGetSize
            (emitted (getViewportSizeOrDisplaySize (PS:=PS) browser None s)).
Proof.
  split.
  - intros size. split.
    + unfold getViewportSizeOrDisplaySize.
      rewrite verbose_then.
      unfold catch, then2.
      destruct (getViewportSize browser s) as [[v|e|] s1 ev1]; cbn;
        try discriminate; [auto|].
      unfold then_, then2, call, invoke.
      destruct (window_getSize browser (outside s1)) as [[sz|r|] x']; cbn;
        discriminate.
    + intros H. unfold getViewportSizeOrDisplaySize.
      rewrite verbose_then. unfold catch, then2.
      destruct (getViewportSize browser s) as [o s1 ev1]. cbn in H |- *.
      subst o. reflexivity.
  - intros reason size x' H Hwin.
    unfold getViewportSizeOrDisplaySize.
    rewrite verbose_then.
    unfold catch, then2.
    destruct (getViewportSize browser s) as [o s1 ev1]. cbn in H, Hwin |- *.
    subst o. unfold then_, then2, call, invoke. rewrite Hwin. cbn.
    split; [reflexivity|]. right. apply in_or_app. right. cbn. auto.
Qed.

End Facts.
End ViewportFacts.

Module ViewportExamples.
Import Promise World EyesSeleniumUtils ViewportFacts.


Lemma matching_viewport_is_left_alone_witness :
  setViewportSize (PS:=unit) SizerExamples.stuckBrowser (mkSize 790 500)
    SizerExamples.blankPage
  = mkRun (Resolved tt) SizerExamples.blankPage
      (cons (LogVerbose "setViewportSize(" (cons 790 (cons 500 nil)))
         (cons (ExecuteScript JS_GET_VIEWPORT_SIZE)
            (cons (LogVerbose "Initial viewport size:" (cons 790 (cons 500 nil)))
               nil))).
Proof.
  apply (matching_viewport_is_left_alone (PS:=unit) SizerExamples.stuckBrowser
           (mkSize 790 500) SizerExamples.blankPage).
  reflexivity.
Defined.


Lemma measured_viewport_is_preferred_witness :
  getViewportSizeOrDisplaySize (PS:=unit) SizerExamples.stuckBrowser None
    SizerExamples.blankPage
  = mkRun (Resolved (mkSize 790 500)) SizerExamples.blankPage
      (cons (LogVerbose "getViewportSizeOrDisplaySize()" nil)
         (cons (ExecuteScript JS_GET_VIEWPORT_SIZE) nil)).
Proof.
  apply (measured_viewport_is_preferred (PS:=unit) SizerExamples.stuckBrowser
           None (mkSize 790 500) SizerExamples.blankPage).
  reflexivity.
Defined.

End ViewportExamples.

(** ** Facts about the capture orchestrator *)
Module CaptureFacts.
Import Promise World EyesSeleniumUtils PromiseFacts WorldFacts RunLogic.

(** The calls that belong to the tiling logic. *)
Definition isTiling {PS : Type} (e : Event PS) : bool :=
  match e with
  | GetSubRegions _ _ | StitchImage _ => true
  | _ => false
  end.

Ltac respects_side HQ :=
  match goal with
  | |- respects _ _ _ => idtac
  | |- forall _, respects _ _ _ => intros ?
  | |- _ => solve [auto | apply HQ; reflexivity]
  end.

Ltac respects_step HQ :=
  first
    [ apply respects_resolve; respects_side HQ
    | apply respects_reject; respects_side HQ
    | apply respects_call; respects_side HQ
    | apply respects_emit; respects_side HQ
    | apply respects_makePromise
    | apply respects_detached
    | apply respects_then; respects_side HQ
    | apply respects_then2; respects_side HQ
    | match goal with
      | |- respects _ _ (if ?b then _ else _) => destruct b
      | |- respects _ _ (match ?o with Some _ => _ | None => _ end) => destruct o
      | |- respects _ _ (match ?o with inl _ => _ | inr _ => _ end) => destruct o
      end ].

Section Facts.
Context {PS X Img : Type}.
Variable browser : WebDriver X.
Variable sdk : Sdk X PS Img.

Local Abbreviation P := (@World.P PS X).

Section Frames.
Variable Q : Event PS -> Prop.
Variable R : State X -> State X -> Prop.
Hypothesis R_refl : forall s, R s s.
Hypothesis R_trans : forall a b c, R a b -> R b c -> R a c.
Hypothesis R_outside : forall s x', R s (mkState (dom s) x').
Hypothesis HQ : forall e, isTiling e = false -> Q e.

Lemma respects_invoke_new (bytes : Buffer) :
  respects Q R
    (invoke (E:=Event PS) NewMutableImage
       (fun s : State X =>
          let (img, x') := newMutableImage sdk bytes (outside s) in
          (Resolved img, mkState (dom s) x'))).
Proof.
  intros s. unfold invoke.
  destruct (newMutableImage sdk bytes (outside s)) as [img x']; cbn.
  split; [repeat constructor; apply HQ; reflexivity|apply R_outside].
Qed.

Lemma respects_executeScript {A} (run : P A) ms :
  respects Q R run -> respects Q R (executeScript browser run ms).
Proof.
  intros Hrun. unfold executeScript.
  apply respects_then; auto. intros a.
  destruct ms as [ms|]; [destruct (ms =? 0)|]; repeat respects_step HQ.
Qed.

Lemma respects_getCurrentScrollPosition :
  respects Q R (getCurrentScrollPosition (PS:=PS) browser).
Proof.
  unfold getCurrentScrollPosition. apply respects_then; auto.
  - apply respects_executeScript. respects_step HQ.
  - intros a. respects_step HQ.
Qed.

Lemma respects_saveDebug flag path (img : Img) tag :
  respects Q R (saveDebug browser sdk flag path img tag).
Proof.
  unfold saveDebug, when. destruct flag; [|respects_step HQ].
  apply (respects_reading Q R
           (fun s0 => call (ImageSaveImage path (getTime browser (outside s0)) tag)
                        (imageSaveImage sdk img path
                           (getTime browser (outside s0)) tag))).
  intros s0. respects_step HQ.
Qed.

Lemma respects_captureViewport viewportSize entirePageSize pixelRatio
    rotationDegrees automaticRotation automaticRotationDegrees isLandscape
    waitBeforeScreenshots regionInScreenshot saveDebugScreenshots
    debugScreenshotsPath :
  respects Q R
    (_captureViewport browser sdk viewportSize entirePageSize pixelRatio
       rotationDegrees automaticRotation automaticRotationDegrees isLandscape
       waitBeforeScreenshots regionInScreenshot saveDebugScreenshots
       debugScreenshotsPath).
Proof.
  unfold _captureViewport, when.
  repeat first
    [ apply respects_invoke_new
    | apply respects_saveDebug
    | apply respects_getCurrentScrollPosition
    | respects_step HQ ].
Qed.

Lemma respects_processPart part imageObj (promise : P (list Part))
    viewportSize entirePageSize pixelRatio rotationDegrees automaticRotation
    automaticRotationDegrees isLandscape waitBeforeScreenshots
    regionInScreenshot saveDebugScreenshots debugScreenshotsPath :
  respects Q R promise ->
  respects Q R
    (_processPart browser sdk part imageObj promise viewportSize
       entirePageSize pixelRatio rotationDegrees automaticRotation
       automaticRotationDegrees isLandscape waitBeforeScreenshots
       regionInScreenshot saveDebugScreenshots debugScreenshotsPath).
Proof.
  intros Hp. unfold _processPart.
  apply respects_then; auto. intros parts.
  repeat first [ apply respects_captureViewport | respects_step HQ ].
Qed.

Lemma respects_measurePage viewportSize :
  respects Q R (measurePage (PS:=PS) sdk viewportSize).
Proof. unfold measurePage. repeat respects_step HQ. Qed.

Lemma respects_measurePixelRatio :
  respects Q R (measurePixelRatio (PS:=PS) browser).
Proof.
  unfold measurePixelRatio, getDevicePixelRatio.
  repeat first [ apply respects_executeScript | respects_step HQ ].
Qed.

Lemma respects_scrollToOrigin fullPage :
  respects Q R (scrollToOrigin (X:=X) sdk fullPage).
Proof. unfold scrollToOrigin. repeat respects_step HQ. Qed.

Lemma respects_locateRegion viewportSize rotationDegrees automaticRotation
    automaticRotationDegrees isLandscape waitBeforeScreenshots
    entirePageSize pixelRatio :
  respects Q R
    (locateRegion browser sdk viewportSize rotationDegrees automaticRotation
       automaticRotationDegrees isLandscape waitBeforeScreenshots
       entirePageSize pixelRatio).
Proof.
  unfold locateRegion.
  repeat first [ apply respects_captureViewport | respects_step HQ ].
Qed.

Lemma respects_captureFirst viewportSize rotationDegrees automaticRotation
    automaticRotationDegrees isLandscape waitBeforeScreenshots
    checkFrameOrElement saveDebugScreenshots debugScreenshotsPath
    entirePageSize pixelRatio regionInScreenshot :
  respects Q R
    (captureFirst browser sdk viewportSize rotationDegrees automaticRotation
       automaticRotationDegrees isLandscape waitBeforeScreenshots
       checkFrameOrElement saveDebugScreenshots debugScreenshotsPath
       entirePageSize pixelRatio regionInScreenshot).
Proof.
  unfold captureFirst.
  repeat first [ apply respects_captureViewport | respects_step HQ ].
Qed.

End Frames.

(** *** Runs without tiling *)
Section Quiet.

Definition notTiling (e : Event PS) : Prop := isTiling e = false.
Definition anyState (_ _ : State X) : Prop := True.

Definition quiet {A : Type} (p : P A) : Prop := respects notTiling anyState p.

Let any_refl : forall s : State X, anyState s s := fun _ => I.
Let any_trans : forall a b c : State X, anyState a b -> anyState b c -> anyState a c
  := fun _ _ _ _ _ => I.
Let any_outside : forall (s : State X) x', anyState s (mkState (dom s) x')
  := fun _ _ => I.
Let HQ : forall e : Event PS, isTiling e = false -> notTiling e := fun _ H => H.

Lemma quiet_executeOverflowScript script get set v :
  isTiling (PS:=PS) (ExecuteScript script) = false ->
  quiet (executeOverflowScript (PS:=PS) browser script get set v).
Proof.
  intros Hs s. unfold executeOverflowScript.
  destruct (script_deliver browser script (outside s)) as [[[]|e|] x']; cbn;
    (split; [repeat constructor; exact Hs|exact I]).
Qed.

Lemma quiet_setOverflow v : quiet (setOverflow (PS:=PS) browser v).
Proof.
  unfold setOverflow. apply respects_executeScript; auto.
  apply quiet_executeOverflowScript. reflexivity.
Qed.

Lemma quiet_setBodyOverflow v : quiet (setBodyOverflow (PS:=PS) browser v).
Proof.
  unfold setBodyOverflow. apply respects_executeScript; auto.
  apply quiet_executeOverflowScript. reflexivity.
Qed.

Lemma quiet_hideScrollbarsStep hideScrollbars useCssTransition :
  quiet (hideScrollbarsStep (PS:=PS) browser hideScrollbars useCssTransition).
Proof.
  unfold quiet, hideScrollbarsStep.
  repeat first
    [ apply quiet_setOverflow | apply quiet_setBodyOverflow
    | apply respects_executeScript; [solve [auto]..|]
    | apply (respects_reading notTiling anyState
               (fun s0 => call (ExecuteScript JS_GET_IS_BODY_OVERFLOW_HIDDEN)
                            (script_isBodyOverflowHidden browser (dom s0))));
      intros ?
    | respects_step HQ ].
Qed.

Section Run.
Variable viewportSize : Size.
Variable fullPage : bool.
Variable hideScrollbars : option bool.
Variable useCssTransition : bool.
Variable rotationDegrees : Z.
Variable automaticRotation : bool.
Variable automaticRotationDegrees : Z.
Variable isLandscape : bool.
Variable waitBeforeScreenshots : Z.
Variable checkFrameOrElement : bool.
Variable saveDebugScreenshots : bool.
Variable debugScreenshotsPath : string.

Local Abbreviation captureOrigin' :=
  (captureOrigin browser sdk viewportSize fullPage hideScrollbars
     useCssTransition rotationDegrees automaticRotation
     automaticRotationDegrees isLandscape waitBeforeScreenshots
     checkFrameOrElement saveDebugScreenshots debugScreenshotsPath).
Local Abbreviation tileAndStitch' :=
  (tileAndStitch browser sdk viewportSize fullPage rotationDegrees
     automaticRotation automaticRotationDegrees isLandscape
     waitBeforeScreenshots checkFrameOrElement saveDebugScreenshots
     debugScreenshotsPath).
Local Abbreviation restore' :=
  (restore browser sdk fullPage hideScrollbars useCssTransition
     checkFrameOrElement).
Local Abbreviation getScreenshot' :=
  (getScreenshot browser sdk viewportSize fullPage hideScrollbars
     useCssTransition rotationDegrees automaticRotation
     automaticRotationDegrees isLandscape waitBeforeScreenshots
     checkFrameOrElement saveDebugScreenshots debugScreenshotsPath).

Lemma quiet_captureOrigin : quiet captureOrigin'.
Proof.
  unfold quiet, captureOrigin.
  repeat first
    [ apply respects_measurePage; respects_side HQ
    | apply respects_measurePixelRatio; respects_side HQ
    | apply quiet_hideScrollbarsStep
    | apply respects_scrollToOrigin; respects_side HQ
    | apply respects_locateRegion; respects_side HQ
    | apply respects_captureFirst; respects_side HQ
    | respects_step HQ ].
Qed.

Lemma quiet_restore c (img : Img) : quiet (restore' c img).
Proof.
  unfold quiet, restore, when.
  repeat first
    [ apply quiet_setOverflow | apply quiet_setBodyOverflow
    | respects_step HQ ].
Qed.

Lemma restore_value c (img : Img) s :
  ensures (restore' c img) s (fun a _ _ => a = img).
Proof.
  unfold restore.
  repeat (apply ensures_then_value; intros).
  apply ensures_resolve. reflexivity.
Qed.

(** The single capture suffices: the caller asked neither for the full page
    nor for a frame or element, or the capture covers the entire page. *)
Definition singleCaptureSuffices (c : Captured (PS:=PS) (Img:=Img)) : Prop :=
  (fullPage = false /\ checkFrameOrElement = false)
  \/ (width (entirePageSize c) <= objWidth (imageObject c)
      /\ height (entirePageSize c) <= objHeight (imageObject c)).

Lemma tileAndStitch_skips c s :
  singleCaptureSuffices c ->
  tileAndStitch' c s = mkRun (Resolved (screenshot c)) s [].
Proof.
  intros H. unfold tileAndStitch, makePromise.
  destruct H as [[-> ->]|[Hw Hh]]; [reflexivity|].
  destruct (negb fullPage && negb checkFrameOrElement); [reflexivity|].
  destruct (Z.geb_spec (objWidth (imageObject c)) (width (entirePageSize c)));
    [|lia].
  destruct (Z.geb_spec (objHeight (imageObject c)) (height (entirePageSize c)));
    [|lia].
  reflexivity.
Qed.

(** C8. Whenever the capture of the viewport covers the entire page, and
    whenever neither the full page nor a frame or element is asked for,
    [getScreenshot] makes no call of the tiling logic ([getSubRegions],
    [stitchImage]): after the capture it goes straight to the restoring
    steps, and the image it resolves to is the one captured.  A run that
    does not get as far as the capture makes no such call either. *)
Theorem single_capture_skips_tiling (s : State X) :
  let r := getScreenshot' s in
  (fullPage = false -> checkFrameOrElement = false ->
   Forall notTiling (emitted r))
  /\ (forall c,
        outcome (captureOrigin' s) = Resolved c ->
        singleCaptureSuffices c ->
        let s1 := final (captureOrigin' s) in
        tileAndStitch' c s1 = mkRun (Resolved (screenshot c)) s1 []
        /\ emitted r
           = emitted (captureOrigin' s) ++ emitted (restore' c (screenshot c) s1)
        /\ Forall notTiling (emitted r)
        /\ (forall img, outcome r = Resolved img -> img = screenshot c)).
Proof.
  intros r.
  assert (Hskip : forall c,
    outcome (captureOrigin' s) = Resolved c ->
    singleCaptureSuffices c ->
    let s1 := final (captureOrigin' s) in
    tileAndStitch' c s1 = mkRun (Resolved (screenshot c)) s1 []
    /\ emitted r
       = emitted (captureOrigin' s) ++ emitted (restore' c (screenshot c) s1)
    /\ Forall notTiling (emitted r)
    /\ (forall img, outcome r = Resolved img -> img = screenshot c)).
  { intros c Hc Hs s1.
    pose proof (tileAndStitch_skips c s1 Hs) as Ht.
    assert (Hr : r = mkRun (outcome (restore' c (screenshot c) s1))
                       (final (restore' c (screenshot c) s1))
                       (emitted (captureOrigin' s)
                        ++ emitted (restore' c (screenshot c) s1))).
    { subst r. unfold getScreenshot. rewrite (then_resolved _ _ _ _ Hc).
      fold s1. rewrite (then_resolved _ _ s1 (screenshot c));
        rewrite Ht; reflexivity. }
    split; [exact Ht|]. rewrite Hr. cbn [outcome final emitted].
    split; [reflexivity|]. split.
    - apply Forall_app. split.
      + apply quiet_captureOrigin.
      + apply quiet_restore.
    - intros img Himg.
      exact (ensures_elim _ _ _ _ (restore_value c (screenshot c) s1) Himg). }
  split; [|exact Hskip].
  intros Hf He.
  destruct (outcome (captureOrigin' s)) as [c| |] eqn:Hc.
  - apply (Hskip c eq_refl). left. split; assumption.
  - assert (E : emitted r = emitted (captureOrigin' s)).
    { apply then_unresolved. intros a. rewrite Hc. discriminate. }
    rewrite E. apply quiet_captureOrigin.
  - assert (E : emitted r = emitted (captureOrigin' s)).
    { apply then_unresolved. intros a. rewrite Hc. discriminate. }
    rewrite E. apply quiet_captureOrigin.
Qed.

End Run.
End Quiet.

(** *** Scrolling to a tile and to the origin *)
Section Scrolling.
Variable viewportSize entirePageSize : Size.
Variable pixelRatio : Q.
Variable rotationDegrees : Z.
Variable automaticRotation : bool.
Variable automaticRotationDegrees : Z.
Variable isLandscape : bool.
Variable waitBeforeScreenshots : Z.
Variable regionInScreenshot : option Rect.
Variable saveDebugScreenshots : bool.
Variable debugScreenshotsPath : string.

(** The capture of one tile: the viewport, then its encoded bytes. *)
Definition captureTile : P ImageObject :=
  partImage <- _captureViewport browser sdk viewportSize entirePageSize
                 pixelRatio rotationDegrees automaticRotation
                 automaticRotationDegrees isLandscape waitBeforeScreenshots
                 regionInScreenshot saveDebugScreenshots debugScreenshotsPath ;;
  call ImageAsObject (imageAsObject sdk partImage).

Local Abbreviation processPart' part imageObj parts :=
  (_processPart browser sdk part imageObj (resolve parts) viewportSize
     entirePageSize pixelRatio rotationDegrees automaticRotation
     automaticRotationDegrees isLandscape waitBeforeScreenshots
     regionInScreenshot saveDebugScreenshots debugScreenshotsPath).

Definition recorded (partObj : ImageObject) (at_ : Point) : Part :=
  mkPart (imageBuffer partObj)
         (mkSize (objWidth partObj) (objHeight partObj))
         (mkPoint (x at_) (y at_)).

Lemma processPart_records_achieved part imageObj parts s x1 achieved x2 partObj :
  (left part =? 0) && (top part =? 0) = false ->
  setPosition sdk (mkPoint (left part) (top part)) (outside s)
  = (Resolved tt, x1) ->
  getCurrentPosition sdk x1 = (Resolved achieved, x2) ->
  outcome (captureTile (mkState (dom s) x2)) = Resolved partObj ->
  outcome (processPart' part imageObj parts s)
  = Resolved (push parts (recorded partObj achieved)).
Proof.
  intros Hpart Hset Hget Hcap.
  unfold _processPart.
  rewrite (then_resolved (resolve parts) _ s parts eq_refl).
  cbn [outcome final emitted resolve]. rewrite outcome_makePromise, Hpart.
  rewrite (then_call_resolved _ _ _ s _ _ Hset). cbn [outcome final emitted].
  rewrite (then_call_resolved _ _ _ (mkState (dom s) x1) _ _ Hget).
  cbn [outcome final emitted dom].
  unfold captureTile in Hcap.
  destruct (outcome (_captureViewport browser sdk viewportSize entirePageSize
              pixelRatio rotationDegrees automaticRotation
              automaticRotationDegrees isLandscape waitBeforeScreenshots
              regionInScreenshot saveDebugScreenshots debugScreenshotsPath
              (mkState (dom s) x2))) as [img|e|] eqn:Himg.
  - rewrite (then_resolved _ _ _ img Himg).
    rewrite (then_resolved _ (fun partImage =>
               call ImageAsObject (imageAsObject sdk partImage)) _ img Himg)
      in Hcap.
    cbn [outcome final emitted] in Hcap |- *.
    rewrite (then_resolved _ _ _ partObj Hcap). reflexivity.
  - exfalso. destruct (then_unresolved _ (fun partImage =>
               call ImageAsObject (imageAsObject sdk partImage))
               (mkState (dom s) x2)
               ltac:(intros a; rewrite Himg; discriminate)) as [_ H].
    exact (H _ Hcap).
  - exfalso. destruct (then_unresolved _ (fun partImage =>
               call ImageAsObject (imageAsObject sdk partImage))
               (mkState (dom s) x2)
               ltac:(intros a; rewrite Himg; discriminate)) as [_ H].
    exact (H _ Hcap).
Qed.

Lemma scrollToOrigin_rejects s state x1 x2 location x3 :
  getState sdk (outside s) = (Resolved state, x1) ->
  setPosition sdk (mkPoint 0 0) x1 = (Resolved tt, x2) ->
  getCurrentPosition sdk x2 = (Resolved location, x3) ->
  x location <> 0 \/ y location <> 0 ->
  outcome (scrollToOrigin (X:=X) sdk true s)
  = Rejected "Could not scroll to the x/y corner of the screen".
Proof.
  intros Hst Hset Hget Hloc. unfold scrollToOrigin.
  rewrite (then_call_resolved _ _ _ s _ _ Hst). cbn [outcome final emitted].
  rewrite (then_call_resolved _ _ _ (mkState (dom s) x1) _ _ Hset).
  cbn [outcome final emitted dom].
  rewrite (then_call_resolved _ _ _ (mkState (dom s) x2) _ _ Hget).
  cbn [outcome final emitted dom].
  assert (Hb : negb (x location =? 0) || negb (y location =? 0) = true).
  { destruct (Z.eqb_spec (x location) 0); destruct (Z.eqb_spec (y location) 0);
      cbn; auto. lia. }
  rewrite Hb. reflexivity.
Qed.

(** C4, as the code has it.  For a tile other than the origin tile, when
    the position provider accepts the scroll request and reports the offset
    [achieved] (whatever it is, equal to the requested offset or not) and
    the capture of the tile succeeds, [_processPart] resolves and records
    the tile at [achieved].  The scroll to (0,0) at the start of a full-page
    capture is checked instead: when the provider reports any other offset,
    the step rejects with "Could not scroll to the x/y corner of the
    screen". *)
Theorem scroll_offsets_are_reread part imageObj parts s :
  (forall x1 achieved x2 partObj,
     (left part =? 0) && (top part =? 0) = false ->
     setPosition sdk (mkPoint (left part) (top part)) (outside s)
     = (Resolved tt, x1) ->
     getCurrentPosition sdk x1 = (Resolved achieved, x2) ->
     outcome (captureTile (mkState (dom s) x2)) = Resolved partObj ->
     outcome (processPart' part imageObj parts s)
     = Resolved (push parts (recorded partObj achieved)))
  /\ (forall state x1 x2 location x3,
        getState sdk (outside s) = (Resolved state, x1) ->
        setPosition sdk (mkPoint 0 0) x1 = (Resolved tt, x2) ->
        getCurrentPosition sdk x2 = (Resolved location, x3) ->
        x location <> 0 \/ y location <> 0 ->
        outcome (scrollToOrigin (X:=X) sdk true s)
        = Rejected "Could not scroll to the x/y corner of the screen").
Proof.
  split.
  - intros. eapply processPart_records_achieved; eassumption.
  - intros. eapply scrollToOrigin_rejects; eassumption.
Qed.

End Scrolling.

(** *** The overflow styles across a run *)
Section Overflow.

Definition anyEvent (_ : Event PS) : Prop := True.
Definition domKept (s s' : State X) : Prop := dom s' = dom s.

Definition keepsDom {A : Type} (p : P A) : Prop := respects anyEvent domKept p.

Let kept_refl : forall s : State X, domKept s s := fun _ => eq_refl.
Let kept_trans : forall a b c : State X, domKept a b -> domKept b c -> domKept a c.
Proof. unfold domKept. intros a b c H1 H2. congruence. Qed.
Let kept_outside : forall (s : State X) x', domKept s (mkState (dom s) x')
  := fun _ _ => eq_refl.
Let any_event : forall e : Event PS, anyEvent e := fun _ => I.
Let HQ : forall e : Event PS, isTiling e = false -> anyEvent e := fun _ _ => I.

Lemma keepsDom_fold (step : P (list Part) -> Rect -> P (list Part))
    (parts : list Rect) :
  (forall promise part, keepsDom promise -> keepsDom (step promise part)) ->
  forall promise, keepsDom promise -> keepsDom (fold_left step parts promise).
Proof.
  intros Hstep. induction parts as [|part parts IH]; intros promise Hp; cbn;
    auto.
Qed.

Definition assigned (browser : WebDriver X) (v : OverflowValue) (orig : string)
  : string :=
  match spliced v with
  | Some value => value
  | None => assignUndefined browser orig
  end.

Lemma setOverflow_ensures v s :
  ensures (setOverflow (PS:=PS) browser v) s
    (fun orig s' _ =>
       orig = documentOverflow (dom s)
       /\ dom s' = mkDom (assigned browser v (documentOverflow (dom s)))
                         (bodyOverflow (dom s))).
Proof.
  unfold ensures, setOverflow, executeScript, executeOverflowScript, assigned,
    then_, then2, call, invoke.
  destruct (script_deliver browser _ (outside s)) as [[[]|e|] x1]; cbn; auto.
  destruct (sleep browser 100 x1) as [[[]|e|] x2]; cbn; auto.
Qed.

Lemma setBodyOverflow_ensures v s :
  ensures (setBodyOverflow (PS:=PS) browser v) s
    (fun orig s' _ =>
       orig = bodyOverflow (dom s)
       /\ dom s' = mkDom (documentOverflow (dom s))
                         (assigned browser v (bodyOverflow (dom s)))).
Proof.
  unfold ensures, setBodyOverflow, executeScript, executeOverflowScript,
    assigned, then_, then2, call, invoke.
  destruct (script_deliver browser _ (outside s)) as [[[]|e|] x1]; cbn; auto.
  destruct (sleep browser 100 x1) as [[[]|e|] x2]; cbn; auto.
Qed.

Lemma hideScrollbarsStep_ensures hideScrollbars useCssTransition s :
  hideScrollbars' hideScrollbars useCssTransition = true ->
  ensures (hideScrollbarsStep (PS:=PS) browser hideScrollbars useCssTransition) s
    (fun ov s' _ =>
       fst ov = Str (documentOverflow (dom s))
       /\ ((snd ov = Undefined /\ bodyOverflow (dom s') = bodyOverflow (dom s))
           \/ snd ov = Str (bodyOverflow (dom s)))).
Proof.
  intros Hhide. unfold hideScrollbarsStep. rewrite Hhide.
  eapply ensures_then_later; [apply setOverflow_ensures|].
  cbn beta. intros orig s1 ev1 [-> Hdom1].
  destruct useCssTransition.
  - eapply ensures_then_later.
    + apply (respects_ensures anyEvent domKept). apply respects_executeScript; auto.
      apply (respects_reading anyEvent domKept
               (fun s0 => call (ExecuteScript JS_GET_IS_BODY_OVERFLOW_HIDDEN)
                            (script_isBodyOverflowHidden browser (dom s0)))).
      intros s0. apply respects_call; auto.
    + cbn beta. intros isHidden s2 ev2 [_ Hdom2]. unfold domKept in Hdom2.
      destruct isHidden.
      * eapply ensures_then_later; [apply setBodyOverflow_ensures|].
        cbn beta. intros origBody s3 ev3 [-> Hdom3].
        apply ensures_resolve. cbn. split; [reflexivity|]. right.
        rewrite Hdom2, Hdom1. reflexivity.
      * apply ensures_resolve. cbn. split; [reflexivity|]. left.
        split; [reflexivity|]. rewrite Hdom2, Hdom1. reflexivity.
  - apply ensures_resolve. cbn. split; [reflexivity|]. left.
    split; [reflexivity|]. rewrite Hdom1. reflexivity.
Qed.

Section Run.
Variable viewportSize : Size.
Variable fullPage : bool.
Variable hideScrollbars : option bool.
Variable useCssTransition : bool.
Variable rotationDegrees : Z.
Variable automaticRotation : bool.
Variable automaticRotationDegrees : Z.
Variable isLandscape : bool.
Variable waitBeforeScreenshots : Z.
Variable checkFrameOrElement : bool.
Variable saveDebugScreenshots : bool.
Variable debugScreenshotsPath : string.

Local Abbreviation captureOrigin' :=
  (captureOrigin browser sdk viewportSize fullPage hideScrollbars
     useCssTransition rotationDegrees automaticRotation
     automaticRotationDegrees isLandscape waitBeforeScreenshots
     checkFrameOrElement saveDebugScreenshots debugScreenshotsPath).
Local Abbreviation tileAndStitch' :=
  (tileAndStitch browser sdk viewportSize fullPage rotationDegrees
     automaticRotation automaticRotationDegrees isLandscape
     waitBeforeScreenshots checkFrameOrElement saveDebugScreenshots
     debugScreenshotsPath).
Local Abbreviation restore' :=
  (restore browser sdk fullPage hideScrollbars useCssTransition
     checkFrameOrElement).
Local Abbreviation getScreenshot' :=
  (getScreenshot browser sdk viewportSize fullPage hideScrollbars
     useCssTransition rotationDegrees automaticRotation
     automaticRotationDegrees isLandscape waitBeforeScreenshots
     checkFrameOrElement saveDebugScreenshots debugScreenshotsPath).

Lemma keepsDom_tileAndStitch c : keepsDom (tileAndStitch' c).
Proof.
  unfold keepsDom, tileAndStitch.
  repeat first
    [ apply respects_invoke_new; respects_side HQ
    | apply (keepsDom_fold
               (fun promise part =>
                  _processPart browser sdk part (imageObject c) promise
                    viewportSize (entirePageSize c) (pixelRatio c)
                    rotationDegrees automaticRotation automaticRotationDegrees
                    isLandscape waitBeforeScreenshots
                    (if checkFrameOrElement then regionInScreenshot c else None)
                    saveDebugScreenshots debugScreenshotsPath));
      [intros promise part Hp; apply respects_processPart; auto|]
    | respects_step HQ ].
Qed.

(** What the chain up to step #5 leaves: the overflow values it saved are
    those on entry, and a body it did not touch still has its style. *)
Definition savedOnEntry (s : State X) (c : Captured (PS:=PS) (Img:=Img))
    (s' : State X) : Prop :=
  originalOverflow c = Str (documentOverflow (dom s))
  /\ ((originalBodyOverflow c = Undefined
       /\ bodyOverflow (dom s') = bodyOverflow (dom s))
      \/ originalBodyOverflow c = Str (bodyOverflow (dom s)))
  /\ (fullPage = true -> exists state, originalPosition c = Some state).

Lemma captureOrigin_ensures s :
  hideScrollbars' hideScrollbars useCssTransition = true ->
  ensures captureOrigin' s (fun c s' _ => savedOnEntry s c s').
Proof.
  intros Hhide. unfold captureOrigin.
  eapply ensures_then_later;
    [apply (respects_ensures anyEvent domKept);
     apply respects_measurePage; auto|].
  cbn beta. intros page s1 ev1 [_ Hd1]. unfold domKept in Hd1.
  eapply ensures_then_later;
    [apply (respects_ensures anyEvent domKept);
     apply respects_measurePixelRatio; auto|].
  cbn beta. intros ratio s2 ev2 [_ Hd2]. unfold domKept in Hd2.
  eapply ensures_then_later; [apply hideScrollbarsStep_ensures; exact Hhide|].
  cbn beta. intros ov s3 ev3 [Hdoc Hbody].
  rewrite Hd2, Hd1 in Hdoc, Hbody.
  eapply ensures_then_later with
    (post1 := fun pos s4 _ =>
                domKept s3 s4 /\ (fullPage = true -> exists st, pos = Some st)).
  { unfold scrollToOrigin. destruct fullPage.
    - apply ensures_then. apply ensures_call. intros st x1 _.
      apply ensures_then. apply ensures_call. intros [] x2 _.
      apply ensures_then. apply ensures_call. intros loc x3 _.
      destruct (negb (x loc =? 0) || negb (y loc =? 0));
        [apply ensures_reject|].
      apply ensures_resolve. split; [reflexivity|eauto].
    - apply ensures_resolve. split; [reflexivity|discriminate]. }
  cbn beta. intros pos s4 ev4 [Hd4 Hpos]. unfold domKept in Hd4.
  eapply ensures_then_later;
    [apply (respects_ensures anyEvent domKept);
     apply respects_locateRegion; auto|].
  cbn beta. intros region s5 ev5 [_ Hd5]. unfold domKept in Hd5.
  eapply ensures_then_later;
    [apply (respects_ensures anyEvent domKept);
     apply respects_captureFirst; auto|].
  cbn beta. intros first s6 ev6 [_ Hd6]. unfold domKept in Hd6.
  apply ensures_resolve. unfold savedOnEntry. cbn.
  split; [exact Hdoc|]. split; [|exact Hpos].
  destruct Hbody as [[Hu Hb]|Hs]; [left|right; exact Hs].
  split; [exact Hu|]. rewrite Hd6, Hd5, Hd4. exact Hb.
Qed.

Lemma restore_ensures c (img : Img) s :
  hideScrollbars' hideScrollbars useCssTransition = true ->
  ensures (restore' c img) s
    (fun _ s' ev =>
       documentOverflow (dom s')
       = assigned browser (originalOverflow c) (documentOverflow (dom s))
       /\ bodyOverflow (dom s')
          = (if truthy (originalBodyOverflow c)
             then assigned browser (originalBodyOverflow c) (bodyOverflow (dom s))
             else bodyOverflow (dom s))
       /\ (fullPage = true -> In (RestoreState (originalPosition c)) ev)).
Proof.
  intros Hhide. unfold restore. rewrite Hhide.
  eapply ensures_then_later with
    (post1 := fun _ s1 _ =>
       dom s1 = mkDom (assigned browser (originalOverflow c)
                         (documentOverflow (dom s)))
                      (bodyOverflow (dom s))).
  { eapply ensures_then_later; [apply setOverflow_ensures|].
    cbn beta. intros orig s1 ev1 [_ Hd]. apply ensures_resolve. exact Hd. }
  cbn beta. intros _ s1 ev1 Hd1.
  eapply ensures_then_later with
    (post1 := fun _ s2 _ =>
       dom s2 = mkDom (documentOverflow (dom s1))
                  (if truthy (originalBodyOverflow c)
                   then assigned browser (originalBodyOverflow c)
                          (bodyOverflow (dom s1))
                   else bodyOverflow (dom s1))).
  { destruct (truthy (originalBodyOverflow c)).
    - eapply ensures_then_later; [apply setBodyOverflow_ensures|].
      cbn beta. intros orig s2 ev2 [_ Hd]. apply ensures_resolve. exact Hd.
    - apply ensures_resolve. destruct (dom s1); reflexivity. }
  cbn beta. intros _ s2 ev2 Hd2.
  eapply ensures_then_later with
    (post1 := fun _ s3 ev3 =>
       dom s3 = dom s2
       /\ (fullPage = true -> In (RestoreState (originalPosition c)) ev3)).
  { unfold when. destruct fullPage.
    - apply ensures_call. intros [] x' _. split; [reflexivity|].
      intros _. now left.
    - apply ensures_resolve. split; [reflexivity|discriminate]. }
  cbn beta. intros _ s3 ev3 [Hd3 Hev3].
  eapply ensures_then_later with (post1 := fun _ s4 _ => dom s4 = dom s3).
  { destruct (regionInScreenshot c) as [region|];
      [|apply ensures_resolve; reflexivity].
    unfold when. destruct (negb checkFrameOrElement);
      [|apply ensures_resolve; reflexivity].
    apply ensures_call. intros [] x' _. reflexivity. }
  cbn beta. intros _ s4 ev4 Hd4.
  apply ensures_resolve.
  rewrite Hd4, Hd3, Hd2, Hd1. cbn.
  split; [reflexivity|]. split; [reflexivity|].
  intros Hf. specialize (Hev3 Hf).
  apply in_or_app. right. apply in_or_app. right. apply in_or_app. left.
  exact Hev3.
Qed.

(** *** Runs that do not get to the restoring steps *)

Definition isRestore (e : Event PS) : bool :=
  match e with RestoreState _ => true | _ => false end.

(** A call other than [restoreState]. *)
Definition notRestore (e : Event PS) : Prop := isRestore e = false.

Definition unrestoring {A : Type} (p : P A) : Prop :=
  respects notRestore anyState p.

Let any_refl : forall s : State X, anyState s s := fun _ => I.
Let any_trans :
  forall a b c : State X, anyState a b -> anyState b c -> anyState a c
  := fun _ _ _ _ _ => I.
Let any_outside : forall (s : State X) x', anyState s (mkState (dom s) x')
  := fun _ _ => I.
Let HN : forall e : Event PS, isRestore e = false -> notRestore e
  := fun _ H => H.

Lemma unrestoring_invoke_new (bytes : Buffer) :
  unrestoring (invoke (E:=Event PS) NewMutableImage
                 (fun s : State X =>
                    let (img, x') := newMutableImage sdk bytes (outside s) in
                    (Resolved img, mkState (dom s) x'))).
Proof.
  intros s0. unfold invoke.
  destruct (newMutableImage sdk bytes (outside s0)) as [img x']; cbn.
  split; [|exact I]. constructor; [reflexivity|constructor].
Qed.

Lemma unrestoring_executeScript {A} (run : P A) ms :
  unrestoring run -> unrestoring (executeScript browser run ms).
Proof.
  intros Hrun. unfold unrestoring, executeScript.
  apply respects_then; auto. intros a.
  destruct ms as [ms|]; [destruct (ms =? 0)|]; repeat respects_step HN.
Qed.

Lemma unrestoring_saveDebug flag path (img : Img) tag :
  unrestoring (saveDebug browser sdk flag path img tag).
Proof.
  unfold unrestoring, saveDebug, when. destruct flag; [|respects_step HN].
  apply (respects_reading notRestore anyState
           (fun s0 => call (ImageSaveImage path (getTime browser (outside s0)) tag)
                        (imageSaveImage sdk img path
                           (getTime browser (outside s0)) tag))).
  intros s0. respects_step HN.
Qed.

Lemma unrestoring_captureViewport entirePageSize pixelRatio regionInScreenshot
    saveDebug path :
  unrestoring
    (_captureViewport browser sdk viewportSize entirePageSize pixelRatio
       rotationDegrees automaticRotation automaticRotationDegrees isLandscape
       waitBeforeScreenshots regionInScreenshot saveDebug path).
Proof.
  unfold unrestoring, _captureViewport, getCurrentScrollPosition, when.
  repeat first
    [ apply unrestoring_invoke_new
    | apply unrestoring_saveDebug
    | apply unrestoring_executeScript
    | respects_step HN ].
Qed.

Lemma unrestoring_executeOverflowScript script get set v :
  unrestoring (executeOverflowScript (PS:=PS) browser script get set v).
Proof.
  intros s0. unfold executeOverflowScript.
  destruct (script_deliver browser script (outside s0)) as [[[]|e|] x']; cbn;
    (split; [repeat constructor|exact I]).
Qed.

Lemma unrestoring_hideScrollbarsStep :
  unrestoring
    (hideScrollbarsStep (PS:=PS) browser hideScrollbars useCssTransition).
Proof.
  unfold unrestoring, hideScrollbarsStep, setOverflow, setBodyOverflow.
  repeat first
    [ apply unrestoring_executeOverflowScript
    | apply unrestoring_executeScript
    | apply (respects_reading notRestore anyState
               (fun s0 => call (ExecuteScript JS_GET_IS_BODY_OVERFLOW_HIDDEN)
                            (script_isBodyOverflowHidden browser (dom s0))));
      intros ?
    | respects_step HN ].
Qed.

Lemma unrestoring_captureOrigin : unrestoring captureOrigin'.
Proof.
  unfold unrestoring, captureOrigin, measurePage, measurePixelRatio,
    getDevicePixelRatio, scrollToOrigin, locateRegion, captureFirst.
  repeat first
    [ apply unrestoring_hideScrollbarsStep
    | apply unrestoring_captureViewport
    | apply unrestoring_executeScript
    | respects_step HN ].
Qed.

Lemma unrestoring_fold (step : P (list Part) -> Rect -> P (list Part))
    (parts : list Rect) :
  (forall promise part, unrestoring promise -> unrestoring (step promise part)) ->
  forall promise, unrestoring promise -> unrestoring (fold_left step parts promise).
Proof.
  intros Hstep. induction parts as [|part parts IH]; intros promise Hp; cbn;
    auto.
Qed.

Lemma unrestoring_tileAndStitch c : unrestoring (tileAndStitch' c).
Proof.
  unfold unrestoring, tileAndStitch.
  repeat first
    [ apply unrestoring_invoke_new
    | apply (unrestoring_fold
               (fun promise part =>
                  _processPart browser sdk part (imageObject c) promise
                    viewportSize (entirePageSize c) (pixelRatio c)
                    rotationDegrees automaticRotation automaticRotationDegrees
                    isLandscape waitBeforeScreenshots
                    (if checkFrameOrElement then regionInScreenshot c else None)
                    saveDebugScreenshots debugScreenshotsPath));
      [intros promise part Hp; unfold unrestoring, _processPart;
       repeat first [ exact Hp | apply unrestoring_captureViewport
                    | respects_step HN ]|]
    | respects_step HN ].
Qed.

(** The chain up to step #3, and the chain from step #4 to step #5. *)
Definition hidingSteps : P (Size * Q * (OverflowValue * OverflowValue)) :=
  entirePageSize <- measurePage (PS:=PS) sdk viewportSize ;;
  pixelRatio <- measurePixelRatio browser ;;
  overflows <- hideScrollbarsStep browser hideScrollbars useCssTransition ;;
  resolve (entirePageSize, pixelRatio, overflows).

Definition afterHiding (v : Size * Q * (OverflowValue * OverflowValue))
  : P (Captured (PS:=PS) (Img:=Img)) :=
  let entirePageSize := fst (fst v) in
  let pixelRatio := snd (fst v) in
  let overflows := snd v in
  originalPosition <- scrollToOrigin sdk fullPage ;;
  regionInScreenshot <-
    locateRegion browser sdk viewportSize rotationDegrees automaticRotation
      automaticRotationDegrees isLandscape waitBeforeScreenshots
      entirePageSize pixelRatio ;;
  first <-
    captureFirst browser sdk viewportSize rotationDegrees automaticRotation
      automaticRotationDegrees isLandscape waitBeforeScreenshots
      checkFrameOrElement saveDebugScreenshots debugScreenshotsPath
      entirePageSize pixelRatio regionInScreenshot ;;
  resolve (mkCaptured originalPosition (fst overflows) (snd overflows)
             entirePageSize regionInScreenshot pixelRatio (snd first) (fst first)).

(** The chain up to step #5 is the one followed by the other. *)
Lemma captureOrigin_steps (s : State X) :
  captureOrigin' s = (v <- hidingSteps ;; afterHiding v) s.
Proof.
  unfold captureOrigin, hidingSteps, afterHiding.
  rewrite !then_run.
  destruct (measurePage sdk viewportSize s) as [[e|r|] s1 ev1];
    cbn [outcome final emitted]; rewrite ?then_run;
    cbn [outcome final emitted]; rewrite ?app_nil_r; try reflexivity.
  destruct (measurePixelRatio browser s1) as [[q|r|] s2 ev2];
    cbn [outcome final emitted]; rewrite ?then_run;
    cbn [outcome final emitted]; rewrite ?app_nil_r; try reflexivity.
  destruct (hideScrollbarsStep browser hideScrollbars useCssTransition s2)
    as [[o|r|] s3 ev3];
    cbn [outcome final emitted resolve fst snd]; rewrite ?app_nil_r;
    try reflexivity.
  rewrite !app_assoc. reflexivity.
Qed.

Lemma hideScrollbarsStep_hides (s : State X) :
  hideScrollbars' hideScrollbars useCssTransition = true ->
  ensures (hideScrollbarsStep (PS:=PS) browser hideScrollbars useCssTransition) s
    (fun _ s' _ => documentOverflow (dom s') = "hidden").
Proof.
  intros Hhide. unfold hideScrollbarsStep. rewrite Hhide.
  eapply ensures_then_later; [apply setOverflow_ensures|].
  cbn beta. intros orig s1 ev1 [_ Hdom1].
  assert (Hh : documentOverflow (dom s1) = "hidden") by (rewrite Hdom1; reflexivity).
  destruct useCssTransition; [|apply ensures_resolve; exact Hh].
  eapply ensures_then_later.
  - apply (respects_ensures anyEvent domKept). apply respects_executeScript; auto.
    apply (respects_reading anyEvent domKept
             (fun s0 => call (ExecuteScript JS_GET_IS_BODY_OVERFLOW_HIDDEN)
                          (script_isBodyOverflowHidden browser (dom s0)))).
    intros s0. apply respects_call; auto.
  - cbn beta. intros isHidden s2 ev2 [_ Hdom2]. unfold domKept in Hdom2.
    destruct isHidden; [|apply ensures_resolve; rewrite Hdom2; exact Hh].
    eapply ensures_then_later; [apply setBodyOverflow_ensures|].
    cbn beta. intros origBody s3 ev3 [_ Hdom3].
    apply ensures_resolve. rewrite Hdom3, Hdom2. exact Hh.
Qed.

Lemma hidingSteps_hide (s : State X) :
  hideScrollbars' hideScrollbars useCssTransition = true ->
  ensures hidingSteps s (fun _ s' _ => documentOverflow (dom s') = "hidden").
Proof.
  intros Hhide. unfold hidingSteps.
  apply ensures_then. unfold ensures at 1.
  destruct (outcome (measurePage sdk viewportSize s)); [|exact I..].
  apply ensures_then. unfold ensures at 1.
  destruct (outcome (measurePixelRatio browser _)); [|exact I..].
  eapply ensures_then_later; [apply hideScrollbarsStep_hides; exact Hhide|].
  cbn beta. intros ov s3 ev3 Hh. apply ensures_resolve. exact Hh.
Qed.

Lemma keepsDom_afterHiding v : keepsDom (afterHiding v).
Proof.
  unfold keepsDom, afterHiding. cbn zeta.
  repeat first
    [ apply respects_scrollToOrigin; respects_side HQ
    | apply respects_locateRegion; respects_side HQ
    | apply respects_captureFirst; respects_side HQ
    | respects_step HQ ].
Qed.

(** Once step #3 has hidden the scrollbars, the chain up to step #5 leaves
    them hidden, however it ends. *)
Lemma captureOrigin_leaves_hidden (s : State X) v :
  hideScrollbars' hideScrollbars useCssTransition = true ->
  outcome (hidingSteps s) = Resolved v ->
  documentOverflow (dom (final (captureOrigin' s))) = "hidden".
Proof.
  intros Hhide Hv. rewrite captureOrigin_steps.
  rewrite (then_resolved _ _ _ _ Hv). cbn [final].
  rewrite (proj2 (keepsDom_afterHiding v (final (hidingSteps s)))).
  exact (ensures_elim _ _ _ _ (hidingSteps_hide s Hhide) Hv).
Qed.

(** The run gets to the restoring steps: the chain up to step #5 and the
    tiling both resolve. *)
Definition reachesRestoring (s : State X) : Prop :=
  exists c shot,
    outcome (captureOrigin' s) = Resolved c
    /\ outcome (tileAndStitch' c (final (captureOrigin' s))) = Resolved shot.

(** C3, as the code has it.  For every run of [getScreenshot] with the
    scrollbars to be hidden.  When the run completes (every step succeeds
    and the promise resolves): the overflow value saved at step #3 is the
    document's inline overflow style on entry, and that style is back when
    the run ends; the body's inline overflow style is back too when the run
    did not touch it or when its saved value is not the empty string; and
    for a full-page capture [restoreState] is called with the state that
    [getState] resolved to at step #4.  When step #3 has hidden the
    scrollbars and a later step up to the stitching rejects or never
    settles: the run does not resolve, the document's inline overflow style
    is left at [hidden], and [restoreState] is not called. *)
Theorem overflow_restored_only_when_capture_completes (s : State X) :
  hideScrollbars' hideScrollbars useCssTransition = true ->
  (forall img,
     outcome (getScreenshot' s) = Resolved img ->
     exists c,
       outcome (captureOrigin' s) = Resolved c
       /\ originalOverflow c = Str (documentOverflow (dom s))
       /\ documentOverflow (dom (final (getScreenshot' s)))
          = documentOverflow (dom s)
       /\ (originalBodyOverflow c = Undefined
           \/ originalBodyOverflow c = Str (bodyOverflow (dom s)))
       /\ (originalBodyOverflow c = Undefined \/ bodyOverflow (dom s) <> "" ->
           bodyOverflow (dom (final (getScreenshot' s))) = bodyOverflow (dom s))
       /\ (fullPage = true ->
           exists state, originalPosition c = Some state
                         /\ In (RestoreState (Some state))
                               (emitted (getScreenshot' s))))
  /\ (forall v,
        outcome (hidingSteps s) = Resolved v ->
        ~ reachesRestoring s ->
        (forall img, outcome (getScreenshot' s) <> Resolved img)
        /\ documentOverflow (dom (final (getScreenshot' s))) = "hidden"
        /\ Forall notRestore (emitted (getScreenshot' s))).
Proof.
  intros Hhide. split.
  - intros img Hres. unfold getScreenshot in *.
    destruct (then_resolved_inv _ _ _ _ Hres) as [c Hc].
    exists c. split; [exact Hc|].
    rewrite (then_resolved _ _ _ _ Hc) in Hres |- *.
    cbn [outcome final emitted] in Hres |- *.
    set (s1 := final (captureOrigin' s)) in *.
    destruct (then_resolved_inv _ _ _ _ Hres) as [shot Hshot].
    rewrite (then_resolved _ _ _ _ Hshot) in Hres |- *.
    cbn [outcome final emitted] in Hres |- *.
    set (s2 := final (tileAndStitch' c s1)) in *.
    pose proof (ensures_elim _ _ _ _ (captureOrigin_ensures s Hhide) Hc)
      as (Hdoc & Hbody & Hpos).
    fold s1 in Hbody.
    assert (Hd2 : dom s2 = dom s1) by apply (keepsDom_tileAndStitch c s1).
    pose proof (ensures_elim _ _ _ _ (restore_ensures c shot s2 Hhide) Hres)
      as (Hrdoc & Hrbody & Hrpos).
    rewrite Hd2 in Hrdoc, Hrbody.
    split; [exact Hdoc|]. split.
    { rewrite Hrdoc, Hdoc. reflexivity. }
    split.
    { destruct Hbody as [[Hu _]|Hs]; auto. }
    split.
    { intros Hcase. rewrite Hrbody.
      destruct Hbody as [[Hu Hb]|Hs].
      - rewrite Hu. cbn. exact Hb.
      - rewrite Hs. cbn.
        destruct (String.eqb_spec (bodyOverflow (dom s)) "") as [He|Hne]; cbn.
        + destruct Hcase as [Hu|Hne]; [congruence|contradiction].
        + reflexivity. }
    intros Hf. destruct (Hpos Hf) as [state Hst]. exists state.
    split; [exact Hst|]. rewrite <- Hst.
    apply in_or_app. right. apply in_or_app. right. exact (Hrpos Hf).
  - intros v Hv Hnot.
    pose proof (captureOrigin_leaves_hidden s v Hhide Hv) as Hhidden.
    pose proof (proj1 (unrestoring_captureOrigin s)) as Hev1.
    unfold getScreenshot. rewrite then_run.
    destruct (outcome (captureOrigin' s)) as [c| |] eqn:Hc;
      cbn [outcome final emitted];
      [|split; [discriminate|split; assumption]..].
    rewrite then_run.
    pose proof (proj2 (keepsDom_tileAndStitch c (final (captureOrigin' s))))
      as Hd2.
    unfold domKept in Hd2.
    pose proof (proj1 (unrestoring_tileAndStitch c (final (captureOrigin' s))))
      as Hev2.
    destruct (outcome (tileAndStitch' c (final (captureOrigin' s))))
      as [shot| |] eqn:Hshot; cbn [outcome final emitted].
    + exfalso. apply Hnot. exists c, shot. rewrite Hc. auto.
    + split; [discriminate|]. rewrite Hd2.
      split; [exact Hhidden|]. apply Forall_app. auto.
    + split; [discriminate|]. rewrite Hd2.
      split; [exact Hhidden|]. apply Forall_app. auto.
Qed.

End Run.
End Overflow.
End Facts.
End CaptureFacts.

(** ** A page to run the orchestrator on *)
Module CaptureExamples.
Import Promise World EyesSeleniumUtils RunLogic CaptureFacts.

(** The outside world: where the page is scrolled to, the range of vertical
    offsets that the browser can reach, and whether screenshots can be
    taken. *)
Record Page : Type := mkPage {
  scrollAt : Point;
  minY : Z;
  maxY : Z;
  cameraWorks : bool
}.

Definition scrollTo (p : Point) (page : Page) : Page :=
  mkPage (mkPoint (x p) (Z.min (Z.max (y p) (minY page)) (maxY page)))
         (minY page) (maxY page) (cameraWorks page).

(** A driver for a 100x100 viewport; the body counts as hidden when a
    style sheet hides it, whatever its inline style. *)
Definition pageDriver (bodyHiddenBySheet : bool) : WebDriver Page :=
  mkWebDriver Page
    (fun _ _ page => (Resolved tt, page))
    (fun page => (Resolved (mkSize 120 200), page))
    (fun _ _ page => (Resolved tt, page))
    (fun page => (Resolved (Some 100, Some 100), page))
    (fun page => (Resolved (Some (x (scrollAt page)), Some (y (scrollAt page))), page))
    (fun page => (Resolved 1%Q, page))
    (fun d page =>
       (Resolved (bodyHiddenBySheet || String.eqb (bodyOverflow d) "hidden"), page))
    (fun _ page => (Resolved tt, page))
    (fun style => style)
    (fun page =>
       (if cameraWorks page then Resolved [] else Rejected "no screenshot", page))
    (fun _ page => (Resolved tt, page))
    (fun _ => 0).

Definition toRect (r : Region.t) : Rect :=
  mkRect (Region.getLeft r) (Region.getTop r)
         (Region.getWidth r) (Region.getHeight r).

(** A position provider that scrolls the page, images that are their own
    size, and the tiling of [Region] for [GeometryUtils.getSubRegions]. *)
Definition pageSdk (pageSize : Size) : Sdk Page Point Size :=
  mkSdk Page Point Size
    (fun page => (Resolved pageSize, page))
    (fun page => (Resolved (scrollAt page), page))
    (fun p page => (Resolved tt, scrollTo p page))
    (fun page => (Resolved (scrollAt page), page))
    (fun state page =>
       (Resolved tt,
        match state with
        | Some p => mkPage p (minY page) (maxY page) (cameraWorks page)
        | None => page
        end))
    (fun _ page => (mkSize 100 100, page))
    (fun _ _ _ _ page => (Resolved tt, page))
    (fun img page => (Resolved img, page))
    (fun _ _ page => (Resolved tt, page))
    (fun _ _ page => (Resolved tt, page))
    (fun _ _ page => (Resolved tt, page))
    (fun _ _ page => (Resolved tt, page))
    (fun img page => (Resolved (mkImageObject [] (width img) (height img)), page))
    (fun r _ => r)
    (fun c sz fixed =>
       match Region.getSubRegions
               (Region.mk (left c) (top c) (rectWidth c) (rectHeight c)
                          Region.SCREENSHOT_AS_IS)
               (RectangleSize.mk (width sz) (height sz)) fixed with
       | Ok tiles => inr (map toRect tiles)
       | _ => inl "IllegalArgument"
       end)
    (fun _ _ page => (Resolved [], page))
    None None None.

(** A page scrolled to (0,40), with overflow styles [scroll] and [""]. *)
Definition scrolledPage (lowest highest : Z) (camera : bool) : State Page :=
  mkState (mkDom "scroll" "")
          (mkPage (mkPoint 0 40) lowest highest camera).

(** A full-page capture with hidden scrollbars. *)
Definition fullPageShot (bodyHiddenBySheet : bool) (pageSize : Size)
    (s : State Page) : Run (Event Point) (State Page) Size :=
  getScreenshot (pageDriver bodyHiddenBySheet) (pageSdk pageSize)
    (mkSize 100 100) true (Some true) true 0 false 0 false 0 false false "" s.

(** A screenshot that fails in the middle of the pipeline leaves the
    document's overflow at [hidden] and the page scrolled to the origin:
    none of the restoring steps runs. *)
Lemma failed_capture_leaves_scrollbars_hidden :
  outcome (fullPageShot false (mkSize 100 250) (scrolledPage 0 150 false))
  = Rejected "no screenshot"
  /\ documentOverflow (dom (scrolledPage 0 150 false)) = "scroll"
  /\ documentOverflow
       (dom (final (fullPageShot false (mkSize 100 250)
                      (scrolledPage 0 150 false)))) = "hidden"
  /\ scrollAt (outside (scrolledPage 0 150 false)) = mkPoint 0 40
  /\ scrollAt
       (outside (final (fullPageShot false (mkSize 100 250)
                          (scrolledPage 0 150 false)))) = mkPoint 0 0
  /\ ~ In (RestoreState (Some (mkPoint 0 40)))
          (emitted (fullPageShot false (mkSize 100 250)
                      (scrolledPage 0 150 false))).
Proof.
  vm_compute. repeat split; try reflexivity.
  intros H. repeat (destruct H as [H|H]; [discriminate|]). exact H.
Qed.

(** A browser that cannot scroll above the offset 5 makes the full-page
    capture fail at its first scroll. *)
Lemma clamped_origin_scroll_is_fatal :
  outcome (fullPageShot false (mkSize 100 250) (scrolledPage 5 150 true))
  = Rejected "Could not scroll to the x/y corner of the screen".
Proof. vm_compute. reflexivity. Qed.

(** A body hidden by a style sheet, with an empty inline style: the run
    completes and leaves the inline style at [initial]. *)
Example body_overflow_left_at_initial :
  outcome (fullPageShot true (mkSize 100 250) (scrolledPage 0 150 true))
  = Resolved (mkSize 100 100)
  /\ bodyOverflow (dom (scrolledPage 0 150 true)) = ""
  /\ bodyOverflow
       (dom (final (fullPageShot true (mkSize 100 250)
                      (scrolledPage 0 150 true)))) = "initial".
Proof. vm_compute. repeat split; reflexivity. Qed.

(** The chain up to step #5 of the same capture. *)
Definition fullPageOrigin (pageSize : Size) (s : State Page)
  : Run (Event Point) (State Page) (Captured (PS:=Point) (Img:=Size)) :=
  captureOrigin (pageDriver false) (pageSdk pageSize)
    (mkSize 100 100) true (Some true) true 0 false 0 false 0 false false "" s.

(** A page scrolled to (0,40) whose body has the inline overflow style
    [auto] and is hidden by a style sheet. *)
Definition styledPage : State Page :=
  mkState (mkDom "scroll" "auto") (mkPage (mkPoint 0 40) 0 150 true).

(** On the styled page the capture completes: the body's style is saved,
    set to [initial] and put back, the document's style is put back, and
    the scroll state is restored.  On the page whose screenshots fail, the
    scrollbars are hidden at step #3, the run rejects at step #5, the
    document's style stays at [hidden] and the scroll state is not
    restored. *)
Lemma overflow_restored_only_when_capture_completes_witness :
  (outcome (fullPageShot true (mkSize 100 250) styledPage)
   = Resolved (mkSize 100 100)
   /\ In (ExecuteScript (JS_SET_BODY_OVERFLOW (Some "initial")))
         (emitted (fullPageShot true (mkSize 100 250) styledPage))
   /\ In (ExecuteScript (JS_SET_BODY_OVERFLOW (Some "auto")))
         (emitted (fullPageShot true (mkSize 100 250) styledPage))
   /\ exists c,
       originalOverflow (PS:=Point) (Img:=Size) c = Str "scroll"
       /\ originalBodyOverflow c = Str "auto"
       /\ documentOverflow
            (dom (final (fullPageShot true (mkSize 100 250) styledPage)))
          = "scroll"
       /\ bodyOverflow
            (dom (final (fullPageShot true (mkSize 100 250) styledPage)))
          = "auto"
       /\ exists state,
            originalPosition c = Some state
            /\ In (RestoreState (Some state))
                  (emitted (fullPageShot true (mkSize 100 250) styledPage)))
  /\ (outcome (fullPageShot false (mkSize 100 250) (scrolledPage 0 150 false))
      = Rejected "no screenshot"
      /\ documentOverflow (dom (scrolledPage 0 150 false)) = "scroll"
      /\ documentOverflow
           (dom (final (fullPageShot false (mkSize 100 250)
                          (scrolledPage 0 150 false)))) = "hidden"
      /\ Forall notRestore
           (emitted (fullPageShot false (mkSize 100 250)
                       (scrolledPage 0 150 false)))).
Proof.
  unfold fullPageShot. split.
  - destruct (overflow_restored_only_when_capture_completes (pageDriver true)
                (pageSdk (mkSize 100 250)) (mkSize 100 100) true (Some true)
                true 0 false 0 false 0 false false "" styledPage eq_refl)
      as [Hdone _].
    specialize (Hdone (mkSize 100 100) ltac:(vm_compute; reflexivity)).
    destruct Hdone as (c & Hc & Hdoc & Hback & Hbody & Hbodyback & Hpos).
    split; [vm_compute; reflexivity|].
    split; [vm_compute; repeat first [left; reflexivity | right]|].
    split; [vm_compute; repeat first [left; reflexivity | right]|].
    exists c. split; [exact Hdoc|].
    assert (Hsaved : originalBodyOverflow c = Str "auto").
    { vm_compute in Hc. injection Hc as <-. reflexivity. }
    split; [exact Hsaved|]. split; [exact Hback|].
    split; [apply Hbodyback; right; discriminate|].
    exact (Hpos eq_refl).
  - destruct (overflow_restored_only_when_capture_completes (pageDriver false)
                (pageSdk (mkSize 100 250)) (mkSize 100 100) true (Some true)
                true 0 false 0 false 0 false false ""
                (scrolledPage 0 150 false) eq_refl)
      as [_ Hfail].
    split; [vm_compute; reflexivity|]. split; [reflexivity|].
    apply (Hfail (mkSize 100 250, 1%Q, (Str "scroll", Undefined)));
      [vm_compute; reflexivity|].
    intros (c & shot & Hc & _). vm_compute in Hc. discriminate.
Defined.

(** The tile requested at (0,200) on a page that scrolls no further than
    150 is recorded at (0,150); the scroll to the origin of a page that
    scrolls no higher than 5 is rejected. *)
Lemma scroll_offsets_are_reread_witness :
  outcome
    (_processPart (pageDriver false) (pageSdk (mkSize 100 250))
       (mkRect 0 200 100 50) (mkImageObject [] 100 100) (resolve [])
       (mkSize 100 100) (mkSize 100 250) 1%Q 0 false 0 false 0 None false ""
       (scrolledPage 0 150 true))
  = Resolved [mkPart [] (mkSize 100 100) (mkPoint 0 150)]
  /\ outcome (scrollToOrigin (pageSdk (mkSize 100 250)) true
                (scrolledPage 5 150 true))
     = Rejected "Could not scroll to the x/y corner of the screen".
Proof.
  destruct (scroll_offsets_are_reread (pageDriver false)
              (pageSdk (mkSize 100 250)) (mkSize 100 100) (mkSize 100 250)
              1%Q 0 false 0 false 0 None false ""
              (mkRect 0 200 100 50) (mkImageObject [] 100 100) []
              (scrolledPage 0 150 true)) as [Htile _].
  destruct (scroll_offsets_are_reread (pageDriver false)
              (pageSdk (mkSize 100 250)) (mkSize 100 100) (mkSize 100 250)
              1%Q 0 false 0 false 0 None false ""
              (mkRect 0 200 100 50) (mkImageObject [] 100 100) []
              (scrolledPage 5 150 true)) as [_ Horigin].
  split.
  - apply (Htile (mkPage (mkPoint 0 150) 0 150 true) (mkPoint 0 150)
                 (mkPage (mkPoint 0 150) 0 150 true)
                 (mkImageObject [] 100 100));
      [reflexivity|reflexivity|reflexivity|vm_compute; reflexivity].
  - apply (Horigin (mkPoint 0 40) (mkPage (mkPoint 0 40) 5 150 true)
                   (mkPage (mkPoint 0 5) 5 150 true) (mkPoint 0 5)
                   (mkPage (mkPoint 0 5) 5 150 true));
      [reflexivity|reflexivity|reflexivity|right; cbn; lia].
Defined.

(** A page of the size of the viewport: one capture, no tiling. *)
Lemma single_capture_skips_tiling_witness :
  exists c,
    outcome (fullPageOrigin (mkSize 100 100) (scrolledPage 0 0 true))
    = Resolved c
    /\ singleCaptureSuffices true false c
    /\ Forall notTiling
         (emitted (fullPageShot false (mkSize 100 100) (scrolledPage 0 0 true)))
    /\ (forall img,
          outcome (fullPageShot false (mkSize 100 100) (scrolledPage 0 0 true))
          = Resolved img -> img = screenshot c).
Proof.
  destruct (single_capture_skips_tiling (pageDriver false)
              (pageSdk (mkSize 100 100)) (mkSize 100 100) true (Some true) true
              0 false 0 false 0 false false "" (scrolledPage 0 0 true))
    as [_ Hcover].
  eexists. split; [vm_compute; reflexivity|].
  assert (Hs : singleCaptureSuffices (PS:=Point) (Img:=Size) true false
                 (mkCaptured (Some (mkPoint 0 40)) (Str "scroll") Undefined
                    (mkSize 100 100) None 1%Q (mkImageObject [] 100 100)
                    (mkSize 100 100)))
    by (right; cbn; lia).
  split; [exact Hs|].
  destruct (Hcover _ ltac:(vm_compute; reflexivity) Hs) as (_ & _ & Hq & Hv).
  split; [exact Hq|exact Hv].
Defined.

End CaptureExamples.

(** ** Setting the viewport of a browser that does as it is told *)
Module HonestBrowser.
Import Promise World EyesSeleniumUtils PromiseFacts WorldFacts RunLogic
  SizerFacts ViewportFacts.

Section Facts.
Context {PS X : Type}.
Variable browser : WebDriver X.

Local Abbreviation P := (@World.P PS X).

(** The size of the window in a state of the world, and the constant
    difference between the window and its viewport. *)
Variable windowOf : X -> Size.
Variable frame : Size.

Definition viewportOf (x : X) : Size :=
  mkSize (width (windowOf x) - width frame) (height (windowOf x) - height frame).

(** The browser gives its window the size it is asked for and reports it;
    the viewport is the window less the frame; moving the window may fail
    but ends, and neither it nor a pause nor a measurement resizes the
    window. *)
Record honest : Prop := mkHonest {
  honest_setSize : forall w h x, exists x',
      window_setSize browser w h x = (Resolved tt, x')
      /\ windowOf x' = mkSize w h;
  honest_getSize : forall x, exists x',
      window_getSize browser x = (Resolved (windowOf x), x')
      /\ windowOf x' = windowOf x;
  honest_setPosition : forall px py x, exists o x',
      window_setPosition browser px py x = (o, x')
      /\ o <> Pending /\ windowOf x' = windowOf x;
  honest_sleep : forall ms x, exists x',
      sleep browser ms x = (Resolved tt, x') /\ windowOf x' = windowOf x;
  honest_viewport : forall x, exists x',
      script_getViewportSize browser x
      = (Resolved (Some (width (viewportOf x)), Some (height (viewportOf x))), x')
      /\ windowOf x' = windowOf x
}.

Hypothesis Hhonest : honest.

(** What a step leaves: the outcome, and a world with the given window and
    the inline styles of the start. *)
Definition leaves {A : Type} (r : Run (Event PS) (State X) A) (a : A)
    (window : Size) (d : Dom) (resizes : nat) : Prop :=
  outcome r = Resolved a /\ windowOf (outside (final r)) = window
  /\ dom (final r) = d /\ resizeCalls (emitted r) = resizes.

Lemma leaves_then {A B} (p : P A) (f : A -> P B) s a w1 n1 b w2 n2 d :
  leaves (p s) a w1 d n1 ->
  (forall s1, windowOf (outside s1) = w1 -> dom s1 = d ->
     leaves (f a s1) b w2 d n2) ->
  leaves (then_ p f s) b w2 d (n1 + n2).
Proof.
  intros (Ho & Hw & Hd & Hn) Hf.
  rewrite (then_resolved _ _ _ _ Ho).
  destruct (Hf (final (p s)) Hw Hd) as (Ho' & Hw' & Hd' & Hn').
  unfold leaves. cbn [outcome final emitted].
  rewrite resizeCalls_app, Hn, Hn'. auto.
Qed.

Lemma resizeCalls_cons (e : Event PS) (tr : list (Event PS)) :
  resizeCalls (e :: tr)
  = ((if isResize e then 1 else 0) + resizeCalls tr)%nat.
Proof. unfold resizeCalls. cbn. destruct (isResize e); reflexivity. Qed.

Lemma leaves_verbose message args (s : State X) :
  leaves (verbose (PS:=PS) message args s) tt (windowOf (outside s)) (dom s) 0.
Proof. repeat split. Qed.

Lemma leaves_resolve {A} (a : A) (s : State X) :
  leaves (resolve (E:=Event PS) a s) a (windowOf (outside s)) (dom s) 0.
Proof. repeat split. Qed.

Lemma getViewportSize_honest (s : State X) :
  leaves (getViewportSize (PS:=PS) browser s) (viewportOf (outside s))
    (windowOf (outside s)) (dom s) 0.
Proof.
  unfold getViewportSize. run_unfold.
  destruct (honest_viewport Hhonest (outside s)) as (x' & -> & Hw). cbn.
  repeat split; try assumption.
Qed.

Lemma _setBrowserSize_honest (requiredSize : Size) (retries : nat)
    (s : State X) :
  leaves (_setBrowserSize (PS:=PS) browser requiredSize retries s) tt
    requiredSize (dom s) 1.
Proof.
  rewrite _setBrowserSize_eq. run_unfold.
  destruct (honest_setSize Hhonest (width requiredSize) (height requiredSize)
              (outside s)) as (x1 & -> & Hw1). cbn.
  destruct (honest_sleep Hhonest 1000 x1) as (x2 & -> & Hw2). cbn.
  destruct (honest_getSize Hhonest x2) as (x3 & -> & Hw3). cbn.
  rewrite Hw2, Hw1. cbn. rewrite !Z.eqb_refl. cbn.
  unfold leaves. cbn. rewrite Hw3, Hw2, Hw1.
  destruct requiredSize; auto.
Qed.

Lemma setBrowserSize_honest (requiredSize : Size) (s : State X) :
  leaves (setBrowserSize (PS:=PS) browser requiredSize s) true
    requiredSize (dom s) 1.
Proof.
  unfold setBrowserSize, then2.
  destruct (_setBrowserSize_honest requiredSize 3 s) as (Ho & Hw & Hd & Hn).
  destruct (_setBrowserSize browser requiredSize 3 s) as [o s1 ev1].
  cbn in Ho, Hw, Hd, Hn. subst o. cbn.
  unfold leaves. cbn. rewrite app_nil_r. auto.
Qed.

Lemma setBrowserSizeByViewportSize_honest (requiredSize : Size) (s : State X) :
  leaves (setBrowserSizeByViewportSize (PS:=PS) browser
            (viewportOf (outside s)) requiredSize s) true
    (mkSize (width requiredSize + width frame)
            (height requiredSize + height frame)) (dom s) 1.
Proof.
  unfold setBrowserSizeByViewportSize.
  destruct (honest_getSize Hhonest (outside s)) as (x1 & Hget & Hw1).
  rewrite (then_call_resolved _ _ _ s _ _ Hget).
  rewrite verbose_then.
  destruct (setBrowserSize_honest
              (mkSize (width (windowOf (outside s))
                       + (width requiredSize - width (viewportOf (outside s))))
                      (height (windowOf (outside s))
                       + (height requiredSize - height (viewportOf (outside s)))))
              (mkState (dom s) x1)) as (Ho & Hw & Hd & Hn).
  unfold leaves. cbn [outcome final emitted].
  split; [exact Ho|]. split; [rewrite Hw; cbn; f_equal; lia|].
  split; [exact Hd|].
  rewrite !resizeCalls_cons, Hn. reflexivity.
Qed.

(** X21. For every browser that does as it is told, [setViewportSize] resolves,
    after at most one request to resize the window; the viewport then has
    the required size (the window has the required size plus the frame),
    and the inline styles are as they were. *)
Theorem honest_browser_gets_the_viewport (requiredSize : Size) (s : State X) :
  let r := setViewportSize (PS:=PS) browser requiredSize s in
  outcome r = Resolved tt
  /\ viewportOf (outside (final r)) = requiredSize
  /\ dom (final r) = dom s
  /\ (resizeCalls (emitted r) <= 1)%nat.
Proof.
  intros r. subst r.
  assert (Hview : forall s1, windowOf (outside s1)
                      = mkSize (width requiredSize + width frame)
                               (height requiredSize + height frame) ->
                    viewportOf (outside s1) = requiredSize).
  { intros s1 H. unfold viewportOf. rewrite H. cbn.
    destruct requiredSize; cbn; f_equal; lia. }
  destruct (getViewportSize_honest s) as (Ho & Hw & Hd & Hn).
  destruct (sameSize (viewportOf (outside s)) requiredSize) eqn:Hsame.
  - assert (E : viewportOf (outside s) = requiredSize).
    { unfold sameSize in Hsame. apply andb_true_iff in Hsame as [H1 H2].
      apply Z.eqb_eq in H1, H2.
      destruct (viewportOf (outside s)), requiredSize; cbn in *; congruence. }
    unfold setViewportSize. rewrite verbose_then.
    match goal with
    | |- context [makePromise (catch ?p ?g)] =>
      assert (Hp : p s
                   = mkRun (Resolved (CallResolve tt))
                       (final (getViewportSize (PS:=PS) browser s))
                       (emitted (getViewportSize (PS:=PS) browser s)
                        ++ [LogVerbose "Initial viewport size:"
                              [width (viewportOf (outside s));
                               height (viewportOf (outside s))]]))
    end.
    { rewrite (then_resolved _ _ _ _ Ho). cbn beta. rewrite Hsame.
      reflexivity. }
    rewrite (executor_resolved _ _ s tt); rewrite Hp; [|reflexivity].
    cbn [outcome final emitted]. split; [reflexivity|].
    split.
    { rewrite <- E. unfold viewportOf. now rewrite Hw. }
    split; [exact Hd|].
    rewrite resizeCalls_cons, resizeCalls_app, Hn. cbn. lia.
  - unfold setViewportSize. rewrite verbose_then.
    cbn [outcome final emitted].
    set (s0 := final (getViewportSize (PS:=PS) browser s)) in *.
    assert (Hchain : exists n,
      leaves
        ((catch (call (WindowSetPosition 0 0) (window_setPosition browser 0 0))
                (fun _ =>
                   verbose "Warning: Failed to move the browser window to (0,0)" []) ;;
          setBrowserSizeByViewportSize browser (viewportOf (outside s)) requiredSize ;;
          actualViewportSize <- getViewportSize browser ;;
          if sameSize actualViewportSize requiredSize
          then resolve (CallResolve tt)
          else
            verbose "Trying workaround for maximization..." [] ;;
            setBrowserSizeByViewportSize browser actualViewportSize requiredSize ;;
            actualViewportSize <- getViewportSize browser ;;
            verbose "Current viewport size:"
                    [width actualViewportSize; height actualViewportSize] ;;
            if sameSize actualViewportSize requiredSize
            then resolve (CallResolve tt)
            else
              browserSize <- call WindowGetSize (window_getSize browser) ;;
              zoomWorkaround browser requiredSize actualViewportSize browserSize)
           s0)
        (CallResolve tt)
        (mkSize (width requiredSize + width frame)
                (height requiredSize + height frame)) (dom s) n
      /\ (n <= 1)%nat).
    { exists (0 + (1 + (0 + 0)))%nat. split; [|lia].
      apply leaves_then with (a := tt) (w1 := windowOf (outside s)).
      { unfold catch, then2, call, invoke.
        destruct (honest_setPosition Hhonest 0 0 (outside s0))
          as (o & x1 & -> & Hnp & Hw1).
        destruct o as [[]|e|]; [| |contradiction]; cbn;
          unfold leaves; cbn; rewrite Hw1; auto. }
      intros s1 Hw1 Hd1.
      assert (Ev : viewportOf (outside s) = viewportOf (outside s1)).
      { unfold viewportOf. now rewrite Hw1. }
      rewrite Ev.
      apply leaves_then with (a := true)
                             (w1 := mkSize (width requiredSize + width frame)
                                           (height requiredSize + height frame)).
      { pose proof (setBrowserSizeByViewportSize_honest requiredSize s1) as H.
        rewrite Hd1 in H. exact H. }
      intros s2 Hw2 Hd2.
      apply leaves_then with (a := requiredSize)
                             (w1 := mkSize (width requiredSize + width frame)
                                           (height requiredSize + height frame)).
      { pose proof (getViewportSize_honest s2) as H.
        rewrite (Hview s2 Hw2), Hw2, Hd2 in H. exact H. }
      intros s3 Hw3 Hd3. rewrite sameSize_refl.
      pose proof (leaves_resolve (CallResolve tt) s3) as H.
      rewrite Hw3, Hd3 in H. exact H. }
    destruct Hchain as (n & (Hco & Hcw & Hcd & Hcn) & Hle).
    match type of Hco with
    | outcome (?chain s0) = _ => set (c := chain) in *
    end.
    match goal with
    | |- context [makePromise (catch ?p ?g)] =>
      assert (Hp : p s = mkRun (Resolved (CallResolve tt)) (final (c s0))
                     (emitted (getViewportSize (PS:=PS) browser s)
                      ++ LogVerbose "Initial viewport size:"
                           [width (viewportOf (outside s));
                            height (viewportOf (outside s))]
                         :: emitted (c s0)))
    end.
    { rewrite (then_resolved _ _ _ _ Ho). fold s0. cbn beta.
      rewrite verbose_then. rewrite Hsame.
      unfold detached. fold c.
      destruct (c s0) as [o1 s1 ev1]. cbn in Hco. subst o1. reflexivity. }
    rewrite (executor_resolved _ _ s tt); rewrite Hp; [|reflexivity].
    cbn [outcome final emitted].
    split; [reflexivity|]. split; [apply Hview; exact Hcw|].
    split; [exact Hcd|].
    rewrite resizeCalls_cons, resizeCalls_app, resizeCalls_cons, Hn, Hcn.
    cbn. lia.
Qed.

End Facts.
End HonestBrowser.

Module HonestBrowserExamples.
Import Promise World EyesSeleniumUtils HonestBrowser.

(** A browser whose world is the size of its window, with a frame of 16x88
    around the viewport. *)
Definition plainBrowser : WebDriver Size :=
  mkWebDriver Size
    (fun w h _ => (Resolved tt, mkSize w h))
    (fun window => (Resolved window, window))
    (fun _ _ window => (Rejected "the window cannot be moved", window))
    (fun window => (Resolved (Some (width window - 16), Some (height window - 88)),
                    window))
    (fun window => (Resolved (Some 0, Some 0), window))
    (fun window => (Resolved 1%Q, window))
    (fun _ window => (Resolved false, window))
    (fun _ window => (Resolved tt, window))
    (fun style => style)
    (fun window => (Resolved nil, window))
    (fun _ window => (Resolved tt, window))
    (fun _ => 0).

Lemma plainBrowser_honest :
  honest plainBrowser (fun window => window) (mkSize 16 88).
Proof.
  constructor.
  - intros w h x. exists (mkSize w h). split; reflexivity.
  - intros x. exists x. split; reflexivity.
  - intros px py x. exists (Rejected "the window cannot be moved"), x.
    split; [reflexivity|]. split; [discriminate|reflexivity].
  - intros ms x. exists x. split; reflexivity.
  - intros x. exists x. split; reflexivity.
Qed.

Lemma honest_browser_gets_the_viewport_witness :
  honest plainBrowser (fun window => window) (mkSize 16 88)
  /\ outcome (setViewportSize (PS:=unit) plainBrowser (mkSize 800 600)
                (mkState (mkDom "" "") (mkSize 1024 768))) = Resolved tt
  /\ viewportOf (fun window => window) (mkSize 16 88)
       (outside (final (setViewportSize (PS:=unit) plainBrowser (mkSize 800 600)
                          (mkState (mkDom "" "") (mkSize 1024 768)))))
     = mkSize 800 600.
Proof.
  split; [exact plainBrowser_honest|].
  destruct (honest_browser_gets_the_viewport (PS:=unit) plainBrowser
              (fun window => window) (mkSize 16 88) plainBrowser_honest
              (mkSize 800 600) (mkState (mkDom "" "") (mkSize 1024 768)))
    as (H1 & H2 & _).
  split; assumption.
Defined.

End HonestBrowserExamples.

(** ** Hiding the scrollbars and putting them back *)
Module ScrollbarFacts.
Import Promise World EyesSeleniumUtils PromiseFacts WorldFacts RunLogic.

Section Facts.
Context {PS X : Type}.
Variable browser : WebDriver X.

Local Abbreviation P := (@World.P PS X).

(** The driver delivers every script, and every pause ends. *)
Definition responsive : Prop :=
  (forall script x, exists x',
      script_deliver browser script x = (Resolved tt, x'))
  /\ (forall ms x, exists x', sleep browser ms x = (Resolved tt, x')).

Lemma setOverflow_run (value : string) (s : State X) :
  responsive ->
  outcome (setOverflow (PS:=PS) browser (Str value) s)
  = Resolved (documentOverflow (dom s))
  /\ dom (final (setOverflow (PS:=PS) browser (Str value) s))
     = mkDom value (bodyOverflow (dom s)).
Proof.
  intros [Hdeliver Hsleep].
  unfold setOverflow, executeScript, executeOverflowScript, then_, then2,
    call, invoke. cbn.
  destruct (Hdeliver (JS_SET_OVERFLOW (Some value)) (outside s)) as [x1 ->].
  cbn. destruct (Hsleep 100 x1) as [x2 ->]. cbn. auto.
Qed.

Lemma setBodyOverflow_run (value : string) (s : State X) :
  responsive ->
  outcome (setBodyOverflow (PS:=PS) browser (Str value) s)
  = Resolved (bodyOverflow (dom s))
  /\ dom (final (setBodyOverflow (PS:=PS) browser (Str value) s))
     = mkDom (documentOverflow (dom s)) value.
Proof.
  intros [Hdeliver Hsleep].
  unfold setBodyOverflow, executeScript, executeOverflowScript, then_, then2,
    call, invoke. cbn.
  destruct (Hdeliver (JS_SET_BODY_OVERFLOW (Some value)) (outside s)) as [x1 ->].
  cbn. destruct (Hsleep 100 x1) as [x2 ->]. cbn. auto.
Qed.

(** X22. With a driver that delivers every script, [hideScrollbars] resolves to
    the inline overflow style that the document had and leaves [hidden] in
    it without touching the style of the body; passing the value it
    resolved to back to [setOverflow] resolves to [hidden] and leaves both
    inline styles as they were at the start.  [setBodyOverflow] does the
    same for the style of the body. *)
Theorem overflow_round_trip (value : string) (s : State X) :
  responsive ->
  let hidden := hideScrollbars (PS:=PS) browser s in
  let back :=
    (original <- hideScrollbars (PS:=PS) browser ;;
     setOverflow browser (Str original)) s in
  let bodyBack :=
    (original <- setBodyOverflow (PS:=PS) browser (Str value) ;;
     setBodyOverflow browser (Str original)) s in
  (outcome hidden = Resolved (documentOverflow (dom s))
   /\ dom (final hidden) = mkDom "hidden" (bodyOverflow (dom s)))
  /\ (outcome back = Resolved "hidden" /\ dom (final back) = dom s)
  /\ (outcome bodyBack = Resolved value /\ dom (final bodyBack) = dom s).
Proof.
  intros Hresp hidden back bodyBack.
  assert (Heta : forall d, mkDom (documentOverflow d) (bodyOverflow d) = d)
    by (intros []; reflexivity).
  split; [exact (setOverflow_run "hidden" s Hresp)|]. split.
  - subst back. unfold hideScrollbars.
    destruct (setOverflow_run "hidden" s Hresp) as [Ho Hd].
    rewrite (then_resolved _ _ _ _ Ho). cbn [outcome final].
    destruct (setOverflow_run (documentOverflow (dom s))
                (final (setOverflow (PS:=PS) browser (Str "hidden") s)) Hresp)
      as [Ho' Hd'].
    rewrite Ho', Hd', Hd. cbn. split; [reflexivity|apply Heta].
  - subst bodyBack.
    destruct (setBodyOverflow_run value s Hresp) as [Ho Hd].
    rewrite (then_resolved _ _ _ _ Ho). cbn [outcome final].
    destruct (setBodyOverflow_run (bodyOverflow (dom s))
                (final (setBodyOverflow (PS:=PS) browser (Str value) s)) Hresp)
      as [Ho' Hd'].
    rewrite Ho', Hd', Hd. cbn. split; [reflexivity|apply Heta].
Qed.

End Facts.
End ScrollbarFacts.

Module ScrollbarExamples.
Import Promise World EyesSeleniumUtils ScrollbarFacts.

Lemma overflow_round_trip_witness :
  responsive SizerExamples.stuckBrowser
  /\ outcome ((original <- hideScrollbars (PS:=unit) SizerExamples.stuckBrowser ;;
               setOverflow SizerExamples.stuckBrowser (Str original))
                (mkState (mkDom "scroll" "auto") tt))
     = Resolved "hidden"
  /\ dom (final ((original <- hideScrollbars (PS:=unit) SizerExamples.stuckBrowser ;;
                  setOverflow SizerExamples.stuckBrowser (Str original))
                   (mkState (mkDom "scroll" "auto") tt)))
     = mkDom "scroll" "auto".
Proof.
  assert (H : responsive SizerExamples.stuckBrowser).
  { split; intros ? []; exists tt; reflexivity. }
  split; [exact H|].
  exact (proj1 (proj2 (overflow_round_trip (PS:=unit) SizerExamples.stuckBrowser
                         "initial" (mkState (mkDom "scroll" "auto") tt) H))).
Defined.

End ScrollbarExamples.

(** ** A tiled capture *)
Module TiledCaptureFacts.
Import Promise World EyesSeleniumUtils PromiseFacts WorldFacts RunLogic
  CaptureFacts.

Definition isShot {PS : Type} (e : Event PS) : bool :=
  match e with TakeScreenshot => true | _ => false end.

(** The number of [browser.takeScreenshot] calls in a run. *)
Definition shots {PS : Type} (tr : list (Event PS)) : nat :=
  List.length (filter isShot tr).

(** The tile is not the one at (0,0). *)
Definition offOrigin (part : Rect) : bool :=
  negb ((left part =? 0) && (top part =? 0)).

Lemma shots_app {PS : Type} (a b : list (Event PS)) :
  shots (a ++ b) = (shots a + shots b)%nat.
Proof. unfold shots. now rewrite filter_app, length_app. Qed.

Section Facts.
Context {PS X Img : Type}.
Variable browser : WebDriver X.
Variable sdk : Sdk X PS Img.

Local Abbreviation P := (@World.P PS X).

Definition noShot (e : Event PS) : Prop := isShot e = false.

Let any_refl : forall s : State X, anyState s s := fun _ => I.
Let any_trans :
  forall a b c : State X, anyState a b -> anyState b c -> anyState a c
  := fun _ _ _ _ _ => I.
Let any_outside : forall (s : State X) x', anyState s (mkState (dom s) x')
  := fun _ _ => I.
Let HS : forall e : Event PS, isShot e = false -> noShot e := fun _ H => H.

Lemma shots_none (tr : list (Event PS)) : Forall noShot tr -> shots tr = 0%nat.
Proof.
  unfold shots, noShot. induction 1 as [|e tr He _ IH]; cbn; [reflexivity|].
  rewrite He. exact IH.
Qed.

Lemma noShot_invoke_new (bytes : Buffer) :
  respects noShot anyState
    (invoke (E:=Event PS) NewMutableImage
       (fun s : State X =>
          let (img, x') := newMutableImage sdk bytes (outside s) in
          (Resolved img, mkState (dom s) x'))).
Proof.
  intros s. unfold invoke.
  destruct (newMutableImage sdk bytes (outside s)) as [img x']; cbn.
  split; [|exact I]. constructor; [reflexivity|constructor].
Qed.

Lemma noShot_getCurrentScrollPosition :
  respects noShot anyState (getCurrentScrollPosition (PS:=PS) browser).
Proof.
  unfold getCurrentScrollPosition, executeScript.
  repeat respects_step HS.
Qed.

Lemma noShot_saveDebug flag path (img : Img) tag :
  respects noShot anyState (saveDebug browser sdk flag path img tag).
Proof.
  unfold saveDebug, when. destruct flag; [|respects_step HS].
  apply (respects_reading noShot anyState
           (fun s0 => call (ImageSaveImage path (getTime browser (outside s0)) tag)
                        (imageSaveImage sdk img path
                           (getTime browser (outside s0)) tag))).
  intros s0. respects_step HS.
Qed.

(** A capture of the viewport that resolves has taken exactly one
    screenshot. *)
Lemma captureViewport_takes_one_shot viewportSize entirePageSize pixelRatio
    rotationDegrees automaticRotation automaticRotationDegrees isLandscape
    waitBeforeScreenshots regionInScreenshot saveDebugScreenshots
    debugScreenshotsPath (s : State X) :
  ensures
    (_captureViewport browser sdk viewportSize entirePageSize pixelRatio
       rotationDegrees automaticRotation automaticRotationDegrees isLandscape
       waitBeforeScreenshots regionInScreenshot saveDebugScreenshots
       debugScreenshotsPath) s
    (fun _ _ ev => shots ev = 1%nat).
Proof.
  unfold _captureViewport.
  apply ensures_then. apply ensures_call. intros [] x1 _. cbn beta.
  apply ensures_then. apply ensures_call. intros screenshot64 x2 _. cbn beta.
  eapply ensures_conseq.
  - apply (respects_ensures noShot anyState).
    unfold when.
    repeat first
      [ apply noShot_invoke_new
      | apply noShot_saveDebug
      | apply noShot_getCurrentScrollPosition
      | respects_step HS ].
  - cbn beta. intros img s' ev [Hev _].
    rewrite !shots_app, (shots_none _ Hev). reflexivity.
Qed.

Section Run.
Variable viewportSize : Size.
Variable fullPage : bool.
Variable rotationDegrees : Z.
Variable automaticRotation : bool.
Variable automaticRotationDegrees : Z.
Variable isLandscape : bool.
Variable waitBeforeScreenshots : Z.
Variable checkFrameOrElement : bool.
Variable saveDebugScreenshots : bool.
Variable debugScreenshotsPath : string.

Local Abbreviation tileAndStitch' :=
  (tileAndStitch browser sdk viewportSize fullPage rotationDegrees
     automaticRotation automaticRotationDegrees isLandscape
     waitBeforeScreenshots checkFrameOrElement saveDebugScreenshots
     debugScreenshotsPath).

Lemma processPart_counts part imageObj (promise : P (list Part))
    entirePageSize pixelRatio region (s : State X) (n k : nat) :
  ensures promise s (fun parts _ ev => List.length parts = n /\ shots ev = k) ->
  ensures
    (_processPart browser sdk part imageObj promise viewportSize
       entirePageSize pixelRatio rotationDegrees automaticRotation
       automaticRotationDegrees isLandscape waitBeforeScreenshots region
       saveDebugScreenshots debugScreenshotsPath) s
    (fun parts _ ev =>
       List.length parts = S n
       /\ shots ev = (k + if offOrigin part then 1 else 0)%nat).
Proof.
  intros Hp. unfold _processPart.
  eapply ensures_then_later; [exact Hp|]. cbn beta.
  intros parts s1 ev1 [Hn Hk].
  apply ensures_makePromise. unfold offOrigin.
  destruct ((left part =? 0) && (top part =? 0)).
  - apply ensures_resolve. unfold push.
    rewrite length_app, app_nil_r. cbn. split; lia.
  - apply ensures_then. apply ensures_call. intros [] x1 _. cbn beta.
    apply ensures_then. apply ensures_call. intros cur x2 _. cbn beta.
    eapply ensures_then_later; [apply captureViewport_takes_one_shot|].
    cbn beta. intros img s2 ev2 Hs.
    apply ensures_then. apply ensures_call. intros obj x3 _. cbn beta.
    apply ensures_resolve. unfold push.
    rewrite length_app, !shots_app, Hs. cbn. split; lia.
Qed.

Lemma fold_counts imageObj entirePageSize pixelRatio region
    (screenshotParts : list Rect) :
  forall (promise : P (list Part)) (s : State X) (n k : nat),
    ensures promise s (fun parts _ ev => List.length parts = n /\ shots ev = k) ->
    ensures
      (fold_left
         (fun promise part =>
            _processPart browser sdk part imageObj promise viewportSize
              entirePageSize pixelRatio rotationDegrees automaticRotation
              automaticRotationDegrees isLandscape waitBeforeScreenshots
              region saveDebugScreenshots debugScreenshotsPath)
         screenshotParts promise) s
      (fun parts _ ev =>
         List.length parts = (n + List.length screenshotParts)%nat
         /\ shots ev = (k + List.length (filter offOrigin screenshotParts))%nat).
Proof.
  induction screenshotParts as [|part rest IH]; intros promise s n k Hp;
    cbn [fold_left].
  - eapply ensures_conseq; [exact Hp|]. cbn. intros; lia.
  - eapply ensures_conseq.
    + apply IH. apply processPart_counts. exact Hp.
    + cbn. intros parts s' ev [Hn Hk]. destruct (offOrigin part); cbn; lia.
Qed.

(** The tiles are asked for: the caller wants the full page, or a frame or
    element, and the first capture does not cover the page. *)
Definition tilingNeeded (c : Captured (PS:=PS) (Img:=Img)) : Prop :=
  (fullPage = true \/ checkFrameOrElement = true)
  /\ (objWidth (imageObject c) < width (entirePageSize c)
      \/ objHeight (imageObject c) < height (entirePageSize c)).

Definition pageRect (c : Captured (PS:=PS) (Img:=Img)) : Rect :=
  mkRect 0 0 (width (entirePageSize c)) (height (entirePageSize c)).

Definition partSize (c : Captured (PS:=PS) (Img:=Img)) : Size :=
  mkSize (objWidth (imageObject c))
         (Z.max (objHeight (imageObject c) - MAX_SCROLLBAR_SIZE)
                MIN_SCREENSHOT_PART_HEIGHT).

(** X23. When the first capture does not cover the page and the tiling
    completes, the browser has been asked for one screenshot for each tile
    that does not start at (0,0) and for no other (the tile at (0,0) takes
    the first capture), and the stitcher has been given exactly one part
    for each tile. *)
Theorem tiled_capture_takes_one_shot_per_tile
    (c : Captured (PS:=PS) (Img:=Img)) (s : State X)
    (screenshotParts : list Rect) (img : Img) :
  tilingNeeded c ->
  getSubRegions sdk (pageRect c) (partSize c) false = inr screenshotParts ->
  outcome (tileAndStitch' c s) = Resolved img ->
  shots (emitted (tileAndStitch' c s))
  = List.length (filter offOrigin screenshotParts)
  /\ In (StitchImage (List.length screenshotParts))
        (emitted (tileAndStitch' c s)).
Proof.
  intros [Hmode Hsmall] Hsub Hres.
  apply (ensures_elim (tileAndStitch' c) s
           (fun _ _ ev =>
              shots ev = List.length (filter offOrigin screenshotParts)
              /\ In (StitchImage (List.length screenshotParts)) ev) img);
    [|exact Hres].
  unfold tileAndStitch. apply ensures_makePromise.
  assert (E1 : negb fullPage && negb checkFrameOrElement = false)
    by (destruct Hmode as [-> | ->]; [reflexivity|apply andb_false_r]).
  assert (E2 : (objWidth (imageObject c) >=? width (entirePageSize c))
               && (objHeight (imageObject c) >=? height (entirePageSize c))
               = false).
  { destruct (Z.geb_spec (objWidth (imageObject c)) (width (entirePageSize c)));
      destruct (Z.geb_spec (objHeight (imageObject c))
                           (height (entirePageSize c))); cbn; auto; lia. }
  rewrite E1, E2. cbn zeta.
  apply ensures_then. unfold ensures at 1. cbn [emit outcome final emitted].
  fold (pageRect c) (partSize c). rewrite Hsub.
  apply ensures_detached; [|intros; exact I].
  eapply ensures_then_later.
  - apply (fold_counts (imageObject c) (entirePageSize c) (pixelRatio c) _
             screenshotParts (resolve []) s 0 0).
    apply ensures_resolve. split; reflexivity.
  - cbn beta. intros parts s1 ev1 [Hn Hk].
    apply ensures_then. apply ensures_call. intros stitched x2 _. cbn beta.
    apply ensures_then. unfold ensures at 1, invoke.
    destruct (newMutableImage sdk stitched _) as [image x3].
    cbn [outcome final emitted].
    apply ensures_resolve.
    rewrite !shots_app, Hk, Hn. cbn. split; [lia|].
    right. apply in_or_app. right. left. reflexivity.
Qed.

End Run.
End Facts.
End TiledCaptureFacts.

Module TiledCaptureExamples.
Import Promise World EyesSeleniumUtils TiledCaptureFacts CaptureExamples.

(** What the steps before the tiling leave for a page of 100x250 seen
    through a viewport of 100x100. *)
Definition tallPage : Captured (PS:=Point) (Img:=Size) :=
  mkCaptured (Some (mkPoint 0 40)) (Str "scroll") Undefined (mkSize 100 250)
    None 1%Q (mkImageObject nil 100 100) (mkSize 100 100).

Definition tallPageTiles : list Rect :=
  cons (mkRect 0 0 100 50) (cons (mkRect 0 50 100 50)
    (cons (mkRect 0 100 100 50) (cons (mkRect 0 150 100 50)
      (cons (mkRect 0 200 100 50) nil)))).

Lemma tiled_capture_takes_one_shot_per_tile_witness :
  shots (emitted (tileAndStitch (pageDriver false) (pageSdk (mkSize 100 250))
                    (mkSize 100 100) true 0 false 0 false 0 false false ""
                    tallPage (scrolledPage 0 150 true))) = 4%nat
  /\ In (StitchImage 5)
        (emitted (tileAndStitch (pageDriver false) (pageSdk (mkSize 100 250))
                    (mkSize 100 100) true 0 false 0 false 0 false false ""
                    tallPage (scrolledPage 0 150 true))).
Proof.
  apply (tiled_capture_takes_one_shot_per_tile (pageDriver false)
           (pageSdk (mkSize 100 250)) (mkSize 100 100) true 0 false 0 false 0
           false false "" tallPage (scrolledPage 0 150 true) tallPageTiles
           (mkSize 100 100)).
  - split; [left; reflexivity|right; cbn; lia].
  - vm_compute. reflexivity.
  - vm_compute. reflexivity.
Defined.

End TiledCaptureExamples.

(** ** The settings of the debug screenshots *)
Module DebugScreenshotsFacts.
Import DebugScreenshotsProvider.



Lemma truthy_not_empty (v : string) : truthy (Some v) = true <-> v <> "".
Proof.
  unfold truthy. destruct (String.eqb_spec v ""); cbn; split; congruence.
Qed.


(** [setPrefix] never leaves an empty prefix: a missing or empty argument
    gives the default prefix, any other argument is kept as it is; the path
    is not touched. *)
Lemma setPrefix_never_empty (this : t) (value : option string) :
  getPrefix (setPrefix this value) <> ""
  /\ (truthy value = false ->
      getPrefix (setPrefix this value) = DEFAULT_PREFIX)
  /\ (forall v, value = Some v -> truthy value = true ->
        getPrefix (setPrefix this value) = v)
  /\ getPath (setPrefix this value) = getPath this.
Proof.
  unfold setPrefix, getPrefix, getPath. cbn [_prefix _path].
  destruct value as [v|].
  - destruct (truthy (Some v)) eqn:Ht.
    + split; [exact (proj1 (truthy_not_empty v) Ht)|].
      split; [discriminate|]. split; [intros v' [= <-] _; reflexivity|].
      reflexivity.
    + split; [discriminate|]. split; [reflexivity|].
      split; [intros; discriminate|reflexivity].
  - split; [discriminate|]. split; [reflexivity|].
    split; [intros; discriminate|reflexivity].
Qed.

End DebugScreenshotsFacts.

(** ** From camel case to the name of an environment variable *)
Module ConfigUtilsFacts.
Import Ascii ConfigUtils.

Definition isLetterOrDigit (c : ascii) : bool :=
  ((48 <=? nat_of_ascii c)%nat && (nat_of_ascii c <=? 57)%nat)
  || ((65 <=? nat_of_ascii c)%nat && (nat_of_ascii c <=? 90)%nat)
  || ((97 <=? nat_of_ascii c)%nat && (nat_of_ascii c <=? 122)%nat).

Fixpoint allChars (f : ascii -> bool) (str : string) : bool :=
  match str with
  | EmptyString => true
  | String c rest => f c && allChars f rest
  end.

(** No capital comes directly after a capital; [afterCapital] tells whether
    the character before [str] is one. *)
Fixpoint capitalsApart (afterCapital : bool) (str : string) : bool :=
  match str with
  | EmptyString => true
  | String c rest =>
    negb (afterCapital && isCapital c) && capitalsApart (isCapital c) rest
  end.

(** An underscore before every capital. *)
Fixpoint underscoreCapitals (str : string) : string :=
  match str with
  | EmptyString => EmptyString
  | String c rest =>
    if isCapital c then String "_" (String c (underscoreCapitals rest))
    else String c (underscoreCapitals rest)
  end.

(** The name in upper case, its words (each capital that is not the first
    character starts one) separated by underscores. *)
Definition upperSnakeCase (str : string) : string :=
  toUpperCase
    match str with
    | EmptyString => EmptyString
    | String c rest => String c (underscoreCapitals rest)
    end.

Lemma letterOrDigit_matchesDot (c : ascii) :
  isLetterOrDigit c = true -> matchesDot c = true.
Proof.
  unfold isLetterOrDigit, matchesDot. intros H.
  destruct (Nat.eqb_spec (nat_of_ascii c) 10) as [E|_];
    [rewrite E in H; discriminate|].
  destruct (Nat.eqb_spec (nat_of_ascii c) 13) as [E|_];
    [rewrite E in H; discriminate|].
  reflexivity.
Qed.

Lemma allChars_impl (f g : ascii -> bool) (str : string) :
  (forall c, f c = true -> g c = true) ->
  allChars f str = true -> allChars g str = true.
Proof.
  intros Hfg. induction str as [|c rest IH]; cbn; [reflexivity|].
  rewrite !andb_true_iff. intros [Hc Hr]. auto.
Qed.

Lemma replaceBeforeCapitals_eq (c d : ascii) (rest : string) :
  replaceBeforeCapitals (String c (String d rest))
  = if matchesDot c && isCapital d
    then String c (String "_" (String d (replaceBeforeCapitals rest)))
    else String c (replaceBeforeCapitals (String d rest)).
Proof. reflexivity. Qed.

Lemma replaceBeforeCapitals_spaced (str : string) :
  allChars matchesDot str = true ->
  (forall c, matchesDot c = true -> capitalsApart (isCapital c) str = true ->
     replaceBeforeCapitals (String c str) = String c (underscoreCapitals str))
  /\ (capitalsApart true str = true ->
      replaceBeforeCapitals str = underscoreCapitals str).
Proof.
  induction str as [|d rest IH]; intros Hdot.
  - split; reflexivity.
  - cbn [allChars] in Hdot. apply andb_true_iff in Hdot as [Hd Hrest].
    destruct (IH Hrest) as [IH1 IH2].
    assert (Hsecond : capitalsApart (isCapital d) rest = true ->
                      isCapital d = false ->
                      replaceBeforeCapitals (String d rest)
                      = underscoreCapitals (String d rest)).
    { intros Hsp Hcap. rewrite (IH1 d Hd Hsp).
      cbn [underscoreCapitals]. rewrite Hcap. reflexivity. }
    split.
    + intros c Hc Hsp. cbn [capitalsApart] in Hsp.
      apply andb_true_iff in Hsp as [Hcd Hsp].
      rewrite replaceBeforeCapitals_eq, Hc. cbn [andb].
      destruct (isCapital d) eqn:Hcap.
      * cbn [underscoreCapitals]. rewrite Hcap.
        rewrite (IH2 Hsp). reflexivity.
      * rewrite (Hsecond Hsp eq_refl). reflexivity.
    + intros Hsp. cbn [capitalsApart] in Hsp.
      apply andb_true_iff in Hsp as [Hcd Hsp]. cbn [andb] in Hcd.
      apply negb_true_iff in Hcd. apply Hsecond; assumption.
Qed.

(** X25. For a name made of letters and digits in which no capital comes
    directly after a capital, [toEnvVarName] gives the name in upper case
    with one underscore before each capital that is not its first
    character. *)
Theorem toEnvVarName_of_camelCase (camelCaseStr : string) :
  allChars isLetterOrDigit camelCaseStr = true ->
  capitalsApart false camelCaseStr = true ->
  toEnvVarName camelCaseStr = upperSnakeCase camelCaseStr.
Proof.
  intros Hchars Hsp. unfold toEnvVarName, upperSnakeCase. f_equal.
  apply (allChars_impl _ _ _ letterOrDigit_matchesDot) in Hchars.
  destruct camelCaseStr as [|c rest]; [reflexivity|].
  cbn [allChars] in Hchars. apply andb_true_iff in Hchars as [Hc Hrest].
  cbn [capitalsApart andb negb] in Hsp.
  exact (proj1 (replaceBeforeCapitals_spaced rest Hrest) c Hc Hsp).
Qed.

Lemma toEnvVarName_of_camelCase_witness :
  toEnvVarName "serverUrl2Use" = "SERVER_URL2_USE".
Proof.
  apply (toEnvVarName_of_camelCase "serverUrl2Use"); reflexivity.
Defined.

(** Capitals in a row are not all separated: the search goes on after the
    capital of a match, so the capital that follows it starts no match. *)
Example toEnvVarName_of_capitals_in_a_row :
  toEnvVarName "serverURL" = "SERVER_UR_L"
  /\ upperSnakeCase "serverURL" = "SERVER_U_R_L".
Proof. split; reflexivity. Qed.

End ConfigUtilsFacts.

(** ** Closing the batches *)
Module EyesRunnerFacts.
Import Promise PromiseFacts EyesRunner.

Lemma has_In (set : list string) (value : string) :
  has set value = true <-> In value set.
Proof.
  unfold has. rewrite existsb_exists. split.
  - intros [x [Hin Heq]]. apply String.eqb_eq in Heq. now subst.
  - intros Hin. exists value. split; [assumption|apply String.eqb_refl].
Qed.

(** One turn of the loop of [_closeAllBatches]. *)
Definition visit {X : Type} (batchIds : list string) (eyesInstance : Eyes X)
  : list string :=
  let batchId := getBatchId eyesInstance in
  if negb (has batchIds batchId) then add batchIds batchId else batchIds.

Lemma visit_cases {X : Type} (batchIds : list string) (eyes : Eyes X) :
  visit batchIds eyes
  = if has batchIds (getBatchId eyes) then batchIds
    else batchIds ++ [getBatchId eyes].
Proof.
  unfold visit, add. cbn zeta.
  destruct (has batchIds (getBatchId eyes)); reflexivity.
Qed.

Lemma collect_step {X : Type} (instances : list (Eyes X)) :
  forall acc : list string,
    NoDup acc ->
    NoDup (fold_left visit instances acc)
    /\ (forall id, In id (fold_left visit instances acc)
                   <-> In id acc \/ In id (map getBatchId instances))
    /\ exists added, fold_left visit instances acc = acc ++ added.
Proof.
  induction instances as [|eyes rest IH]; intros acc Hacc;
    cbn [fold_left map].
  - split; [assumption|]. split; [cbn; tauto|].
    exists []. now rewrite app_nil_r.
  - rewrite visit_cases.
    destruct (has acc (getBatchId eyes)) eqn:Hhas.
    + apply has_In in Hhas.
      destruct (IH acc Hacc) as (Hnd & Hin & added & Hadd).
      split; [assumption|]. split; [|eauto].
      intros id. rewrite Hin. cbn [In]. intuition (subst; auto).
    + assert (Hnot : ~ In (getBatchId eyes) acc).
      { intros H. apply has_In in H. congruence. }
      assert (Hacc' : NoDup (acc ++ [getBatchId eyes])).
      { apply NoDup_app; [assumption|repeat constructor; auto|].
        intros a Ha [<-|[]]. contradiction. }
      destruct (IH _ Hacc') as (Hnd & Hin & added & Hadd).
      split; [assumption|]. split.
      * intros id. rewrite Hin, in_app_iff. cbn [In]. intuition auto.
      * exists (getBatchId eyes :: added). rewrite Hadd, <- app_assoc.
        reflexivity.
Qed.

Lemma emitted_all {X : Type} (connector : ServerConnector X)
    (batchIds : list string) :
  forall w : X,
    emitted (all (map (fun batchId =>
                         invoke (DeleteBatchSessions batchId)
                                (deleteBatchSessions connector batchId))
                      batchIds) w)
    = map DeleteBatchSessions batchIds.
Proof.
  induction batchIds as [|batchId rest IH]; intros w; cbn; [reflexivity|].
  unfold invoke at 1.
  destruct (deleteBatchSessions connector batchId w) as [o w1].
  specialize (IH w1).
  destruct (all _ w1) as [os w2 ev2]. cbn in IH |- *. now rewrite IH.
Qed.

(** X26. [_closeAllBatches] asks the server to delete the sessions of every
    batch that some instance belongs to, once for each batch however many
    instances share it, and of no other batch; every request is made,
    whatever becomes of the ones before it, and the first one is for the
    batch of the first instance.  Without instances nothing is asked and
    the call resolves. *)
Theorem each_batch_is_closed_once {X : Type}
    (_eyesInstances : list (Eyes X)) (w : X) :
  let r := _closeAllBatches _eyesInstances w in
  (exists batchIds,
     emitted r = map DeleteBatchSessions batchIds
     /\ NoDup batchIds
     /\ (forall batchId,
           In batchId batchIds
           <-> exists eyes, In eyes _eyesInstances /\ getBatchId eyes = batchId)
     /\ hd_error batchIds = hd_error (map getBatchId _eyesInstances))
  /\ (_eyesInstances = [] -> r = mkRun (Resolved tt) w []).
Proof.
  intros r. subst r. split; [|intros ->; reflexivity].
  destruct _eyesInstances as [|first rest].
  - exists []. cbn. split; [reflexivity|]. split; [constructor|].
    split; [|reflexivity]. split; [tauto|]. intros (eyes & [] & _).
  - exists (collectBatchIds (first :: rest)).
    unfold _closeAllBatches. cbn zeta.
    rewrite emitted_then_, emitted_all.
    change (collectBatchIds (first :: rest))
      with (fold_left visit (first :: rest) []).
    destruct (collect_step (first :: rest) [] (NoDup_nil _))
      as (Hnd & Hin & _).
    split.
    { destruct (outcome _); cbn; apply app_nil_r. }
    split; [exact Hnd|]. split.
    + intros batchId. rewrite Hin, in_map_iff. cbn [In].
      split.
      * intros [[]|(eyes & E & H)]. eauto.
      * intros (eyes & H & E). right. eauto.
    + cbn [fold_left map hd_error]. rewrite visit_cases. cbn [has existsb app].
      destruct (collect_step rest [getBatchId first]
                  ltac:(repeat constructor; auto)) as (_ & _ & added & ->).
      reflexivity.
Qed.

End EyesRunnerFacts.

(** ** Captures that leave the page alone *)
Module PlainCaptureFacts.
Import Promise World EyesSeleniumUtils PromiseFacts WorldFacts RunLogic
  CaptureFacts.

(** The calls that move the page: [setPosition] and [restoreState] of the
    position provider. *)
Definition isMove {PS : Type} (e : Event PS) : bool :=
  match e with
  | SetPosition _ | RestoreState _ => true
  | _ => false
  end.

Section Facts.
Context {PS X Img : Type}.
Variable browser : WebDriver X.
Variable sdk : Sdk X PS Img.

Local Abbreviation P := (@World.P PS X).

Lemma final_then {A B} (p : P A) (f : A -> P B) (s : State X) :
  final (then_ p f s)
  = match outcome (p s) with
    | Resolved a => final (f a (final (p s)))
    | _ => final (p s)
    end.
Proof.
  unfold then_, then2. destruct (p s) as [[a|e|] s1 ev1]; cbn;
    [destruct (f a s1)|..]; reflexivity.
Qed.

(** *** Runs that do not move the page *)
Section Still.

Definition still (e : Event PS) : Prop := isMove e = false.

Let any_refl : forall s : State X, anyState s s := fun _ => I.
Let any_trans :
  forall a b c : State X, anyState a b -> anyState b c -> anyState a c
  := fun _ _ _ _ _ => I.
Let any_outside : forall (s : State X) x', anyState s (mkState (dom s) x')
  := fun _ _ => I.
Let HM : forall e : Event PS, isMove e = false -> still e := fun _ H => H.

Definition calm {A : Type} (p : P A) : Prop := respects still anyState p.

Lemma calm_invoke_new (bytes : Buffer) :
  calm (invoke (E:=Event PS) NewMutableImage
          (fun s : State X =>
             let (img, x') := newMutableImage sdk bytes (outside s) in
             (Resolved img, mkState (dom s) x'))).
Proof.
  intros s. unfold invoke.
  destruct (newMutableImage sdk bytes (outside s)) as [img x']; cbn.
  split; [|exact I]. constructor; [reflexivity|constructor].
Qed.

Lemma calm_executeScript {A} (run : P A) ms :
  calm run -> calm (executeScript browser run ms).
Proof.
  intros Hrun. unfold calm, executeScript.
  apply respects_then; auto. intros a.
  destruct ms as [ms|]; [destruct (ms =? 0)|]; repeat respects_step HM.
Qed.

Lemma calm_getCurrentScrollPosition :
  calm (getCurrentScrollPosition (PS:=PS) browser).
Proof.
  unfold calm, getCurrentScrollPosition, executeScript.
  repeat respects_step HM.
Qed.

Lemma calm_saveDebug flag path (img : Img) tag :
  calm (saveDebug browser sdk flag path img tag).
Proof.
  unfold calm, saveDebug, when. destruct flag; [|respects_step HM].
  apply (respects_reading still anyState
           (fun s0 => call (ImageSaveImage path (getTime browser (outside s0)) tag)
                        (imageSaveImage sdk img path
                           (getTime browser (outside s0)) tag))).
  intros s0. respects_step HM.
Qed.

Lemma calm_captureViewport viewportSize entirePageSize pixelRatio
    rotationDegrees automaticRotation automaticRotationDegrees isLandscape
    waitBeforeScreenshots regionInScreenshot saveDebugScreenshots
    debugScreenshotsPath :
  calm
    (_captureViewport browser sdk viewportSize entirePageSize pixelRatio
       rotationDegrees automaticRotation automaticRotationDegrees isLandscape
       waitBeforeScreenshots regionInScreenshot saveDebugScreenshots
       debugScreenshotsPath).
Proof.
  unfold calm, _captureViewport, when.
  repeat first
    [ apply calm_invoke_new
    | apply calm_saveDebug
    | apply calm_getCurrentScrollPosition
    | respects_step HM ].
Qed.

Lemma calm_executeOverflowScript script get set v :
  calm (executeOverflowScript (PS:=PS) browser script get set v).
Proof.
  intros s. unfold executeOverflowScript.
  destruct (script_deliver browser script (outside s)) as [[[]|e|] x']; cbn;
    (split; [repeat constructor|exact I]).
Qed.

Lemma calm_hideScrollbarsStep hideScrollbars useCssTransition :
  calm (hideScrollbarsStep (PS:=PS) browser hideScrollbars useCssTransition).
Proof.
  unfold calm, hideScrollbarsStep, setOverflow, setBodyOverflow.
  repeat first
    [ apply calm_executeOverflowScript
    | apply calm_executeScript
    | apply (respects_reading still anyState
               (fun s0 => call (ExecuteScript JS_GET_IS_BODY_OVERFLOW_HIDDEN)
                            (script_isBodyOverflowHidden browser (dom s0))));
      intros ?
    | respects_step HM ].
Qed.

Section Run.
Variable viewportSize : Size.
Variable hideScrollbars : option bool.
Variable useCssTransition : bool.
Variable rotationDegrees : Z.
Variable automaticRotation : bool.
Variable automaticRotationDegrees : Z.
Variable isLandscape : bool.
Variable waitBeforeScreenshots : Z.
Variable saveDebugScreenshots : bool.
Variable debugScreenshotsPath : string.

(** A capture of the viewport alone: neither the full page nor a frame or
    element is asked for. *)
Local Abbreviation viewportShot :=
  (getScreenshot browser sdk viewportSize false hideScrollbars
     useCssTransition rotationDegrees automaticRotation
     automaticRotationDegrees isLandscape waitBeforeScreenshots
     false saveDebugScreenshots debugScreenshotsPath).

Lemma calm_viewportShot : calm viewportShot.
Proof.
  unfold calm, getScreenshot, captureOrigin, tileAndStitch, restore,
    measurePage, measurePixelRatio, getDevicePixelRatio, scrollToOrigin,
    locateRegion, captureFirst, setOverflow, setBodyOverflow, when.
  cbn [negb andb].
  repeat first
    [ apply calm_hideScrollbarsStep
    | apply calm_captureViewport
    | apply calm_executeOverflowScript
    | apply calm_executeScript
    | respects_step HM ].
Qed.

(** X27. A capture of the viewport alone never moves the page: whatever happens
    during the run, the position provider is asked neither to set a
    position nor to restore a state. *)
Theorem viewport_capture_never_scrolls (s : State X) :
  Forall still (emitted (viewportShot s))
  /\ (forall p, ~ In (SetPosition p) (emitted (viewportShot s)))
  /\ (forall state, ~ In (RestoreState state) (emitted (viewportShot s))).
Proof.
  pose proof (proj1 (calm_viewportShot s)) as H.
  split; [exact H|]. rewrite Forall_forall in H.
  split; intros a Hin; specialize (H _ Hin); discriminate.
Qed.

End Run.
End Still.

(** *** Runs that leave the overflow styles alone *)
Section Styles.
Variable viewportSize : Size.
Variable fullPage : bool.
Variable hideScrollbars : option bool.
Variable useCssTransition : bool.
Variable rotationDegrees : Z.
Variable automaticRotation : bool.
Variable automaticRotationDegrees : Z.
Variable isLandscape : bool.
Variable waitBeforeScreenshots : Z.
Variable checkFrameOrElement : bool.
Variable saveDebugScreenshots : bool.
Variable debugScreenshotsPath : string.

Local Abbreviation captureOrigin' :=
  (captureOrigin browser sdk viewportSize fullPage hideScrollbars
     useCssTransition rotationDegrees automaticRotation
     automaticRotationDegrees isLandscape waitBeforeScreenshots
     checkFrameOrElement saveDebugScreenshots debugScreenshotsPath).
Local Abbreviation tileAndStitch' :=
  (tileAndStitch browser sdk viewportSize fullPage rotationDegrees
     automaticRotation automaticRotationDegrees isLandscape
     waitBeforeScreenshots checkFrameOrElement saveDebugScreenshots
     debugScreenshotsPath).
Local Abbreviation restore' :=
  (restore browser sdk fullPage hideScrollbars useCssTransition
     checkFrameOrElement).
Local Abbreviation getScreenshot' :=
  (getScreenshot browser sdk viewportSize fullPage hideScrollbars
     useCssTransition rotationDegrees automaticRotation
     automaticRotationDegrees isLandscape waitBeforeScreenshots
     checkFrameOrElement saveDebugScreenshots debugScreenshotsPath).

Let kept_refl : forall s : State X, domKept s s := fun _ => eq_refl.
Let kept_trans :
  forall a b c : State X, domKept a b -> domKept b c -> domKept a c.
Proof. unfold domKept. intros a b c H1 H2. congruence. Qed.
Let kept_outside : forall (s : State X) x', domKept s (mkState (dom s) x')
  := fun _ _ => eq_refl.
Let HQ : forall e : Event PS, isTiling e = false -> anyEvent e := fun _ _ => I.

Hypothesis notHiding : hideScrollbars' hideScrollbars useCssTransition = false.

Lemma keepsDom_captureOrigin : keepsDom captureOrigin'.
Proof.
  unfold keepsDom, captureOrigin, hideScrollbarsStep. rewrite notHiding.
  repeat first
    [ apply respects_measurePage; respects_side HQ
    | apply respects_measurePixelRatio; respects_side HQ
    | apply respects_scrollToOrigin; respects_side HQ
    | apply respects_locateRegion; respects_side HQ
    | apply respects_captureFirst; respects_side HQ
    | respects_step HQ ].
Qed.

Lemma captureOrigin_saves_nothing (s : State X) :
  ensures captureOrigin' s
    (fun c _ _ => truthy (originalBodyOverflow c) = false).
Proof.
  unfold captureOrigin, hideScrollbarsStep. rewrite notHiding.
  apply ensures_then_value. intros entirePageSize s1.
  apply ensures_then_value. intros pixelRatio s2.
  apply ensures_then. apply ensures_resolve.
  apply ensures_then_value. intros originalPosition s3.
  apply ensures_then_value. intros region s4.
  apply ensures_then_value. intros first s5.
  apply ensures_resolve. reflexivity.
Qed.

Lemma keepsDom_restore c (img : Img) :
  truthy (originalBodyOverflow c) = false -> keepsDom (restore' c img).
Proof.
  intros Hbody. unfold keepsDom, restore, when. rewrite notHiding, Hbody.
  repeat respects_step HQ.
Qed.

(** X28. When the scrollbars are not to be hidden, [getScreenshot] leaves the
    inline overflow styles of the document and of the body as they are,
    whatever happens during the run. *)
Theorem styles_are_untouched_without_hiding (s : State X) :
  dom (final (getScreenshot' s)) = dom s.
Proof.
  unfold getScreenshot. rewrite final_then.
  pose proof (proj2 (keepsDom_captureOrigin s)) as H1. unfold domKept in H1.
  destruct (outcome (captureOrigin' s)) as [c| |] eqn:Hc; try exact H1.
  pose proof (ensures_elim _ _ _ _ (captureOrigin_saves_nothing s) Hc) as Hbody.
  cbn beta in Hbody.
  rewrite final_then.
  pose proof (proj2 (keepsDom_tileAndStitch browser sdk viewportSize fullPage
                       rotationDegrees automaticRotation
                       automaticRotationDegrees isLandscape
                       waitBeforeScreenshots checkFrameOrElement
                       saveDebugScreenshots debugScreenshotsPath c
                       (final (captureOrigin' s)))) as H2.
  unfold domKept in H2.
  destruct (outcome (tileAndStitch' c (final (captureOrigin' s))))
    as [shot| |]; try (rewrite H2; exact H1).
  pose proof (proj2 (keepsDom_restore c shot Hbody
                       (final (tileAndStitch' c (final (captureOrigin' s))))))
    as H3.
  unfold domKept in H3. rewrite H3, H2. exact H1.
Qed.

End Styles.
End Facts.
End PlainCaptureFacts.

Module PlainCaptureExamples.
Import Promise World EyesSeleniumUtils PlainCaptureFacts CaptureExamples.

Lemma styles_are_untouched_without_hiding_witness :
  hideScrollbars' (Some false) true = false
  /\ dom (final (getScreenshot (pageDriver true) (pageSdk (mkSize 100 250))
                   (mkSize 100 100) true (Some false) true 0 false 0 false 0
                   false false "" (scrolledPage 0 150 true)))
     = mkDom "scroll" "".
Proof.
  split; [reflexivity|].
  apply (styles_are_untouched_without_hiding (pageDriver true)
           (pageSdk (mkSize 100 250)) (mkSize 100 100) true (Some false) true
           0 false 0 false 0 false false "" eq_refl (scrolledPage 0 150 true)).
Defined.

End PlainCaptureExamples.
